(** * Shenandoah adaptive heuristics: a shallow embedding

    Embedding of
    [src/hotspot/share/gc/shenandoah/heuristics/shenandoahAdaptiveHeuristics.cpp]:
    the allocation-rate estimator, the trigger decision, the post-cycle
    feedback rules, the runway estimator and the collection-set chooser.

    Conventions.
    - [size_t] is a [Z] in [0, 2^64); additions, subtractions and
      multiplications are reduced modulo [2^64] where the code performs them.
    - [double] is an exact rational [Q] in the trigger, the feedback rules
      and the runway estimate: rounding is not modelled there.  The one
      place where the IEEE behaviour of a zero divisor matters (a quotient
      that is an infinity or a NaN) is written out ([ddiv], [dgt_quot]).
    - Where the value of a [double] decides an integer, the computation is
      on binary64 values ([Binary64]), with rounding, infinities and NaN as
      they are: the evacuation caps of the chooser, which are truncated to
      [size_t], are computed there.  The clamp of the two trigger parameters
      and the rate of the estimator are given on binary64 values as well.
    - [os::elapsedTime()], the generation, the heap, the free set and the
      collection-set counters are inputs ([Collab]); the tunable flags are a
      record ([Flags]).
    - The base class [ShenandoahHeuristics] and the number sequences
      ([TruncatedSeq]) are not part of the file: their operations are the
      members of the classes [NumberSeq] and [BaseHeuristics]. *)

From Stdlib Require Import ZArith QArith Qround Bool List Lia Lqa.
From Stdlib Require Import Permutation Sorted.
From Stdlib Require Import Floats.
From Stdlib Require Uint63.
Import ListNotations.

Local Open Scope Z_scope.

(** ** Machine arithmetic *)

Module SizeT.

Definition modulus : Z := 2 ^ 64.

Definition wrap (z : Z) : Z := z mod modulus.

Definition add (a b : Z) : Z := wrap (a + b).
Definition sub (a b : Z) : Z := wrap (a - b).
Definition mul (a b : Z) : Z := wrap (a * b).

Definition in_range (z : Z) : Prop := 0 <= z < modulus.

(** [MIN2] / [MAX2] on [size_t]: [(a < b) ? a : b] and [(a > b) ? a : b]. *)
Definition MIN2 (a b : Z) : Z := if a <? b then a else b.
Definition MAX2 (a b : Z) : Z := if a >? b then a else b.
Definition MIN3 (a b c : Z) : Z := MIN2 (MIN2 a b) c.

(** Wrapped sum of a list of sizes, as accumulated by [x += v]. *)
Definition sum (l : list Z) : Z := fold_left add l 0.

End SizeT.

Module Double.

(** [(a < b) ? a : b] and [(a > b) ? a : b] on doubles. *)
Definition MIN2 (a b : Q) : Q := if Qlt_le_dec a b then a else b.
Definition MAX2 (a b : Q) : Q := if Qlt_le_dec b a then a else b.

Definition ltb (a b : Q) : bool := if Qlt_le_dec a b then true else false.
Definition gtb (a b : Q) : bool := ltb b a.
Definition leb (a b : Q) : bool := negb (ltb b a).

(** [double(n)] for a [size_t] value. *)
Definition of_size (n : Z) : Q := inject_Z n.

(** [(size_t) d]: truncation toward zero.  A value outside the range of
    [size_t] is undefined behaviour in C++; the model keeps the truncated
    integer. *)
Definition to_size (d : Q) : Z := Z.quot (Qnum d) (Z.pos (Qden d)).

(** [a / b] on doubles.  [None] stands for the non-finite result (an
    infinity or a NaN) of a division by zero. *)
Definition ddiv (a b : Q) : option Q :=
  if Qeq_bool b 0%Q then None else Some (a / b)%Q.

(** [x > n / d] for a non-negative numerator [n]: when [d] is zero the
    quotient is [+inf] or NaN and the comparison is false. *)
Definition dgt_quot (x n d : Q) : bool :=
  match ddiv n d with
  | Some q => gtb x q
  | None => false
  end.

End Double.

(** ** Tunable flags and collaborators *)

Record Flags : Type := mkFlags {
  ShenandoahGarbageThreshold : Z;
  ShenandoahIgnoreGarbageThreshold : Z;
  ShenandoahMinFreeThreshold : Z;
  ShenandoahInitFreeThreshold : Z;
  ShenandoahAllocSpikeFactor : Z;
  ShenandoahEvacReserve : Z;
  ShenandoahEvacWaste : Q;
  ShenandoahOldEvacWaste : Q;
  ShenandoahLearningSteps : Z;
  InitialTenuringThreshold : Z;
  region_size_bytes : Z
}.

(** What the heuristic reads from the generation, the heap, the free set, the
    collection set, the old heuristics and the clock during one call. *)
Record Collab : Type := mkCollab {
  elapsedTime : Q;
  gen_is_old : bool;
  gen_is_global : bool;
  mode_is_generational : bool;
  gen_max_capacity : Z;
  gen_soft_max_capacity : Z;
  gen_used : Z;
  gen_available : Z;
  gen_soft_available : Z;
  gen_bytes_allocated_since_gc_start : Z;
  free_set_available : Z;
  heap_max_capacity : Z;
  young_max_capacity : Z;
  young_evac_reserve : Z;
  old_evac_reserve : Z;
  promotion_potential : Z;
  promotion_in_place_potential : Z;
  unprocessed_old_collection_candidates : Z;
  young_available_bytes_collected : Z
}.

(** ** Number sequences

    The interface of [TruncatedSeq] used by the heuristic. *)
Class NumberSeq (S : Type) : Type := {
  seq_add : S -> Q -> S;
  seq_avg : S -> Q;
  seq_sd : S -> Q;
  seq_davg : S -> Q;
  seq_dsd : S -> Q
}.

(** ** ShenandoahAllocationRate *)

Record ShenandoahAllocationRate (S : Type) : Type := mkAllocRate {
  _last_sample_time : Q;
  _last_sample_value : Z;
  _interval_sec : Q;
  _rate : S;
  _rate_avg : S
}.
Arguments mkAllocRate {S}.
Arguments _last_sample_time {S}.
Arguments _last_sample_value {S}.
Arguments _interval_sec {S}.
Arguments _rate {S}.
Arguments _rate_avg {S}.

Section AllocationRate.
Context {S : Type} `{NumberSeq S}.

Definition instantaneous_rate (ar : ShenandoahAllocationRate S)
    (time : Q) (allocated : Z) : option Q :=
  let last_value := _last_sample_value ar in
  let last_time := _last_sample_time ar in
  let allocation_delta :=
    if allocated >? last_value then SizeT.sub allocated last_value else 0 in
  let time_delta_sec := (time - last_time)%Q in
  if Double.gtb time_delta_sec 0%Q
  then Double.ddiv (Double.of_size allocation_delta) time_delta_sec
  else Some 0%Q.

(** [sample]: [now] is the value of [os::elapsedTime()].  The result is
    [None] only if the rate computed is not finite. *)
Definition sample (ar : ShenandoahAllocationRate S) (now : Q) (allocated : Z)
    : option (Q * ShenandoahAllocationRate S) :=
  if Double.gtb (now - _last_sample_time ar)%Q (_interval_sec ar) then
    if allocated >=? _last_sample_value ar then
      match instantaneous_rate ar now allocated with
      | None => None
      | Some rate =>
          let rate' := seq_add (_rate ar) rate in
          let rate_avg' := seq_add (_rate_avg ar) (seq_avg rate') in
          Some (rate, mkAllocRate now allocated (_interval_sec ar) rate' rate_avg')
      end
    else
      Some (0%Q, mkAllocRate now allocated (_interval_sec ar)
                   (_rate ar) (_rate_avg ar))
  else Some (0%Q, ar).

Definition upper_bound (ar : ShenandoahAllocationRate S) (sds : Q) : Q :=
  (seq_davg (_rate ar) + sds * seq_dsd (_rate_avg ar))%Q.

Definition allocation_counter_reset (ar : ShenandoahAllocationRate S) (now : Q)
    : ShenandoahAllocationRate S :=
  mkAllocRate now 0 (_interval_sec ar) (_rate ar) (_rate_avg ar).

Definition is_spiking (ar : ShenandoahAllocationRate S) (rate threshold : Q)
    : bool :=
  if Double.leb rate 0%Q then false
  else
    let sd := seq_sd (_rate ar) in
    if Double.gtb sd 0%Q then
      let z_score := ((rate - seq_avg (_rate ar)) / sd)%Q in
      if Double.gtb z_score threshold then true else false
    else false.

End AllocationRate.

(** ** The base class ShenandoahHeuristics

    The members and methods of the base class that the adaptive heuristic
    reads or calls.  [B] is the state of the base class. *)
Class BaseHeuristics (B : Type) : Type := {
  gc_times_learned : B -> Z;
  gc_time_penalties : B -> Z;
  gc_cycle_time_davg : B -> Q;
  gc_cycle_time_dsd : B -> Q;
  base_record_cycle_start : B -> B;
  base_record_success_concurrent : B -> bool -> B;
  base_record_success_degenerated : B -> B;
  base_record_success_full : B -> B;
  base_should_start_gc : B -> Collab -> bool
}.

(** Modelled from the spec: [ShenandoahHeuristics::min_free_threshold] is
    declared outside the file; the spec gives
    [capacity * ShenandoahMinFreeThreshold / 100] with
    [capacity = generation.soft_max_capacity]. *)
Definition min_free_threshold (fl : Flags) (c : Collab) : Z :=
  SizeT.mul (gen_soft_max_capacity c) (ShenandoahMinFreeThreshold fl) / 100.

(** ** ShenandoahAdaptiveHeuristics *)

Inductive Trigger : Type := SPIKE | RATE | OTHER.

Definition FULL_PENALTY_SD : Q := 2 # 10.
Definition DEGENERATE_PENALTY_SD : Q := 1 # 10.
Definition LOWEST_EXPECTED_AVAILABLE_AT_END : Q := - (5 # 10).
Definition HIGHEST_EXPECTED_AVAILABLE_AT_END : Q := 5 # 10.
Definition MINIMUM_CONFIDENCE : Q := 319 # 1000.
Definition MAXIMUM_CONFIDENCE : Q := 3291 # 1000.

Record ShenandoahAdaptiveHeuristics (B S : Type) : Type := mkAdaptive {
  base : B;
  _margin_of_error_sd : Q;
  _spike_threshold_sd : Q;
  _last_trigger : Trigger;
  _available : S;
  _allocation_rate : ShenandoahAllocationRate S
}.
Arguments mkAdaptive {B S}.
Arguments base {B S}.
Arguments _margin_of_error_sd {B S}.
Arguments _spike_threshold_sd {B S}.
Arguments _last_trigger {B S}.
Arguments _available {B S}.
Arguments _allocation_rate {B S}.

Definition saturate (value min max : Q) : Q :=
  Double.MAX2 (Double.MIN2 value max) min.

(** The computations on IEEE binary64 values: the clamp and the two
    adjustments, the conversions from and to [size_t], and the rate of the
    estimator. *)
Module Binary64.

Set Warnings "-inexact-float".

Definition MIN2 (a b : float) : float := if PrimFloat.ltb a b then a else b.
Definition MAX2 (a b : float) : float := if PrimFloat.ltb b a then a else b.

Definition saturate (value min max : float) : float :=
  MAX2 (MIN2 value max) min.

Definition FULL_PENALTY_SD : float := 0.2%float.
Definition DEGENERATE_PENALTY_SD : float := 0.1%float.
Definition MINIMUM_CONFIDENCE : float := 0.319%float.
Definition MAXIMUM_CONFIDENCE : float := 3.291%float.

(** The new [_margin_of_error_sd] and [_spike_threshold_sd]. *)
Definition adjust_margin_of_error (margin amount : float) : float :=
  saturate (margin + amount)%float MINIMUM_CONFIDENCE MAXIMUM_CONFIDENCE.

Definition adjust_spike_threshold (spike amount : float) : float :=
  saturate (spike - amount)%float MINIMUM_CONFIDENCE MAXIMUM_CONFIDENCE.

Definition in_confidence (x : float) : Prop :=
  PrimFloat.leb MINIMUM_CONFIDENCE x = true
  /\ PrimFloat.leb x MAXIMUM_CONFIDENCE = true.

Set Warnings "+inexact-float".

(** [double(n)] for a [size_t] value: the nearest binary64 value, ties to
    even. *)
Definition of_size (n : Z) : float :=
  SF2Prim (binary_normalize prec emax n 0 false).

(** The binary64 value of a [double] flag whose setting is the fraction [q]:
    the correctly rounded quotient of its numerator and denominator, which
    is the binary64 value nearest to [q] when both are below [2^53]. *)
Definition of_flag (q : Q) : float :=
  (of_size (Qnum q) / of_size (Z.pos (Qden q)))%float.

(** [(size_t) d]: truncation toward zero.  A value outside the range of
    [size_t], an infinity or a NaN is undefined behaviour in C++; the model
    keeps the truncated integer, and [0] for an infinity or a NaN. *)
Definition to_size (d : float) : Z :=
  match Prim2SF d with
  | S754_finite false m e => Z.shiftl (Z.pos m) e
  | S754_finite true m e => - Z.shiftl (Z.pos m) e
  | _ => 0
  end.

(** [ShenandoahAllocationRate::instantaneous_rate] on binary64 values, given
    the two members it reads. *)
Definition instantaneous_rate (last_time : float) (last_value : Z)
    (time : float) (allocated : Z) : float :=
  let allocation_delta :=
    if allocated >? last_value then SizeT.sub allocated last_value else 0 in
  let time_delta_sec := (time - last_time)%float in
  if PrimFloat.ltb 0 time_delta_sec
  then (of_size allocation_delta / time_delta_sec)%float
  else 0%float.

(** The value [ShenandoahAllocationRate::sample] returns, which is also the
    only value it adds to [_rate], on binary64 values. *)
Definition sample (last_time : float) (last_value : Z) (interval_sec : float)
    (now : float) (allocated : Z) : float :=
  if PrimFloat.ltb interval_sec (now - last_time)%float then
    if allocated >=? last_value
    then instantaneous_rate last_time last_value now allocated
    else 0%float
  else 0%float.

(** Modelled from the spec: [ShenandoahAdaptiveSampleFrequencyHz] is declared
    outside the file; the spec has [interval_sec = 1 / sample_frequency_hz],
    and the constructor computes [1.0 / ShenandoahAdaptiveSampleFrequencyHz].
    The frequency is taken to be an unsigned 64-bit integer. *)
Definition interval_sec (frequency : Z) : float := (1 / of_size frequency)%float.

(** [2^-64], the reciprocal of [2^64]. *)
Definition shortest_interval : float := 0x1p-64%float.

End Binary64.

Section Adaptive.
Context {B S : Type} `{BaseHeuristics B} `{NumberSeq S}.

Local Abbreviation Heur := (ShenandoahAdaptiveHeuristics B S).

Definition set_base (h : Heur) (b : B) : Heur :=
  mkAdaptive b (_margin_of_error_sd h) (_spike_threshold_sd h)
    (_last_trigger h) (_available h) (_allocation_rate h).

Definition set_margin_of_error_sd (h : Heur) (v : Q) : Heur :=
  mkAdaptive (base h) v (_spike_threshold_sd h)
    (_last_trigger h) (_available h) (_allocation_rate h).

Definition set_spike_threshold_sd (h : Heur) (v : Q) : Heur :=
  mkAdaptive (base h) (_margin_of_error_sd h) v
    (_last_trigger h) (_available h) (_allocation_rate h).

Definition set_last_trigger (h : Heur) (t : Trigger) : Heur :=
  mkAdaptive (base h) (_margin_of_error_sd h) (_spike_threshold_sd h)
    t (_available h) (_allocation_rate h).

Definition set_available (h : Heur) (s : S) : Heur :=
  mkAdaptive (base h) (_margin_of_error_sd h) (_spike_threshold_sd h)
    (_last_trigger h) s (_allocation_rate h).

Definition set_allocation_rate (h : Heur) (ar : ShenandoahAllocationRate S)
    : Heur :=
  mkAdaptive (base h) (_margin_of_error_sd h) (_spike_threshold_sd h)
    (_last_trigger h) (_available h) ar.

(** *** Feedback rules *)

Definition adjust_margin_of_error (h : Heur) (amount : Q) : Heur :=
  set_margin_of_error_sd h
    (saturate (_margin_of_error_sd h + amount)
       MINIMUM_CONFIDENCE MAXIMUM_CONFIDENCE).

Definition adjust_spike_threshold (h : Heur) (amount : Q) : Heur :=
  set_spike_threshold_sd h
    (saturate (_spike_threshold_sd h - amount)
       MINIMUM_CONFIDENCE MAXIMUM_CONFIDENCE).

Definition adjust_last_trigger_parameters (h : Heur) (amount : Q) : Heur :=
  match _last_trigger h with
  | RATE => adjust_margin_of_error h amount
  | SPIKE => adjust_spike_threshold h amount
  | OTHER => h
  end.

Definition record_cycle_start (h : Heur) (c : Collab) : Heur :=
  let h := set_base h (base_record_cycle_start (base h)) in
  set_allocation_rate h
    (allocation_counter_reset (_allocation_rate h) (elapsedTime c)).

Definition record_success_concurrent (h : Heur) (c : Collab)
    (abbreviated : bool) : Heur :=
  let h := set_base h (base_record_success_concurrent (base h) abbreviated) in
  let available := SizeT.MIN2 (gen_available c) (free_set_available c) in
  let available_sd := seq_sd (_available h) in
  let z_score :=
    if Double.gtb available_sd 0%Q then
      let available_avg := seq_avg (_available h) in
      ((Double.of_size available - available_avg) / available_sd)%Q
    else 0%Q in
  let h := set_available h (seq_add (_available h) (Double.of_size available)) in
  if Double.ltb z_score LOWEST_EXPECTED_AVAILABLE_AT_END
     || Double.gtb z_score HIGHEST_EXPECTED_AVAILABLE_AT_END
  then adjust_last_trigger_parameters h (z_score / - (100 # 1))%Q
  else h.

Definition record_success_degenerated (h : Heur) : Heur :=
  let h := set_base h (base_record_success_degenerated (base h)) in
  let h := adjust_margin_of_error h DEGENERATE_PENALTY_SD in
  adjust_spike_threshold h DEGENERATE_PENALTY_SD.

Definition record_success_full (h : Heur) : Heur :=
  let h := set_base h (base_record_success_full (base h)) in
  let h := adjust_margin_of_error h FULL_PENALTY_SD in
  adjust_spike_threshold h FULL_PENALTY_SD.

(** *** The runway estimator *)

Definition bytes_of_allocation_runway_before_gc_trigger (fl : Flags)
    (h : Heur) (c : Collab) (young_regions_to_be_reclaimed : Z)
    : option (Z * Heur) :=
  let capacity := gen_soft_max_capacity c in
  let usage := gen_used c in
  let available := if capacity >? usage then SizeT.sub capacity usage else 0 in
  let allocated := gen_bytes_allocated_since_gc_start c in
  let available_young_collected := young_available_bytes_collected c in
  let anticipated_available :=
    SizeT.sub
      (SizeT.add available
         (SizeT.mul young_regions_to_be_reclaimed (region_size_bytes fl)))
      available_young_collected in
  let spike_headroom :=
    SizeT.mul capacity (ShenandoahAllocSpikeFactor fl) / 100 in
  let penalties := SizeT.mul capacity (gc_time_penalties (base h)) / 100 in
  match sample (_allocation_rate h) (elapsedTime c) allocated with
  | None => None
  | Some (rate, ar) =>
    let h := set_allocation_rate h ar in
    let avg_cycle_time :=
      (gc_cycle_time_davg (base h)
       + _margin_of_error_sd h * gc_cycle_time_dsd (base h))%Q in
    let avg_alloc_rate := upper_bound (_allocation_rate h) (_margin_of_error_sd h) in
    let budget_avg :=
      (avg_cycle_time * avg_alloc_rate + Double.of_size penalties
       + Double.of_size spike_headroom)%Q in
    let evac_slack_avg :=
      if Double.gtb (Double.of_size anticipated_available) budget_avg
      then Double.to_size (Double.of_size anticipated_available - budget_avg)%Q
      else 0 in
    let spiking := is_spiking (_allocation_rate h) rate (_spike_threshold_sd h) in
    let budget_spike :=
      (avg_cycle_time * rate + Double.of_size penalties
       + Double.of_size spike_headroom)%Q in
    let evac_slack_spiking :=
      if spiking then
        if Double.gtb (Double.of_size anticipated_available) budget_spike
        then Double.to_size (Double.of_size anticipated_available - budget_spike)%Q
        else 0
      else evac_slack_avg in
    let threshold := min_free_threshold fl c in
    let evac_min_threshold :=
      if anticipated_available >? threshold
      then SizeT.sub anticipated_available threshold else 0 in
    Some (SizeT.MIN3 evac_slack_spiking evac_slack_avg evac_min_threshold, h)
  end.

(** *** The trigger decision *)

Definition should_start_gc (fl : Flags) (h : Heur) (c : Collab)
    : option (bool * Heur) :=
  let capacity := gen_soft_max_capacity c in
  let available := gen_soft_available c in
  let allocated := gen_bytes_allocated_since_gc_start c in
  let usable := free_set_available c in
  let available := if usable <? available then usable else available in
  match sample (_allocation_rate h) (elapsedTime c) allocated with
  | None => None
  | Some (rate, ar) =>
    let h := set_allocation_rate h ar in
    let h := set_last_trigger h OTHER in
    if negb (gen_is_old c) then
      let min_threshold := min_free_threshold fl c in
      if available <? min_threshold then Some (true, h) else
      let max_learn := ShenandoahLearningSteps fl in
      let init_threshold :=
        SizeT.mul (capacity / 100) (ShenandoahInitFreeThreshold fl) in
      if (gc_times_learned (base h) <? max_learn)
         && (available <? init_threshold) then Some (true, h) else
      let allocation_headroom := available in
      let spike_headroom :=
        SizeT.mul (capacity / 100) (ShenandoahAllocSpikeFactor fl) in
      let penalties :=
        SizeT.mul (capacity / 100) (gc_time_penalties (base h)) in
      let allocation_headroom :=
        SizeT.sub allocation_headroom
          (SizeT.MIN2 allocation_headroom penalties) in
      let allocation_headroom :=
        SizeT.sub allocation_headroom
          (SizeT.MIN2 allocation_headroom spike_headroom) in
      let avg_cycle_time :=
        (gc_cycle_time_davg (base h)
         + _margin_of_error_sd h * gc_cycle_time_dsd (base h))%Q in
      let avg_alloc_rate :=
        upper_bound (_allocation_rate h) (_margin_of_error_sd h) in
      if Double.dgt_quot avg_cycle_time
           (Double.of_size allocation_headroom) avg_alloc_rate
      then Some (true, set_last_trigger h RATE) else
      let spiking :=
        is_spiking (_allocation_rate h) rate (_spike_threshold_sd h) in
      if spiking
         && Double.dgt_quot avg_cycle_time
              (Double.of_size allocation_headroom) rate
      then Some (true, set_last_trigger h SPIKE) else
      if mode_is_generational c
         && ((promotion_potential c >? 0)
             || (promotion_in_place_potential c >? 0)
             || (unprocessed_old_collection_candidates c >? 0))
      then Some (true, h)
      else Some (base_should_start_gc (base h) c, h)
    else Some (base_should_start_gc (base h) c, h)
  end.

End Adaptive.

(** ** The collection-set chooser *)

Record ShenandoahHeapRegion : Type := mkRegion {
  index : Z;
  age : Z;
  is_old : bool;
  garbage : Z;
  get_live_data_bytes : Z
}.

(** An entry of the candidate array: the region and its sort key. *)
Record RegionData : Type := mkRegionData {
  _region : ShenandoahHeapRegion;
  _garbage : Z
}.

(** The collection set: which region indices were preselected, and the
    regions added so far, oldest first. *)
Record ShenandoahCollectionSet : Type := mkCSet {
  is_preselected : Z -> bool;
  cset_regions : list ShenandoahHeapRegion
}.

Definition add_region (r : ShenandoahHeapRegion) (cset : ShenandoahCollectionSet)
    : ShenandoahCollectionSet :=
  mkCSet (is_preselected cset) (cset_regions cset ++ [r]).

(** Modelled from the spec: [QuickSort::sort] and [compare_by_garbage] are
    declared outside the file; the spec has the array sorted by garbage,
    descending.  Entries with equal keys keep their order. *)
Fixpoint insert_by_garbage (d : RegionData) (l : list RegionData)
    : list RegionData :=
  match l with
  | [] => [d]
  | e :: rest =>
      if _garbage e <=? _garbage d then d :: l
      else e :: insert_by_garbage d rest
  end.

Definition sort_by_garbage (data : list RegionData) : list RegionData :=
  fold_right insert_by_garbage [] data.

Section Chooser.
Variable fl : Flags.

Definition garbage_threshold : Z :=
  SizeT.mul (region_size_bytes fl) (ShenandoahGarbageThreshold fl) / 100.

Definition ignore_threshold : Z :=
  SizeT.mul (region_size_bytes fl) (ShenandoahIgnoreGarbageThreshold fl) / 100.

(** First generational loop: every preselected entry is added. *)
Fixpoint preselected_loop (data : list RegionData)
    (cur_young_garbage : Z) (cset : ShenandoahCollectionSet)
    : Z * ShenandoahCollectionSet :=
  match data with
  | [] => (cur_young_garbage, cset)
  | d :: rest =>
      let r := _region d in
      if is_preselected cset (index r) then
        preselected_loop rest (SizeT.add cur_young_garbage (garbage r))
          (add_region r cset)
      else preselected_loop rest cur_young_garbage cset
  end.

(** The loop of a global collection. *)
Fixpoint global_loop (max_young_cset max_old_cset min_garbage : Z)
    (data : list RegionData)
    (young_cur_cset old_cur_cset cur_young_garbage : Z)
    (cset : ShenandoahCollectionSet) : ShenandoahCollectionSet :=
  match data with
  | [] => cset
  | d :: rest =>
      let r := _region d in
      let continue := global_loop max_young_cset max_old_cset min_garbage rest in
      if is_preselected cset (index r) then
        continue young_cur_cset old_cur_cset cur_young_garbage cset
      else if is_old r then
        let new_cset := SizeT.add old_cur_cset (get_live_data_bytes r) in
        if (new_cset <=? max_old_cset) && (garbage r >? garbage_threshold) then
          continue young_cur_cset new_cset cur_young_garbage (add_region r cset)
        else continue young_cur_cset old_cur_cset cur_young_garbage cset
      else if age r <? InitialTenuringThreshold fl then
        let new_cset := SizeT.add young_cur_cset (get_live_data_bytes r) in
        let region_garbage := garbage r in
        let new_garbage := SizeT.add cur_young_garbage region_garbage in
        let add_regardless :=
          (region_garbage >? ignore_threshold) && (new_garbage <? min_garbage) in
        if (new_cset <=? max_young_cset)
           && (add_regardless || (region_garbage >? garbage_threshold)) then
          continue new_cset old_cur_cset new_garbage (add_region r cset)
        else continue young_cur_cset old_cur_cset cur_young_garbage cset
      else continue young_cur_cset old_cur_cset cur_young_garbage cset
  end.

(** The loop of a young collection or a mixed evacuation. *)
Fixpoint young_loop (max_cset min_garbage : Z) (data : list RegionData)
    (cur_cset cur_young_garbage : Z) (cset : ShenandoahCollectionSet)
    : ShenandoahCollectionSet :=
  match data with
  | [] => cset
  | d :: rest =>
      let r := _region d in
      let continue := young_loop max_cset min_garbage rest in
      if is_preselected cset (index r) then
        continue cur_cset cur_young_garbage cset
      else if age r <? InitialTenuringThreshold fl then
        let new_cset := SizeT.add cur_cset (get_live_data_bytes r) in
        let region_garbage := garbage r in
        let new_garbage := SizeT.add cur_young_garbage region_garbage in
        let add_regardless :=
          (region_garbage >? ignore_threshold) && (new_garbage <? min_garbage) in
        if (new_cset <=? max_cset)
           && (add_regardless || (region_garbage >? garbage_threshold)) then
          continue new_cset new_garbage (add_region r cset)
        else continue cur_cset cur_young_garbage cset
      else continue cur_cset cur_young_garbage cset
  end.

(** The loop of traditional (non-generational) Shenandoah.  The result also
    carries the final [cur_cset] and [cur_garbage]. *)
Fixpoint nongen_loop (max_cset min_garbage : Z) (data : list RegionData)
    (cur_cset cur_garbage : Z) (cset : ShenandoahCollectionSet)
    : Z * Z * ShenandoahCollectionSet :=
  match data with
  | [] => (cur_cset, cur_garbage, cset)
  | d :: rest =>
      let r := _region d in
      let new_cset := SizeT.add cur_cset (get_live_data_bytes r) in
      let new_garbage := SizeT.add cur_garbage (garbage r) in
      if new_cset >? max_cset then (cur_cset, cur_garbage, cset)
      else if (new_garbage <? min_garbage) || (garbage r >? garbage_threshold)
      then nongen_loop max_cset min_garbage rest new_cset new_garbage
             (add_region r cset)
      else nongen_loop max_cset min_garbage rest cur_cset cur_garbage cset
  end.

Definition min_garbage_of (free_target actual_free : Z) : Z :=
  if free_target >? actual_free then SizeT.sub free_target actual_free else 0.

(** The evacuation caps are computed on binary64 values, as the code does:
    the truncated integer is compared with byte counts, so a quotient just
    below an integer must not be taken for that integer. *)
Definition nongen_max_cset (c : Collab) : Z :=
  let capacity := heap_max_capacity c in
  Binary64.to_size
    ((1 * Binary64.of_size capacity / 100
      * Binary64.of_size (ShenandoahEvacReserve fl))
     / Binary64.of_flag (ShenandoahEvacWaste fl))%float.

Definition nongen_free_target (c : Collab) : Z :=
  let capacity := heap_max_capacity c in
  SizeT.add (SizeT.mul capacity (ShenandoahMinFreeThreshold fl) / 100)
    (nongen_max_cset c).

Definition choose_collection_set_from_regiondata (c : Collab)
    (cset : ShenandoahCollectionSet) (data : list RegionData)
    (actual_free : Z) : ShenandoahCollectionSet :=
  let is_generational := mode_is_generational c in
  let is_global := gen_is_global c in
  let capacity := young_max_capacity c in
  let cur_young_garbage := 0 in
  let data := sort_by_garbage data in
  if is_generational then
    let '(cur_young_garbage, cset) :=
      preselected_loop data cur_young_garbage cset in
    if is_global then
      let max_young_cset :=
        Binary64.to_size
          (Binary64.of_size (young_evac_reserve c)
           / Binary64.of_flag (ShenandoahEvacWaste fl))%float in
      let max_old_cset :=
        Binary64.to_size
          (Binary64.of_size (old_evac_reserve c)
           / Binary64.of_flag (ShenandoahOldEvacWaste fl))%float in
      let free_target :=
        SizeT.add (SizeT.mul capacity (ShenandoahMinFreeThreshold fl) / 100)
          max_young_cset in
      let min_garbage := min_garbage_of free_target actual_free in
      global_loop max_young_cset max_old_cset min_garbage data
        0 0 cur_young_garbage cset
    else
      let max_cset :=
        Binary64.to_size
          (Binary64.of_size (young_evac_reserve c)
           / Binary64.of_flag (ShenandoahEvacWaste fl))%float in
      let free_target :=
        SizeT.add (SizeT.mul capacity (ShenandoahMinFreeThreshold fl) / 100)
          max_cset in
      let min_garbage := min_garbage_of free_target actual_free in
      young_loop max_cset min_garbage data 0 cur_young_garbage cset
  else
    let max_cset := nongen_max_cset c in
    let free_target := nongen_free_target c in
    let min_garbage := min_garbage_of free_target actual_free in
    snd (nongen_loop max_cset min_garbage data 0 0 cset).

End Chooser.

(** ** Cycle outcomes and specification-side definitions *)

Section Outcomes.
Context {B S : Type} `{BaseHeuristics B} `{NumberSeq S}.

Local Abbreviation Heur := (ShenandoahAdaptiveHeuristics B S).

(** What the collector reports at the end of a cycle. *)
Inductive Outcome : Type :=
| ConcurrentSuccess (c : Collab) (abbreviated : bool)
| DegeneratedSuccess
| FullSuccess.

Definition record_outcome (h : Heur) (o : Outcome) : Heur :=
  match o with
  | ConcurrentSuccess c abbreviated => record_success_concurrent h c abbreviated
  | DegeneratedSuccess => record_success_degenerated h
  | FullSuccess => record_success_full h
  end.

Definition record_outcomes (h : Heur) (os : list Outcome) : Heur :=
  fold_left record_outcome os h.

(** Both trigger parameters lie in [MINIMUM_CONFIDENCE, MAXIMUM_CONFIDENCE]. *)
Definition in_confidence (q : Q) : Prop :=
  (MINIMUM_CONFIDENCE <= q /\ q <= MAXIMUM_CONFIDENCE)%Q.

Definition parameters_in_confidence (h : Heur) : Prop :=
  in_confidence (_margin_of_error_sd h) /\ in_confidence (_spike_threshold_sd h).

(** The z-score of [available] against a history [s]:
    [(available - s.avg) / s.sd] when [s.sd > 0], and 0 otherwise. *)
Definition z_score_of (s : S) (available : Z) : Q :=
  if Double.gtb (seq_sd s) 0%Q
  then ((Double.of_size available - seq_avg s) / seq_sd s)%Q
  else 0%Q.

(** The z-score is outside the band in which no adjustment is made. *)
Definition beyond_expected (z : Q) : Prop :=
  (z < LOWEST_EXPECTED_AVAILABLE_AT_END \/ HIGHEST_EXPECTED_AVAILABLE_AT_END < z)%Q.

(** [record_success_concurrent] in the order of the spec's sentence: the
    sample is pushed onto the history first and the z-score is computed from
    the history that already holds it. *)
Definition record_success_concurrent_push_first (h : Heur) (c : Collab)
    (abbreviated : bool) : Heur :=
  let h := set_base h (base_record_success_concurrent (base h) abbreviated) in
  let available := SizeT.MIN2 (gen_available c) (free_set_available c) in
  let h := set_available h (seq_add (_available h) (Double.of_size available)) in
  let z_score := z_score_of (_available h) available in
  if Double.ltb z_score LOWEST_EXPECTED_AVAILABLE_AT_END
     || Double.gtb z_score HIGHEST_EXPECTED_AVAILABLE_AT_END
  then adjust_last_trigger_parameters h (z_score / - (100 # 1))%Q
  else h.

(** The bytes the mutator can use, as [should_start_gc] computes them:
    [soft_available], replaced by the free set's figure when that is smaller. *)
Definition mutator_available (c : Collab) : Z :=
  if free_set_available c <? gen_soft_available c
  then free_set_available c else gen_soft_available c.

(** The threshold of the learning trigger, as [should_start_gc] computes it. *)
Definition learning_threshold (fl : Flags) (c : Collab) : Z :=
  SizeT.mul (gen_soft_max_capacity c / 100) (ShenandoahInitFreeThreshold fl).

Definition with_learning_steps (fl : Flags) (n : Z) : Flags :=
  mkFlags (ShenandoahGarbageThreshold fl) (ShenandoahIgnoreGarbageThreshold fl)
    (ShenandoahMinFreeThreshold fl) (ShenandoahInitFreeThreshold fl)
    (ShenandoahAllocSpikeFactor fl) (ShenandoahEvacReserve fl)
    (ShenandoahEvacWaste fl) (ShenandoahOldEvacWaste fl)
    n (InitialTenuringThreshold fl) (region_size_bytes fl).

(** *** Terms of the runway estimate *)

Definition runway_available (c : Collab) : Z :=
  if gen_soft_max_capacity c >? gen_used c
  then SizeT.sub (gen_soft_max_capacity c) (gen_used c) else 0.

Definition anticipated_available (fl : Flags) (c : Collab) (y : Z) : Z :=
  SizeT.sub
    (SizeT.add (runway_available c) (SizeT.mul y (region_size_bytes fl)))
    (young_available_bytes_collected c).

Definition penalties_term (h : Heur) (c : Collab) : Z :=
  SizeT.mul (gen_soft_max_capacity c) (gc_time_penalties (base h)) / 100.

Definition spike_headroom_term (fl : Flags) (c : Collab) : Z :=
  SizeT.mul (gen_soft_max_capacity c) (ShenandoahAllocSpikeFactor fl) / 100.

(** [anticipated - budget] when the anticipated bytes exceed the budget, and
    0 otherwise. *)
Definition evac_slack (anticipated : Z) (budget : Q) : Z :=
  if Double.gtb (Double.of_size anticipated) budget
  then Double.to_size (Double.of_size anticipated - budget)%Q
  else 0.

(** The value [bytes_of_allocation_runway_before_gc_trigger] returns, as a
    function of the terms it is computed from. *)
Definition runway_of_terms (anticipated penalties spike_headroom threshold : Z)
    (avg_cycle_time avg_alloc_rate rate : Q) (spiking : bool) : Z :=
  let evac_slack_avg :=
    evac_slack anticipated
      (avg_cycle_time * avg_alloc_rate + Double.of_size penalties
       + Double.of_size spike_headroom)%Q in
  let evac_slack_spiking :=
    if spiking then
      evac_slack anticipated
        (avg_cycle_time * rate + Double.of_size penalties
         + Double.of_size spike_headroom)%Q
    else evac_slack_avg in
  let evac_min_threshold :=
    if anticipated >? threshold
    then SizeT.sub anticipated threshold else 0 in
  SizeT.MIN3 evac_slack_spiking evac_slack_avg evac_min_threshold.

(** Two heuristics that agree on everything the runway estimate reads
    except the accumulated penalties. *)
Definition same_but_penalties (h1 h2 : Heur) : Prop :=
  _margin_of_error_sd h1 = _margin_of_error_sd h2
  /\ _spike_threshold_sd h1 = _spike_threshold_sd h2
  /\ _allocation_rate h1 = _allocation_rate h2
  /\ gc_cycle_time_davg (base h1) = gc_cycle_time_davg (base h2)
  /\ gc_cycle_time_dsd (base h1) = gc_cycle_time_dsd (base h2).

Definition with_alloc_spike_factor (fl : Flags) (n : Z) : Flags :=
  mkFlags (ShenandoahGarbageThreshold fl) (ShenandoahIgnoreGarbageThreshold fl)
    (ShenandoahMinFreeThreshold fl) (ShenandoahInitFreeThreshold fl)
    n (ShenandoahEvacReserve fl)
    (ShenandoahEvacWaste fl) (ShenandoahOldEvacWaste fl)
    (ShenandoahLearningSteps fl) (InitialTenuringThreshold fl)
    (region_size_bytes fl).

(** The value returned by the runway estimate, without the state. *)
Definition runway (fl : Flags) (h : Heur) (c : Collab) (y : Z) : option Z :=
  option_map fst (bytes_of_allocation_runway_before_gc_trigger fl h c y).

End Outcomes.

(** ** Concrete collaborators

    Instances of the two interfaces at which the heuristic can be run. *)

(** Rational square root, exact on squares of rationals. *)
Definition Qsqrt (q : Q) : Q :=
  let q := Qred q in
  let scale := 2 ^ 32 in
  Qred (Qmake (Z.sqrt (Qnum q * Z.pos (Qden q) * scale * scale))
          (Qden q * 4294967296)).

(** Modelled from the spec: the decayed moving average ([TruncatedSeq]) is
    declared outside the file.  The spec gives a window of the last up-to-[N]
    samples, [avg] and [sd] the population mean and standard deviation over
    the window, [davg] and [dsd] their decayed equivalents with weight
    [alpha^k] on the sample of age [k], and [sd = dsd = 0] when the window
    holds at most one sample. *)
Record WindowSeq : Type := mkWindowSeq {
  ws_length : nat;
  ws_alpha : Q;
  ws_samples : list Q
}.

Definition Qsum (l : list Q) : Q := fold_right Qplus 0%Q l.

Definition ws_count (s : WindowSeq) : Q :=
  inject_Z (Z.of_nat (length (ws_samples s))).

Definition ws_add (s : WindowSeq) (x : Q) : WindowSeq :=
  mkWindowSeq (ws_length s) (ws_alpha s)
    (firstn (ws_length s) (x :: ws_samples s)).

Definition ws_avg (s : WindowSeq) : Q :=
  match ws_samples s with
  | [] => 0%Q
  | _ => Qred (Qsum (ws_samples s) / ws_count s)
  end.

Definition ws_sd (s : WindowSeq) : Q :=
  match ws_samples s with
  | [] | [_] => 0%Q
  | _ =>
      let m := ws_avg s in
      Qsqrt (Qsum (map (fun x => (x - m) * (x - m)) (ws_samples s))
             / ws_count s)%Q
  end.

Fixpoint ws_weights (a w : Q) (n : nat) : list Q :=
  match n with
  | O => []
  | Datatypes.S n => w :: ws_weights a (Qred (w * a)) n
  end.

Definition ws_weighted (s : WindowSeq) (f : Q -> Q) : Q :=
  let ws := ws_weights (ws_alpha s) 1%Q (length (ws_samples s)) in
  Qred (Qsum (map (fun p => (fst p * f (snd p))%Q) (combine ws (ws_samples s)))
        / Qsum ws).

Definition ws_davg (s : WindowSeq) : Q :=
  match ws_samples s with
  | [] => 0%Q
  | _ => ws_weighted s (fun x => x)
  end.

Definition ws_dsd (s : WindowSeq) : Q :=
  match ws_samples s with
  | [] | [_] => 0%Q
  | _ =>
      let m := ws_davg s in
      Qsqrt (ws_weighted s (fun x => (x - m) * (x - m))%Q)
  end.

#[export] Instance WindowSeq_NumberSeq : NumberSeq WindowSeq := {
  seq_add := ws_add;
  seq_avg := ws_avg;
  seq_sd := ws_sd;
  seq_davg := ws_davg;
  seq_dsd := ws_dsd
}.

(** A base-class state whose members are plain values: the outcome
    recorders count the learned cycles up to [fb_learning_steps] and leave the
    rest alone, and the base trigger answers [fb_guaranteed]. *)
Record FixedBase : Type := mkFixedBase {
  fb_learning_steps : Z;
  fb_times_learned : Z;
  fb_time_penalties : Z;
  fb_cycle_davg : Q;
  fb_cycle_dsd : Q;
  fb_guaranteed : bool
}.

Definition fb_learn (b : FixedBase) : FixedBase :=
  mkFixedBase (fb_learning_steps b)
    (if fb_times_learned b <? fb_learning_steps b
     then fb_times_learned b + 1 else fb_times_learned b)
    (fb_time_penalties b) (fb_cycle_davg b) (fb_cycle_dsd b) (fb_guaranteed b).

#[export] Instance FixedBase_BaseHeuristics : BaseHeuristics FixedBase := {
  gc_times_learned := fb_times_learned;
  gc_time_penalties := fb_time_penalties;
  gc_cycle_time_davg := fb_cycle_davg;
  gc_cycle_time_dsd := fb_cycle_dsd;
  base_record_cycle_start := fun b => b;
  base_record_success_concurrent := fun b _ => fb_learn b;
  base_record_success_degenerated := fun b => b;
  base_record_success_full := fun b => b;
  base_should_start_gc := fun b _ => fb_guaranteed b
}.

Definition MiB : Z := 1048576.

(** ** Specification of the selection walks *)

Definition region_eq_dec (r1 r2 : ShenandoahHeapRegion) : {r1 = r2} + {r1 <> r2}.
Proof.
  decide equality; try apply Z.eq_dec; apply bool_dec.
Defined.

(** The array is in descending order of its sort key. *)
Definition garbage_descending (data : list RegionData) : Prop :=
  StronglySorted (fun a b => _garbage b <= _garbage a) data.

(** Every entry's sort key is the [garbage()] of its region. *)
Definition keyed_by_garbage (data : list RegionData) : Prop :=
  Forall (fun d => _garbage d = garbage (_region d)) data.

(** The regions of the array are in descending order of their [garbage()]. *)
Definition region_garbage_descending (data : list RegionData) : Prop :=
  StronglySorted (fun a b => garbage (_region b) <= garbage (_region a)) data.

(** The test of the non-generational loop for adding a region that fits,
    given the garbage accumulated so far: the garbage accumulated *with* the
    region is still below [min_garbage], or the region's garbage exceeds the
    threshold. *)
Definition adds_below_target (min_garbage threshold : Z)
    (cur_garbage : Z) (r : ShenandoahHeapRegion) : bool :=
  (SizeT.add cur_garbage (garbage r) <? min_garbage) || (garbage r >? threshold).

(** The test in the words of the spec: the garbage accumulated *before* the
    region is below [min_garbage], or the region's garbage exceeds the
    threshold. *)
Definition adds_as_specified (min_garbage threshold : Z)
    (cur_garbage : Z) (r : ShenandoahHeapRegion) : bool :=
  (cur_garbage <? min_garbage) || (garbage r >? threshold).

(** [selection_walk max_cset adds cur_cset cur_garbage data added]: walking
    [data] from the running sums [cur_cset] and [cur_garbage] adds exactly
    the regions [added], in order.  The walk ends at the first region whose
    live bytes do not fit under [max_cset]; a region that fits is added if
    and only if [adds] accepts it. *)
Inductive selection_walk (max_cset : Z)
    (adds : Z -> ShenandoahHeapRegion -> bool)
    : Z -> Z -> list RegionData -> list ShenandoahHeapRegion -> Prop :=
| walk_end cur_cset cur_garbage :
    selection_walk max_cset adds cur_cset cur_garbage [] []
| walk_break cur_cset cur_garbage d rest :
    SizeT.add cur_cset (get_live_data_bytes (_region d)) > max_cset ->
    selection_walk max_cset adds cur_cset cur_garbage (d :: rest) []
| walk_add cur_cset cur_garbage d rest added :
    SizeT.add cur_cset (get_live_data_bytes (_region d)) <= max_cset ->
    adds cur_garbage (_region d) = true ->
    selection_walk max_cset adds
      (SizeT.add cur_cset (get_live_data_bytes (_region d)))
      (SizeT.add cur_garbage (garbage (_region d))) rest added ->
    selection_walk max_cset adds cur_cset cur_garbage (d :: rest)
      (_region d :: added)
| walk_skip cur_cset cur_garbage d rest added :
    SizeT.add cur_cset (get_live_data_bytes (_region d)) <= max_cset ->
    adds cur_garbage (_region d) = false ->
    selection_walk max_cset adds cur_cset cur_garbage rest added ->
    selection_walk max_cset adds cur_cset cur_garbage (d :: rest) added.

(** The preselected regions of the array, in array order. *)
Definition preselected_regions (cset : ShenandoahCollectionSet)
    (data : list RegionData) : list ShenandoahHeapRegion :=
  filter (fun r => is_preselected cset (index r)) (map _region data).

(** What the second generational pass may add: a region of the array that
    is not preselected and is either below the tenuring age, or, in a global
    collection, old. *)
Definition second_pass_candidate (fl : Flags) (c : Collab)
    (cset : ShenandoahCollectionSet) (data : list RegionData)
    (r : ShenandoahHeapRegion) : Prop :=
  In r (map _region data)
  /\ is_preselected cset (index r) = false
  /\ (age r < InitialTenuringThreshold fl
      \/ (gen_is_global c = true /\ is_old r = true)).

(** The same, for a loop running over [data] with the preselection [presel]
    in a global ([global = true]) or young collection. *)
Definition second_pass_ok (fl : Flags) (global : bool) (presel : Z -> bool)
    (data : list RegionData) (r : ShenandoahHeapRegion) : Prop :=
  In r (map _region data)
  /\ presel (index r) = false
  /\ (age r < InitialTenuringThreshold fl
      \/ (global = true /\ is_old r = true)).

(** ** The scenario values of the spec

    Capacity 1,024 MiB, regions of 4 MiB, and the flag values the spec's
    scenarios use. *)
Module Scenario.

Definition flags : Flags :=
  {| ShenandoahGarbageThreshold := 25;
     ShenandoahIgnoreGarbageThreshold := 10;
     ShenandoahMinFreeThreshold := 10;
     ShenandoahInitFreeThreshold := 70;
     ShenandoahAllocSpikeFactor := 5;
     ShenandoahEvacReserve := 6;
     ShenandoahEvacWaste := 1;
     ShenandoahOldEvacWaste := 1;
     ShenandoahLearningSteps := 5;
     InitialTenuringThreshold := 7;
     region_size_bytes := 4 * MiB |}.

(** A non-generational heap with [soft_avail] bytes available to the
    generation and [free] bytes in the free set, read at time [now]. *)
Definition collab (now : Q) (soft_avail free : Z) : Collab :=
  {| elapsedTime := now;
     gen_is_old := false;
     gen_is_global := false;
     mode_is_generational := false;
     gen_max_capacity := 1024 * MiB;
     gen_soft_max_capacity := 1024 * MiB;
     gen_used := 1024 * MiB - soft_avail;
     gen_available := soft_avail;
     gen_soft_available := soft_avail;
     gen_bytes_allocated_since_gc_start := 0;
     free_set_available := free;
     heap_max_capacity := 1024 * MiB;
     young_max_capacity := 1024 * MiB;
     young_evac_reserve := 64 * MiB;
     old_evac_reserve := 16 * MiB;
     promotion_potential := 0;
     promotion_in_place_potential := 0;
     unprocessed_old_collection_candidates := 0;
     young_available_bytes_collected := 0 |}.

Definition empty_seq : WindowSeq := mkWindowSeq 10 (1 # 2) [].

Definition fresh_base : FixedBase :=
  {| fb_learning_steps := 5;
     fb_times_learned := 0;
     fb_time_penalties := 0;
     fb_cycle_davg := 0;
     fb_cycle_dsd := 0;
     fb_guaranteed := false |}.

Definition fresh_rate : ShenandoahAllocationRate WindowSeq :=
  mkAllocRate 0%Q 0 (1 # 10) empty_seq empty_seq.

(** A heuristic with the given parameters, last trigger and history of
    available bytes, and no allocation or cycle-time samples yet. *)
Definition heuristic (margin spike : Q) (t : Trigger) (history : list Q)
    : ShenandoahAdaptiveHeuristics FixedBase WindowSeq :=
  mkAdaptive fresh_base margin spike t (mkWindowSeq 10 (1 # 2) history) fresh_rate.

(** A generational heap running a young ([global = false]) or a global
    collection. *)
Definition generational_collab (global : bool) : Collab :=
  {| elapsedTime := 0;
     gen_is_old := false;
     gen_is_global := global;
     mode_is_generational := true;
     gen_max_capacity := 1024 * MiB;
     gen_soft_max_capacity := 1024 * MiB;
     gen_used := 512 * MiB;
     gen_available := 512 * MiB;
     gen_soft_available := 512 * MiB;
     gen_bytes_allocated_since_gc_start := 0;
     free_set_available := 512 * MiB;
     heap_max_capacity := 2048 * MiB;
     young_max_capacity := 1024 * MiB;
     young_evac_reserve := 64 * MiB;
     old_evac_reserve := 16 * MiB;
     promotion_potential := 0;
     promotion_in_place_potential := 0;
     unprocessed_old_collection_candidates := 0;
     young_available_bytes_collected := 0 |}.

(** A region given by its index, age, generation and its live and garbage
    bytes in MiB, and its entry in the candidate array. *)
Definition region (idx age : Z) (old : bool) (live_mib garbage_mib : Z)
    : ShenandoahHeapRegion :=
  mkRegion idx age old (garbage_mib * MiB) (live_mib * MiB).

Definition entry (r : ShenandoahHeapRegion) : RegionData :=
  mkRegionData r (garbage r).

(** An empty collection set with the given preselected indices. *)
Definition cset_with (preselected : list Z) : ShenandoahCollectionSet :=
  mkCSet (fun i => existsb (Z.eqb i) preselected) [].

(** The five regions of the non-generational scenario of the spec. *)
Definition s7_data : list RegionData :=
  [ entry (region 0 0 false 4 0);
    entry (region 1 0 false 1 3);
    entry (region 2 0 false 3 1);
    entry (region 3 0 false 1 3);
    entry (region 4 0 false 2 2) ].

(** An old generation with nothing available. *)
Definition old_collab : Collab :=
  {| elapsedTime := 0;
     gen_is_old := true;
     gen_is_global := false;
     mode_is_generational := true;
     gen_max_capacity := 256 * MiB;
     gen_soft_max_capacity := 256 * MiB;
     gen_used := 256 * MiB;
     gen_available := 0;
     gen_soft_available := 0;
     gen_bytes_allocated_since_gc_start := 0;
     free_set_available := 0;
     heap_max_capacity := 2048 * MiB;
     young_max_capacity := 1024 * MiB;
     young_evac_reserve := 64 * MiB;
     old_evac_reserve := 16 * MiB;
     promotion_potential := 0;
     promotion_in_place_potential := 0;
     unprocessed_old_collection_candidates := 0;
     young_available_bytes_collected := 0 |}.

(** A young generation with [avail] bytes available and 8 MiB of promotions
    pending. *)
Definition promoting_collab (avail : Z) : Collab :=
  {| elapsedTime := 0;
     gen_is_old := false;
     gen_is_global := false;
     mode_is_generational := true;
     gen_max_capacity := 1024 * MiB;
     gen_soft_max_capacity := 1024 * MiB;
     gen_used := 1024 * MiB - avail;
     gen_available := avail;
     gen_soft_available := avail;
     gen_bytes_allocated_since_gc_start := 0;
     free_set_available := avail;
     heap_max_capacity := 2048 * MiB;
     young_max_capacity := 1024 * MiB;
     young_evac_reserve := 64 * MiB;
     old_evac_reserve := 16 * MiB;
     promotion_potential := 8 * MiB;
     promotion_in_place_potential := 0;
     unprocessed_old_collection_candidates := 0;
     young_available_bytes_collected := 0 |}.

(** The collaborators of [collab] at time [now], with [allocated] bytes
    allocated since the start of the cycle. *)
Definition collab_at (now : Q) (avail allocated : Z) : Collab :=
  {| elapsedTime := now;
     gen_is_old := false;
     gen_is_global := false;
     mode_is_generational := false;
     gen_max_capacity := 1024 * MiB;
     gen_soft_max_capacity := 1024 * MiB;
     gen_used := 1024 * MiB - avail;
     gen_available := avail;
     gen_soft_available := avail;
     gen_bytes_allocated_since_gc_start := allocated;
     free_set_available := avail;
     heap_max_capacity := 1024 * MiB;
     young_max_capacity := 1024 * MiB;
     young_evac_reserve := 64 * MiB;
     old_evac_reserve := 16 * MiB;
     promotion_potential := 0;
     promotion_in_place_potential := 0;
     unprocessed_old_collection_candidates := 0;
     young_available_bytes_collected := 0 |}.

(** A heuristic past its learning steps: cycle times of 0.5 s with a
    deviation of 0.1 s, and the given rate samples, newest first. *)
Definition learned_base : FixedBase :=
  {| fb_learning_steps := 5;
     fb_times_learned := 5;
     fb_time_penalties := 0;
     fb_cycle_davg := 1 # 2;
     fb_cycle_dsd := 1 # 10;
     fb_guaranteed := false |}.

Definition steady_heuristic (margin spike : Q) (rates averages : list Q)
    : ShenandoahAdaptiveHeuristics FixedBase WindowSeq :=
  mkAdaptive learned_base margin spike OTHER empty_seq
    (mkAllocRate 0%Q 0 (1 # 10) (mkWindowSeq 10 (1 # 2) rates)
       (mkWindowSeq 10 (1 # 2) averages)).

Definition MiBps (n : Z) : Q := inject_Z (n * MiB).

End Scenario.

(** ** Terms of the trigger decision *)

Section TriggerTerms.
Context {B S : Type} `{BaseHeuristics B} `{NumberSeq S}.

Local Abbreviation Heur := (ShenandoahAdaptiveHeuristics B S).

(** The estimator as [sample] leaves it at the start of [should_start_gc],
    and the rate that call of [sample] returns. *)
Definition sampled_estimator (h : Heur) (c : Collab) : ShenandoahAllocationRate S :=
  match sample (_allocation_rate h) (elapsedTime c)
          (gen_bytes_allocated_since_gc_start c) with
  | Some (_, ar) => ar
  | None => _allocation_rate h
  end.

Definition sampled_rate (h : Heur) (c : Collab) : Q :=
  match sample (_allocation_rate h) (elapsedTime c)
          (gen_bytes_allocated_since_gc_start c) with
  | Some (rate, _) => rate
  | None => 0%Q
  end.

(** [avg_cycle_time] of [should_start_gc] and of the runway estimate. *)
Definition avg_cycle_time (h : Heur) : Q :=
  (gc_cycle_time_davg (base h)
   + _margin_of_error_sd h * gc_cycle_time_dsd (base h))%Q.

(** [avg_alloc_rate] of [should_start_gc]: the upper bound of the estimator
    after sampling. *)
Definition avg_alloc_rate (h : Heur) (c : Collab) : Q :=
  upper_bound (sampled_estimator h c) (_margin_of_error_sd h).

(** The spike headroom and the penalties of [should_start_gc]. *)
Definition trigger_spike_headroom (fl : Flags) (c : Collab) : Z :=
  SizeT.mul (gen_soft_max_capacity c / 100) (ShenandoahAllocSpikeFactor fl).

Definition trigger_penalties (h : Heur) (c : Collab) : Z :=
  SizeT.mul (gen_soft_max_capacity c / 100) (gc_time_penalties (base h)).

(** The learning step of [should_start_gc] fires. *)
Definition learning_fires (fl : Flags) (h : Heur) (c : Collab) : bool :=
  (gc_times_learned (base h) <? ShenandoahLearningSteps fl)
  && (mutator_available c <? learning_threshold fl c).

(** The outcome of [should_start_gc] without the state, and the trigger it
    records. *)
Definition decision (fl : Flags) (h : Heur) (c : Collab) : option bool :=
  option_map fst (should_start_gc fl h c).

Definition recorded_trigger (fl : Flags) (h : Heur) (c : Collab)
    : option Trigger :=
  option_map (fun r => _last_trigger (snd r)) (should_start_gc fl h c).

(** The allocation headroom of [should_start_gc]: the available bytes less
    the penalties and the spike headroom, each subtraction stopping at 0. *)
Definition trigger_headroom (fl : Flags) (h : Heur) (c : Collab) : Z :=
  let allocation_headroom := mutator_available c in
  let allocation_headroom :=
    SizeT.sub allocation_headroom
      (SizeT.MIN2 allocation_headroom (trigger_penalties h c)) in
  SizeT.sub allocation_headroom
    (SizeT.MIN2 allocation_headroom (trigger_spike_headroom fl c)).

(** The generational mode has promotions or mixed evacuations to expedite. *)
Definition expedite (c : Collab) : bool :=
  mode_is_generational c
  && ((promotion_potential c >? 0)
      || (promotion_in_place_potential c >? 0)
      || (unprocessed_old_collection_candidates c >? 0)).

(** The state [should_start_gc] works on after sampling. *)
Definition after_sample (h : Heur) (c : Collab) : Heur :=
  set_last_trigger (set_allocation_rate h (sampled_estimator h c)) OTHER.

(** The rate test and the spike test of [should_start_gc]. *)
Definition rate_test (fl : Flags) (h : Heur) (c : Collab) : bool :=
  Double.dgt_quot (avg_cycle_time h)
    (Double.of_size (trigger_headroom fl h c)) (avg_alloc_rate h c).

Definition spike_test (fl : Flags) (h : Heur) (c : Collab) : bool :=
  is_spiking (sampled_estimator h c) (sampled_rate h c) (_spike_threshold_sd h)
  && Double.dgt_quot (avg_cycle_time h)
       (Double.of_size (trigger_headroom fl h c)) (sampled_rate h c).

End TriggerTerms.

(** ** Terms of the collection-set choice *)

Definition Zsum (l : list Z) : Z := fold_right Z.add 0 l.

(** The live bytes of a list of regions, as an unbounded sum. *)
Definition live_bytes (l : list ShenandoahHeapRegion) : Z :=
  Zsum (map get_live_data_bytes l).

(** The regions [result] holds beyond those of [cset]. *)
Definition added_regions (cset result : ShenandoahCollectionSet)
    : list ShenandoahHeapRegion :=
  skipn (length (cset_regions cset)) (cset_regions result).

(** [max_cset] of a young collection ([max_young_cset] of a global one) and
    [max_old_cset]. *)
Definition young_max_cset (fl : Flags) (c : Collab) : Z :=
  Binary64.to_size
    (Binary64.of_size (young_evac_reserve c)
     / Binary64.of_flag (ShenandoahEvacWaste fl))%float.

Definition old_max_cset (fl : Flags) (c : Collab) : Z :=
  Binary64.to_size
    (Binary64.of_size (old_evac_reserve c)
     / Binary64.of_flag (ShenandoahOldEvacWaste fl))%float.

(** [min_garbage] as the mode in force computes it. *)
Definition chooser_min_garbage (fl : Flags) (c : Collab) (actual_free : Z) : Z :=
  if mode_is_generational c then
    min_garbage_of
      (SizeT.add
         (SizeT.mul (young_max_capacity c) (ShenandoahMinFreeThreshold fl) / 100)
         (young_max_cset fl c))
      actual_free
  else min_garbage_of (nongen_free_target fl c) actual_free.

(** Every region of the array has a live size that is not negative and that,
    added to a sum within [bound], stays within [size_t]. *)
Definition live_sizes_fit (bound : Z) (data : list RegionData) : Prop :=
  Forall (fun d => 0 <= get_live_data_bytes (_region d)
                   /\ bound + get_live_data_bytes (_region d) < SizeT.modulus)
    data.

Definition not_preselected (cset : ShenandoahCollectionSet)
    (r : ShenandoahHeapRegion) : bool :=
  negb (is_preselected cset (index r)).

(** What the loops of the generational modes require of a region they add,
    beyond its fitting under the cap. *)
Definition worth_adding (fl : Flags) (min_garbage : Z)
    (r : ShenandoahHeapRegion) : Prop :=
  garbage r > garbage_threshold fl
  \/ (garbage r > ignore_threshold fl /\ 0 < min_garbage).


(** The same collaborators in a global ([b = true]) or a young collection. *)
Definition with_global (c : Collab) (b : bool) : Collab :=
  mkCollab (elapsedTime c) (gen_is_old c) b (mode_is_generational c)
    (gen_max_capacity c) (gen_soft_max_capacity c) (gen_used c)
    (gen_available c) (gen_soft_available c)
    (gen_bytes_allocated_since_gc_start c) (free_set_available c)
    (heap_max_capacity c) (young_max_capacity c) (young_evac_reserve c)
    (old_evac_reserve c) (promotion_potential c)
    (promotion_in_place_potential c)
    (unprocessed_old_collection_candidates c)
    (young_available_bytes_collected c).

(** The entries of the array whose region is not old. *)
Definition young_entries (data : list RegionData) : list RegionData :=
  filter (fun d => negb (is_old (_region d))) data.


(** The same collaborators with other figures for the available bytes of the
    generation and of the free set. *)
Definition with_available (c : Collab) (soft free : Z) : Collab :=
  mkCollab (elapsedTime c) (gen_is_old c) (gen_is_global c)
    (mode_is_generational c) (gen_max_capacity c) (gen_soft_max_capacity c)
    (gen_used c) (gen_available c) soft
    (gen_bytes_allocated_since_gc_start c) free
    (heap_max_capacity c) (young_max_capacity c) (young_evac_reserve c)
    (old_evac_reserve c) (promotion_potential c)
    (promotion_in_place_potential c)
    (unprocessed_old_collection_candidates c)
    (young_available_bytes_collected c).


(** ** Ranges of binary64 values

    Predicates on the [spec_float] a binary64 value stands for. *)

(** [+0], or a positive finite value [m * 2^e] with [e <= E] and
    [m * 2^e < 2^G]. *)
Definition sf_bounded (G E : Z) (x : spec_float) : Prop :=
  match x with
  | S754_zero false => True
  | S754_finite false m e => Z.pos (digits2_pos m) + e <= G /\ e <= E
  | _ => False
  end.

(** Zero, a positive finite value or [+inf]: neither negative nor a NaN. *)
Definition sf_nonneg (x : spec_float) : Prop :=
  match x with
  | S754_zero _ | S754_infinity false | S754_finite false _ _ => True
  | _ => False
  end.

(** A positive value, finite or not. *)
Definition sf_positive (y : spec_float) : Prop :=
  match y with
  | S754_infinity false | S754_finite false _ _ => True
  | _ => False
  end.

(** A positive value whose exponent is at least [L]. *)
Definition sf_positive_from (L : Z) (y : spec_float) : Prop :=
  match y with
  | S754_infinity false => True
  | S754_finite false _ e => L <= e
  | _ => False
  end.

(** A finite value has an exponent of at least [L]. *)
Definition sf_exponent_from (L : Z) (x : spec_float) : Prop :=
  match x with
  | S754_finite _ _ e => L <= e
  | _ => True
  end.

(** [fexp] of the binary64 format. *)
Definition fexp64 (x : Z) : Z := Z.max (x - 53) (-1074).

(** * Properties *)

(** ** Comparison and clamping lemmas *)

Lemma ltb_true_iff (a b : Q) : Double.ltb a b = true <-> (a < b)%Q.
Proof.
  unfold Double.ltb. destruct (Qlt_le_dec a b) as [Hlt | Hle]; split; intro Hx;
    try reflexivity; try assumption; try discriminate.
  exfalso. apply (Qlt_not_le _ _ Hx Hle).
Qed.

Lemma ltb_false_iff (a b : Q) : Double.ltb a b = false <-> (b <= a)%Q.
Proof.
  unfold Double.ltb. destruct (Qlt_le_dec a b) as [Hlt | Hle]; split; intro Hx;
    try reflexivity; try assumption; try discriminate.
  exfalso. apply (Qlt_not_le _ _ Hlt Hx).
Qed.

Lemma gtb_true_iff (a b : Q) : Double.gtb a b = true <-> (b < a)%Q.
Proof. unfold Double.gtb. apply ltb_true_iff. Qed.

Lemma gtb_false_iff (a b : Q) : Double.gtb a b = false <-> (a <= b)%Q.
Proof. unfold Double.gtb. apply ltb_false_iff. Qed.

Lemma ddiv_nonzero (a b : Q) : ~ (b == 0)%Q -> Double.ddiv a b = Some (a / b)%Q.
Proof.
  intro Hb. unfold Double.ddiv.
  destruct (Qeq_bool b 0) eqn:E; [| reflexivity].
  apply Qeq_bool_iff in E. contradiction.
Qed.

Lemma wrap_nonneg (z : Z) : 0 <= SizeT.wrap z.
Proof.
  unfold SizeT.wrap, SizeT.modulus.
  apply Z.mod_pos_bound. reflexivity.
Qed.

Lemma wrap_small (z : Z) : 0 <= z < SizeT.modulus -> SizeT.wrap z = z.
Proof. intro Hz. unfold SizeT.wrap. apply Z.mod_small. exact Hz. Qed.

Lemma wrap_small_eq (z r : Z) :
  0 <= z < SizeT.modulus /\ r = z -> SizeT.wrap z = r.
Proof. intros [Hz Hr]. subst r. apply wrap_small. exact Hz. Qed.

Lemma of_size_nonneg (z : Z) : 0 <= z -> (0 <= Double.of_size z)%Q.
Proof.
  intro Hz. unfold Double.of_size.
  change 0%Q with (inject_Z 0). rewrite <- Zle_Qle. exact Hz.
Qed.

(** ** Binary64 conversion and division

    How far a conversion from [size_t] and a division can reach: enough to
    tell a finite, non-negative quotient from an infinity or a NaN. *)

Lemma digits2_pos_bounds (p : positive) :
  2 ^ (Z.pos (digits2_pos p) - 1) <= Z.pos p < 2 ^ Z.pos (digits2_pos p).
Proof.
  induction p as [p IH | p IH |]; cbn [digits2_pos].
  - rewrite Pos2Z.inj_succ.
    replace (Z.succ (Z.pos (digits2_pos p)) - 1)
      with (Z.succ (Z.pos (digits2_pos p) - 1)) by lia.
    rewrite !Z.pow_succ_r by lia. lia.
  - rewrite Pos2Z.inj_succ.
    replace (Z.succ (Z.pos (digits2_pos p)) - 1)
      with (Z.succ (Z.pos (digits2_pos p) - 1)) by lia.
    rewrite !Z.pow_succ_r by lia. lia.
  - cbn. lia.
Qed.

Lemma Zdigits2_nonneg (m : Z) : 0 <= Zdigits2 m.
Proof. destruct m; cbn; lia. Qed.

Lemma Zdigits2_le (m k : Z) : 0 <= k -> 0 <= m < 2 ^ k -> Zdigits2 m <= k.
Proof.
  intros Hk [Hm Hlt]. destruct m as [| p | p]; cbn; [lia | | lia].
  destruct (digits2_pos_bounds p) as [Hlo _].
  destruct (Z.le_gt_cases (Z.pos (digits2_pos p)) k) as [Hle | Hgt]; [exact Hle |].
  exfalso.
  assert (2 ^ k <= 2 ^ (Z.pos (digits2_pos p) - 1)) by (apply Z.pow_le_mono_r; lia).
  lia.
Qed.

Lemma Zdigits2_bound (m : Z) : 0 <= m -> m < 2 ^ Zdigits2 m.
Proof.
  intro Hm. destruct m as [| p | p]; cbn; [lia | | lia].
  apply digits2_pos_bounds.
Qed.

Lemma Zdigits2_succ (m : Z) : 0 <= m -> Zdigits2 (m + 1) <= Zdigits2 m + 1.
Proof.
  intro Hm. apply Zdigits2_le.
  - pose proof (Zdigits2_nonneg m). lia.
  - pose proof (Zdigits2_bound m Hm). pose proof (Zdigits2_nonneg m).
    rewrite Z.pow_add_r by lia. change (2 ^ 1) with 2. lia.
Qed.

Lemma shr_1_digits (mrs : shr_record) :
  0 <= shr_m mrs ->
  0 <= shr_m (shr_1 mrs)
  /\ Zdigits2 (shr_m (shr_1 mrs)) = Z.max 0 (Zdigits2 (shr_m mrs) - 1).
Proof.
  destruct mrs as [m r s]. cbn [shr_m]. intro Hm.
  destruct m as [| p | p]; [cbn; lia | | lia].
  destruct p as [p | p |]; cbn [shr_1 shr_m Zdigits2 digits2_pos];
    try rewrite Pos2Z.inj_succ; lia.
Qed.

Lemma iter_shr_1_digits (n : positive) :
  forall mrs, 0 <= shr_m mrs ->
    0 <= shr_m (iter_pos shr_1 n mrs)
    /\ Zdigits2 (shr_m (iter_pos shr_1 n mrs))
       = Z.max 0 (Zdigits2 (shr_m mrs) - Z.pos n).
Proof.
  induction n as [n IH | n IH |]; intros mrs Hm; cbn [iter_pos].
  - destruct (shr_1_digits mrs Hm) as [H1 D1].
    destruct (IH _ H1) as [H2 D2].
    destruct (IH _ H2) as [H3 D3].
    split; [exact H3 |]. rewrite D3, D2, D1. lia.
  - destruct (IH _ Hm) as [H2 D2].
    destruct (IH _ H2) as [H3 D3].
    split; [exact H3 |]. rewrite D3, D2. lia.
  - apply shr_1_digits. exact Hm.
Qed.

Lemma shr_record_of_loc_m (m : Z) (l : location) : shr_m (shr_record_of_loc m l) = m.
Proof. destruct l as [| []]; reflexivity. Qed.

Lemma fexp_64 (x : Z) : fexp prec emax x = fexp64 x.
Proof. reflexivity. Qed.

(** Shifting to the exponent of the format keeps [digits + exponent], or
    lands on the exponent when every digit is shifted out. *)
Lemma shr_fexp_digits (m e : Z) (l : location) :
  0 <= m ->
  let r := shr_fexp prec emax m e l in
  0 <= shr_m (fst r)
  /\ snd r = Z.max e (fexp64 (Zdigits2 m + e))
  /\ Zdigits2 (shr_m (fst r)) + snd r = Z.max (snd r) (Zdigits2 m + e).
Proof.
  intros Hm r. subst r. unfold shr_fexp. rewrite fexp_64.
  set (n := fexp64 (Zdigits2 m + e) - e).
  pose proof (Zdigits2_nonneg m) as Hd.
  unfold shr. destruct n as [| p | p] eqn:En; cbn [fst snd].
  - rewrite shr_record_of_loc_m. lia.
  - assert (H0 : 0 <= shr_m (shr_record_of_loc m l))
      by (rewrite shr_record_of_loc_m; exact Hm).
    destruct (iter_shr_1_digits p _ H0) as [H1 D1].
    rewrite shr_record_of_loc_m in D1.
    split; [exact H1 |]. rewrite D1. lia.
  - rewrite shr_record_of_loc_m. lia.
Qed.

Lemma round_nearest_even_bounds (m : Z) (l : location) :
  0 <= m ->
  0 <= round_nearest_even m l
  /\ Zdigits2 (round_nearest_even m l) <= Zdigits2 m + 1.
Proof.
  intro Hm. pose proof (Zdigits2_succ m Hm) as Hs.
  unfold round_nearest_even.
  destruct l as [| [| |]]; try destruct (Z.even m); lia.
Qed.

(** Rounding a non-negative mantissa gives [+0] or a positive finite value
    of about the same size: no infinity while the size allows. *)
Lemma binary_round_aux_bounded (m e : Z) (l : location) (G E : Z) :
  0 <= m -> e <= E -> Zdigits2 m + e <= G ->
  Z.max E (G - 52) <= 971 ->
  sf_bounded (Z.max (Z.max (Z.max E (G - 52)) (-1074)) G + 1)
    (Z.max (Z.max E (G - 52)) (-1074))
    (binary_round_aux prec emax false m e l).
Proof.
  intros Hm He Hg Hfin. unfold binary_round_aux.
  destruct (shr_fexp_digits m e l Hm) as [H1 [E1 D1]].
  destruct (shr_fexp prec emax m e l) as [mrs' e'] eqn:S1. cbn [fst snd] in H1, E1, D1.
  destruct (round_nearest_even_bounds (shr_m mrs') (loc_of_shr_record mrs') H1)
    as [Hr Dr].
  set (m1 := round_nearest_even (shr_m mrs') (loc_of_shr_record mrs')) in *.
  destruct (shr_fexp_digits m1 e' loc_Exact Hr) as [H2 [E2 D2]].
  destruct (shr_fexp prec emax m1 e' loc_Exact) as [mrs'' e''] eqn:S2.
  cbn [fst snd] in H2, E2, D2.
  unfold fexp64 in *.
  destruct (shr_m mrs'') as [| p | p] eqn:Em; cbn [sf_bounded];
    [exact I | | exfalso; apply H2; reflexivity].
  cbn [Zdigits2] in D2.
  assert (He'' : e'' <= Z.max (Z.max E (G - 52)) (-1074)) by lia.
  replace (e'' <=? emax - prec) with true
    by (symmetry; apply Z.leb_le; change (emax - prec) with 971; lia).
  cbn [sf_bounded]. split; lia.
Qed.

Lemma iter_xO_digits (p d : positive) :
  digits2_pos (Pos.iter xO p d) = (digits2_pos p + d)%positive.
Proof.
  induction d as [| d IH] using Pos.peano_ind.
  - cbn. lia.
  - rewrite Pos.iter_succ. cbn [digits2_pos]. rewrite IH. lia.
Qed.

Lemma binary_round_bounded (p : positive) (e G E : Z) :
  e <= E -> Z.pos (digits2_pos p) + e <= G ->
  Z.max E (G - 52) <= 971 ->
  sf_bounded (Z.max (Z.max (Z.max E (G - 52)) (-1074)) G + 1)
    (Z.max (Z.max E (G - 52)) (-1074))
    (binary_round prec emax false p e).
Proof.
  intros He Hg Hfin. unfold binary_round, shl_align.
  destruct (fexp prec emax (Z.pos (digits2_pos p) + e) - e) as [| d | d] eqn:Ed.
  - apply binary_round_aux_bounded; try assumption; lia.
  - apply binary_round_aux_bounded; try assumption; lia.
  - assert (Hd : Zdigits2 (Z.pos (Pos.iter xO p d)) = Z.pos (digits2_pos p) + Z.pos d)
      by (cbn [Zdigits2]; rewrite iter_xO_digits; lia).
    unfold fexp in *.
    apply binary_round_aux_bounded; lia.
Qed.

Lemma sf_bounded_weaken (G E G' E' : Z) (x : spec_float) :
  G <= G' -> E <= E' -> sf_bounded G E x -> sf_bounded G' E' x.
Proof.
  intros HG HE. destruct x as [[|] | s | | [|] m e]; cbn; try tauto. lia.
Qed.

Lemma binary_normalize_bounded (n : Z) :
  0 <= n < 2 ^ 64 ->
  sf_bounded 65 12 (binary_normalize prec emax n 0 false).
Proof.
  intros [Hn Hlt]. destruct n as [| p | p]; [exact I | | lia].
  cbn [binary_normalize].
  assert (Hd : Zdigits2 (Z.pos p) <= 64) by (apply Zdigits2_le; lia).
  cbn [Zdigits2] in Hd.
  apply (sf_bounded_weaken _ _ 65 12)
    with (3 := binary_round_bounded p 0 64 0 ltac:(lia) ltac:(lia) ltac:(lia));
    lia.
Qed.

Lemma SFldexp_bounded (G E : Z) (x : spec_float) (e : Z) :
  sf_bounded G E x ->
  Z.max (E + e) (G + e - 52) <= 971 ->
  sf_bounded (Z.max (Z.max (Z.max (E + e) (G + e - 52)) (-1074)) (G + e) + 1)
    (Z.max (Z.max (E + e) (G + e - 52)) (-1074))
    (SFldexp prec emax x e).
Proof.
  destruct x as [[|] | s | | [|] m ex]; cbn [sf_bounded SFldexp]; try tauto.
  intros [Hg He] Hfin.
  apply binary_round_bounded; lia.
Qed.

(** [double(n)] of a [size_t] is [+0] or positive and finite. *)
Lemma of_size_bounded (n : Z) :
  0 <= n < 2 ^ 64 -> sf_bounded 78 25 (Prim2SF (Binary64.of_size n)).
Proof.
  intro Hn. unfold Binary64.of_size.
  pose proof (binary_normalize_bounded n Hn) as Hb.
  destruct (binary_normalize prec emax n 0 false) as [[|] | s | | [|] m e];
    cbn [sf_bounded] in Hb; try contradiction.
  - vm_compute. exact I.
  - destruct Hb as [Hg He].
    cbn [SF2Prim]. rewrite Z_ldexp_spec, of_uint63_spec.
    pose proof (Uint63.to_Z_bounded (Uint63.of_Z (Z.pos m))) as Hk.
    change Uint63.wB with (2 ^ 63) in Hk.
    assert (Hk' : 0 <= Uint63.to_Z (Uint63.of_Z (Z.pos m)) < 2 ^ 64) by lia.
    pose proof (binary_normalize_bounded _ Hk') as Hb2.
    pose proof (digits2_pos_bounds m) as Hdm.
    assert (0 < Z.pos (digits2_pos m)) by lia.
    apply (sf_bounded_weaken _ _ 78 25)
      with (3 := SFldexp_bounded 65 12 _ e Hb2 ltac:(lia)); lia.
Qed.

Lemma binary_round_aux_nonneg (m e : Z) (l : location) :
  0 <= m -> sf_nonneg (binary_round_aux prec emax false m e l).
Proof.
  intro Hm. unfold binary_round_aux.
  destruct (shr_fexp_digits m e l Hm) as [H1 _].
  destruct (shr_fexp prec emax m e l) as [mrs' e']. cbn [fst] in H1.
  destruct (round_nearest_even_bounds (shr_m mrs') (loc_of_shr_record mrs') H1)
    as [Hr _].
  destruct (shr_fexp_digits _ e' loc_Exact Hr) as [H2 _].
  destruct (shr_fexp prec emax _ e' loc_Exact) as [mrs'' e'']. cbn [fst] in H2.
  destruct (shr_m mrs'') as [| p | p]; [exact I | | exfalso; apply H2; reflexivity].
  destruct (e'' <=? emax - prec); exact I.
Qed.

(** The integer quotient the division rounds, and its exponent. *)
Lemma SFdiv_core_binary_bounds (mx my : positive) (ex ey : Z) :
  let r := SFdiv_core_binary prec emax (Z.pos mx) ex (Z.pos my) ey in
  0 <= fst (fst r)
  /\ snd (fst r) <= ex - ey
  /\ Zdigits2 (fst (fst r)) + snd (fst r)
     <= Z.max (snd (fst r))
          (Z.pos (digits2_pos mx) + ex - (Z.pos (digits2_pos my) + ey) + 1).
Proof.
  unfold SFdiv_core_binary. cbn [Zdigits2].
  set (dx := Z.pos (digits2_pos mx)). set (dy := Z.pos (digits2_pos my)).
  set (e' := Z.min (fexp prec emax (dx + ex - (dy + ey))) (ex - ey)).
  set (s := ex - ey - e').
  assert (Hs : 0 <= s) by (subst s e'; lia).
  set (m' := match s with
             | 0 => Z.pos mx
             | Z.pos _ => Z.shiftl (Z.pos mx) s
             | Z.neg _ => 0
             end).
  assert (Hm' : m' = Z.pos mx * 2 ^ s).
  { subst m'. destruct s as [| p | p] eqn:Es.
    - cbn. lia.
    - apply Z.shiftl_mul_pow2. lia.
    - lia. }
  assert (Hq : fst (Z.div_eucl m' (Z.pos my)) = m' / Z.pos my) by reflexivity.
  destruct (Z.div_eucl m' (Z.pos my)) as [q r]. cbn [fst snd] in Hq |- *.
  pose proof (digits2_pos_bounds mx) as [_ Hxu]. fold dx in Hxu.
  pose proof (digits2_pos_bounds my) as [Hyl _]. fold dy in Hyl.
  assert (Hdx : 0 < dx) by (subst dx; lia).
  assert (Hdy : 0 < dy) by (subst dy; lia).
  assert (Hpow : 0 < 2 ^ s) by (apply Z.pow_pos_nonneg; lia).
  assert (Hm0 : 0 <= m') by (rewrite Hm'; lia).
  assert (Hq0 : 0 <= q) by (rewrite Hq; apply Z.div_pos; lia).
  split; [exact Hq0 |]. split; [subst e'; lia |].
  set (k := Z.max 0 (dx + s - dy + 1)).
  assert (Hqk : q < 2 ^ k).
  { rewrite Hq. apply Z.div_lt_upper_bound; [lia |].
    assert (Hup : m' < 2 ^ (dx + s)).
    { rewrite Hm', Z.pow_add_r by lia. nia. }
    assert (Hlow : 2 ^ (dx + s) <= 2 ^ (dy - 1) * 2 ^ k).
    { rewrite <- Z.pow_add_r by lia. apply Z.pow_le_mono_r; lia. }
    assert (0 < 2 ^ k) by (apply Z.pow_pos_nonneg; lia).
    nia. }
  assert (Hdq : Zdigits2 q <= k) by (apply Zdigits2_le; lia).
  subst k s. lia.
Qed.

(** A finite non-negative value over a positive one is neither negative nor
    a NaN. *)
Lemma SFdiv_nonneg (G E : Z) (x y : spec_float) :
  sf_bounded G E x -> sf_positive y -> sf_nonneg (SFdiv prec emax x y).
Proof.
  destruct x as [[|] | sx | | [|] mx ex]; cbn [sf_bounded]; try tauto;
    destruct y as [sy | [|] | | [|] my ey]; cbn [sf_positive]; try tauto; intros _ _;
    try exact I.
  cbn [SFdiv xorb].
  pose proof (SFdiv_core_binary_bounds mx my ex ey) as [Hq _].
  destruct (SFdiv_core_binary prec emax (Z.pos mx) ex (Z.pos my) ey) as [[q e'] l].
  cbn [fst] in Hq. apply binary_round_aux_nonneg. exact Hq.
Qed.

(** The quotient is finite when the exponent of the divisor is at least [L]
    and the sizes allow. *)
Lemma SFdiv_bounded (G E L : Z) (x y : spec_float) :
  let E0 := E - L in
  let G0 := Z.max (E - L) (G - L) in
  sf_bounded G E x -> sf_positive_from L y ->
  Z.max E0 (G0 - 52) <= 971 ->
  sf_bounded (Z.max (Z.max (Z.max E0 (G0 - 52)) (-1074)) G0 + 1)
    (Z.max (Z.max E0 (G0 - 52)) (-1074))
    (SFdiv prec emax x y).
Proof.
  intros E0 G0.
  destruct x as [[|] | sx | | [|] mx ex]; cbn [sf_bounded]; try tauto;
    destruct y as [sy | [|] | | [|] my ey]; cbn [sf_positive_from]; try tauto;
    intros Hx Hy Hfin; try exact I.
  destruct Hx as [Hg He].
  cbn [SFdiv xorb].
  pose proof (SFdiv_core_binary_bounds mx my ex ey) as [Hq [He' Hd]].
  destruct (SFdiv_core_binary prec emax (Z.pos mx) ex (Z.pos my) ey) as [[q e'] l].
  cbn [fst snd] in Hq, He', Hd.
  assert (Hdy : 0 < Z.pos (digits2_pos my)) by lia.
  apply binary_round_aux_bounded; subst E0 G0; lia.
Qed.

Lemma SFltb_zero_positive (s : bool) (y : spec_float) :
  SFltb (S754_zero s) y = true -> sf_positive y.
Proof.
  unfold SFltb. destruct y as [sy | [|] | | [|] my ey]; cbn; try discriminate; auto.
Qed.

Lemma SFcompare_finite_exponent (m1 : positive) (e1 : Z) (y : spec_float) :
  SFltb (S754_finite false m1 e1) y = true
  \/ SFleb (S754_finite false m1 e1) y = true ->
  sf_positive_from e1 y.
Proof.
  unfold SFltb, SFleb.
  destruct y as [sy | [|] | | [|] my ey]; cbn;
    try (intros [Hx | Hx]; discriminate Hx); auto.
  destruct (Z.compare_spec e1 ey) as [Heq | Hlt | Hgt]; try lia.
Qed.

Lemma sf_positive_from_weaken (L L' : Z) (y : spec_float) :
  L' <= L -> sf_positive_from L y -> sf_positive_from L' y.
Proof. intro HL. destruct y as [sy | [|] | | [|] my ey]; cbn; try tauto. lia. Qed.

Lemma SFltb_after (L : Z) (i y : spec_float) :
  sf_positive_from L i -> SFltb i y = true -> sf_positive_from L y.
Proof.
  destruct i as [si | [|] | | [|] mi ei]; cbn [sf_positive_from]; try tauto.
  - intros _. unfold SFltb. destruct y as [sy | [|] | | [|] my ey]; cbn; discriminate.
  - intros HL Hlt. apply (sf_positive_from_weaken ei); [exact HL |].
    apply (SFcompare_finite_exponent mi). left. exact Hlt.
Qed.

Lemma leb_zero_of_nonneg (r : float) :
  sf_nonneg (Prim2SF r) -> PrimFloat.leb 0 r = true.
Proof.
  rewrite FloatAxioms.leb_spec. change (Prim2SF 0) with (S754_zero false).
  unfold SFleb. destruct (Prim2SF r) as [s | [|] | | [|] m e]; cbn; tauto.
Qed.

Lemma sf_bounded_nonneg (G E : Z) (x : spec_float) : sf_bounded G E x -> sf_nonneg x.
Proof. destruct x as [[|] | [|] | | [|] m e]; cbn; tauto. Qed.

Lemma ltb_infinity_of_bounded (G E : Z) (r : float) :
  sf_bounded G E (Prim2SF r) -> PrimFloat.ltb r infinity = true.
Proof.
  rewrite FloatAxioms.ltb_spec. change (Prim2SF infinity) with (S754_infinity false).
  unfold SFltb. destruct (Prim2SF r) as [[|] | [|] | | [|] m e]; cbn; tauto.
Qed.

Lemma sf_exponent_from_weaken (L L' : Z) (x : spec_float) :
  L' <= L -> sf_exponent_from L x -> sf_exponent_from L' x.
Proof. intro HL. destruct x as [s | s | | s m e]; cbn; try tauto. lia. Qed.

Lemma Zdigits2_gt (m k : Z) : 0 <= k -> 2 ^ k <= m -> k < Zdigits2 m.
Proof.
  intros Hk Hm.
  assert (H0 : 0 < 2 ^ k) by (apply Z.pow_pos_nonneg; lia).
  pose proof (Zdigits2_bound m ltac:(lia)) as Hup.
  pose proof (Zdigits2_nonneg m) as Hd.
  apply (Z.pow_lt_mono_r_iff 2); lia.
Qed.

Lemma Zdigits2_positive (m : Z) : 0 < m -> 0 < Zdigits2 m.
Proof. destruct m; cbn; lia. Qed.

Lemma Zdigits2_zero (m : Z) : 0 <= m -> 0 < Zdigits2 m -> 0 < m.
Proof. destruct m; cbn; lia. Qed.

Lemma Zdigits2_mono (m n : Z) : 0 <= m <= n -> Zdigits2 m <= Zdigits2 n.
Proof.
  intros [Hm Hn]. destruct (Z.eq_dec m 0) as [-> | Hne].
  - apply Zdigits2_nonneg.
  - apply Zdigits2_le; [apply Zdigits2_nonneg |].
    pose proof (Zdigits2_bound n ltac:(lia)). lia.
Qed.

Lemma binary_round_aux_exponent (s : bool) (m e : Z) (l : location) :
  0 <= m -> sf_exponent_from e (binary_round_aux prec emax s m e l).
Proof.
  intro Hm. unfold binary_round_aux.
  destruct (shr_fexp_digits m e l Hm) as [H1 [E1 _]].
  destruct (shr_fexp prec emax m e l) as [mrs' e']. cbn [fst snd] in H1, E1.
  destruct (round_nearest_even_bounds (shr_m mrs') (loc_of_shr_record mrs') H1)
    as [Hr _].
  destruct (shr_fexp_digits _ e' loc_Exact Hr) as [H2 [E2 _]].
  destruct (shr_fexp prec emax _ e' loc_Exact) as [mrs'' e'']. cbn [fst snd] in H2, E2.
  destruct (shr_m mrs'') as [| p | p]; [exact I | | exact I].
  destruct (e'' <=? emax - prec); cbn [sf_exponent_from]; [lia | exact I].
Qed.

Lemma binary_round_exponent (s : bool) (p : positive) (e : Z) :
  sf_exponent_from (Z.min e (Z.pos (digits2_pos p) + e - 53))
    (binary_round prec emax s p e).
Proof.
  unfold binary_round, shl_align.
  destruct (fexp prec emax (Z.pos (digits2_pos p) + e) - e) as [| d | d] eqn:Ed.
  - apply (sf_exponent_from_weaken e); [lia |].
    apply binary_round_aux_exponent. lia.
  - apply (sf_exponent_from_weaken e); [lia |].
    apply binary_round_aux_exponent. lia.
  - apply (sf_exponent_from_weaken (fexp prec emax (Z.pos (digits2_pos p) + e)));
      [rewrite fexp_64; unfold fexp64; lia |].
    apply binary_round_aux_exponent. lia.
Qed.

Lemma binary_normalize_exponent (n : Z) :
  0 <= n -> sf_exponent_from (-52) (binary_normalize prec emax n 0 false).
Proof.
  intro Hn. destruct n as [| p | p]; [exact I | | lia].
  cbn [binary_normalize].
  apply (sf_exponent_from_weaken (Z.min 0 (Z.pos (digits2_pos p) + 0 - 53)));
    [lia |].
  apply binary_round_exponent.
Qed.

Lemma of_size_exponent (n : Z) :
  0 <= n < 2 ^ 64 -> sf_exponent_from (-156) (Prim2SF (Binary64.of_size n)).
Proof.
  intro Hn. unfold Binary64.of_size.
  pose proof (binary_normalize_bounded n Hn) as Hb.
  pose proof (binary_normalize_exponent n ltac:(lia)) as Hl.
  destruct (binary_normalize prec emax n 0 false) as [[|] | s | | [|] m e];
    cbn [sf_bounded] in Hb; try contradiction.
  - vm_compute. exact I.
  - cbn [sf_exponent_from] in Hl.
    cbn [SF2Prim]. rewrite Z_ldexp_spec, of_uint63_spec.
    pose proof (Uint63.to_Z_bounded (Uint63.of_Z (Z.pos m))) as Hk.
    pose proof (binary_normalize_exponent _ (proj1 Hk)) as Hl2.
    destruct (binary_normalize prec emax (Uint63.to_Z (Uint63.of_Z (Z.pos m))) 0 false)
      as [s2 | s2 | | s2 m2 e2]; cbn [SFldexp sf_exponent_from] in *; try exact I.
    apply (sf_exponent_from_weaken
             (Z.min (e2 + e) (Z.pos (digits2_pos m2) + (e2 + e) - 53))); [lia |].
    apply binary_round_exponent.
Qed.

Lemma shr_fexp_positive (m e : Z) (l : location) :
  0 < m -> -1074 < Zdigits2 m + e ->
  let r := shr_fexp prec emax m e l in
  0 < shr_m (fst r)
  /\ e <= snd r
  /\ Zdigits2 (shr_m (fst r)) + snd r = Zdigits2 m + e.
Proof.
  intros Hm Hmag r.
  destruct (shr_fexp_digits m e l ltac:(lia)) as [H1 [E1 D1]]. fold r in H1, E1, D1.
  pose proof (Zdigits2_positive m Hm) as Hd.
  unfold fexp64 in E1.
  assert (Hdig : 0 < Zdigits2 (shr_m (fst r))) by lia.
  split; [apply Zdigits2_zero; assumption |]. split; lia.
Qed.

Lemma binary_round_aux_positive (m e : Z) (l : location) (G E : Z) :
  0 < m -> -1074 < Zdigits2 m + e ->
  e <= E -> Zdigits2 m + e <= G -> Z.max E (G - 52) <= 971 ->
  sf_positive_from e (binary_round_aux prec emax false m e l)
  /\ binary_round_aux prec emax false m e l <> S754_infinity false.
Proof.
  intros Hm Hmag He Hg Hfin. unfold binary_round_aux.
  destruct (shr_fexp_positive m e l Hm Hmag) as [H1 [L1 D1]].
  destruct (shr_fexp_digits m e l ltac:(lia)) as [_ [E1 _]].
  destruct (shr_fexp prec emax m e l) as [mrs' e']. cbn [fst snd] in H1, L1, D1, E1.
  destruct (round_nearest_even_bounds (shr_m mrs') (loc_of_shr_record mrs')
              ltac:(lia)) as [Hr Dr].
  assert (Hge : shr_m mrs' <= round_nearest_even (shr_m mrs') (loc_of_shr_record mrs')).
  { unfold round_nearest_even.
    destruct (loc_of_shr_record mrs') as [| [| |]];
      try destruct (Z.even (shr_m mrs')); lia. }
  set (m1 := round_nearest_even (shr_m mrs') (loc_of_shr_record mrs')) in *.
  assert (Hd1 : Zdigits2 (shr_m mrs') <= Zdigits2 m1) by (apply Zdigits2_mono; lia).
  destruct (shr_fexp_positive m1 e' loc_Exact ltac:(lia) ltac:(lia)) as [H2 [L2 D2]].
  destruct (shr_fexp_digits m1 e' loc_Exact ltac:(lia)) as [_ [E2 _]].
  destruct (shr_fexp prec emax m1 e' loc_Exact) as [mrs'' e''].
  cbn [fst snd] in H2, L2, D2, E2. unfold fexp64 in *.
  destruct (shr_m mrs'') as [| p | p]; try lia.
  replace (e'' <=? emax - prec) with true
    by (symmetry; apply Z.leb_le; change (emax - prec) with 971; lia).
  cbn [sf_positive_from]. split; [lia | discriminate].
Qed.

(** A quotient of two positive finite values that neither underflows nor
    overflows is positive, with an exponent bounded from below. *)
Lemma SFdiv_finite_positive (mx my : positive) (ex ey E G L : Z) :
  let z := Z.pos (digits2_pos mx) + ex - (Z.pos (digits2_pos my) + ey) in
  -1021 <= z -> -1074 <= L ->
  ex - ey <= E -> z + 1 <= G -> E <= G -> Z.max E (G - 52) <= 971 ->
  L <= z - 53 -> L <= ex - ey ->
  sf_positive_from L
    (SFdiv prec emax (S754_finite false mx ex) (S754_finite false my ey)).
Proof.
  intros z Hz HL HE HG HEG Hfin HLz HLe.
  cbn [SFdiv xorb]. unfold SFdiv_core_binary. cbn [Zdigits2].
  set (dx := Z.pos (digits2_pos mx)) in *. set (dy := Z.pos (digits2_pos my)) in *.
  rewrite fexp_64. unfold fexp64.
  replace (Z.max (dx + ex - (dy + ey) - 53) (-1074)) with (z - 53) by (subst z; lia).
  set (e' := Z.min (z - 53) (ex - ey)).
  set (s := ex - ey - e').
  assert (Hs : dy - dx + 53 <= s) by (subst s e' z; lia).
  assert (Hdx : 0 < dx) by (subst dx; lia).
  assert (Hdy : 0 < dy) by (subst dy; lia).
  pose proof (digits2_pos_bounds mx) as [Hxl Hxu]. fold dx in Hxl, Hxu.
  pose proof (digits2_pos_bounds my) as [Hyl Hyu]. fold dy in Hyl, Hyu.
  set (m' := match s with
             | 0 => Z.pos mx
             | Z.pos _ => Z.shiftl (Z.pos mx) s
             | Z.neg _ => 0
             end).
  assert (Hs0 : 0 <= s) by (subst s e'; lia).
  assert (Hm' : m' = Z.pos mx * 2 ^ s).
  { subst m'. destruct s as [| p | p] eqn:Es.
    - cbn. lia.
    - apply Z.shiftl_mul_pow2. lia.
    - lia. }
  assert (Hq : fst (Z.div_eucl m' (Z.pos my)) = m' / Z.pos my) by reflexivity.
  destruct (Z.div_eucl m' (Z.pos my)) as [q r]. cbn [fst] in Hq.
  assert (Hpow : 0 < 2 ^ s) by (apply Z.pow_pos_nonneg; lia).
  assert (Hq52 : 2 ^ 52 <= q).
  { rewrite Hq. apply Z.div_le_lower_bound; [lia |].
    assert (Hlow : 2 ^ (dy + 52) <= 2 ^ (dx - 1 + s)) by (apply Z.pow_le_mono_r; lia).
    rewrite Z.pow_add_r in Hlow by lia.
    rewrite (Z.pow_add_r 2 (dx - 1) s) in Hlow by lia.
    rewrite Hm'. nia. }
  assert (Hdq : 52 < Zdigits2 q) by (apply Zdigits2_gt; lia).
  assert (Hqk : q < 2 ^ (dx + s - dy + 1)).
  { rewrite Hq. apply Z.div_lt_upper_bound; [lia |].
    assert (Hup : m' < 2 ^ (dx + s)).
    { rewrite Hm', Z.pow_add_r by lia. nia. }
    assert (Hlow : 2 ^ (dx + s) <= 2 ^ (dy - 1) * 2 ^ (dx + s - dy + 1)).
    { rewrite <- Z.pow_add_r by lia. apply Z.pow_le_mono_r; lia. }
    assert (0 < 2 ^ (dx + s - dy + 1)) by (apply Z.pow_pos_nonneg; lia).
    nia. }
  assert (Hdqu : Zdigits2 q <= dx + s - dy + 1) by (apply Zdigits2_le; lia).
  assert (H252 : 0 < 2 ^ 52) by reflexivity.
  apply (sf_positive_from_weaken e'); [subst e'; lia |].
  apply (binary_round_aux_positive q e' _ G E); subst s e' z; lia.
Qed.

(** The interval the constructor computes is positive ([+inf] for a
    frequency of 0), with an exponent of at least [-130]. *)
Lemma interval_sec_positive (frequency : Z) :
  0 <= frequency < 2 ^ 64 ->
  sf_positive_from (-130) (Prim2SF (Binary64.interval_sec frequency)).
Proof.
  intro Hf. unfold Binary64.interval_sec. rewrite div_spec.
  change (Prim2SF 1) with (S754_finite false 4503599627370496 (-52)).
  pose proof (of_size_bounded frequency Hf) as Hb.
  pose proof (of_size_exponent frequency Hf) as Hl.
  destruct (Prim2SF (Binary64.of_size frequency)) as [[|] | s | | [|] m e];
    cbn [sf_bounded sf_exponent_from] in Hb, Hl; try contradiction.
  - exact I.
  - destruct Hb as [Hg He].
    assert (Hd : 0 < Z.pos (digits2_pos m)) by lia.
    apply (SFdiv_finite_positive _ _ _ _ 104 157); cbn [digits2_pos Pos.succ]; lia.
Qed.

Lemma allocation_delta_range (allocated last_value : Z) :
  0 <= (if allocated >? last_value then SizeT.sub allocated last_value else 0)
  < 2 ^ 64.
Proof.
  destruct (allocated >? last_value).
  - unfold SizeT.sub, SizeT.wrap. apply Z.mod_pos_bound. reflexivity.
  - split; [lia | reflexivity].
Qed.

Lemma binary64_instantaneous_rate_nonneg (last_time : float) (last_value : Z)
    (time : float) (allocated : Z) :
  PrimFloat.leb 0 (Binary64.instantaneous_rate last_time last_value time allocated)
  = true.
Proof.
  unfold Binary64.instantaneous_rate.
  destruct (PrimFloat.ltb 0 (time - last_time)) eqn:Ept; [| vm_compute; reflexivity].
  apply leb_zero_of_nonneg. rewrite div_spec.
  apply (SFdiv_nonneg 78 25).
  - apply of_size_bounded, allocation_delta_range.
  - rewrite FloatAxioms.ltb_spec in Ept.
    apply (SFltb_zero_positive false). exact Ept.
Qed.

(** Past an interval whose exponent is at least [L], the quotient of a
    [size_t] and the elapsed time is finite. *)
Lemma binary64_sample_finite_from (L : Z) (last_time : float) (last_value : Z)
    (interval_sec now : float) (allocated : Z) :
  -800 <= L ->
  sf_positive_from L (Prim2SF interval_sec) ->
  PrimFloat.leb 0 (Binary64.sample last_time last_value interval_sec now allocated)
  = true
  /\ PrimFloat.ltb (Binary64.sample last_time last_value interval_sec now allocated)
       infinity
     = true.
Proof.
  intros HL Hint. unfold Binary64.sample.
  destruct (PrimFloat.ltb interval_sec (now - last_time)) eqn:Edt;
    [| split; vm_compute; reflexivity].
  destruct (allocated >=? last_value); [| split; vm_compute; reflexivity].
  split; [apply binary64_instantaneous_rate_nonneg |].
  unfold Binary64.instantaneous_rate.
  destruct (PrimFloat.ltb 0 (now - last_time)) eqn:Ept; [| vm_compute; reflexivity].
  rewrite FloatAxioms.ltb_spec in Edt.
  pose proof (SFltb_after _ _ _ Hint Edt) as Hdt.
  eapply ltb_infinity_of_bounded. rewrite div_spec.
  apply (SFdiv_bounded 78 25 L).
  - apply of_size_bounded, allocation_delta_range.
  - exact Hdt.
  - lia.
Qed.

Lemma binary64_sample_finite (last_time : float) (last_value : Z)
    (interval_sec now : float) (allocated : Z) :
  PrimFloat.leb Binary64.shortest_interval interval_sec = true ->
  PrimFloat.leb 0 (Binary64.sample last_time last_value interval_sec now allocated)
  = true
  /\ PrimFloat.ltb (Binary64.sample last_time last_value interval_sec now allocated)
       infinity
     = true.
Proof.
  intro Hint. apply (binary64_sample_finite_from (-116)); [lia |].
  rewrite FloatAxioms.leb_spec in Hint.
  apply (SFcompare_finite_exponent 4503599627370496). right. exact Hint.
Qed.

Lemma binary64_sample_finite_constructed (last_time : float) (last_value : Z)
    (frequency : Z) (now : float) (allocated : Z) :
  0 <= frequency < 2 ^ 64 ->
  PrimFloat.leb 0
    (Binary64.sample last_time last_value (Binary64.interval_sec frequency) now
       allocated)
  = true
  /\ PrimFloat.ltb
       (Binary64.sample last_time last_value (Binary64.interval_sec frequency) now
          allocated)
       infinity
     = true.
Proof.
  intro Hf. apply (binary64_sample_finite_from (-130)); [lia |].
  apply interval_sec_positive. exact Hf.
Qed.

(** ** The allocation-rate estimator *)

Section AllocationRateFacts.
Context {S : Type} `{NumberSeq S}.

Lemma instantaneous_rate_defined (ar : ShenandoahAllocationRate S)
    (time : Q) (allocated : Z) :
  exists r, instantaneous_rate ar time allocated = Some r /\ (0 <= r)%Q.
Proof.
  unfold instantaneous_rate.
  set (delta := if allocated >? _last_sample_value ar
                then SizeT.sub allocated (_last_sample_value ar) else 0).
  assert (Hd : 0 <= delta).
  { subst delta. destruct (allocated >? _last_sample_value ar).
    - apply wrap_nonneg.
    - lia. }
  destruct (Double.gtb (time - _last_sample_time ar) 0) eqn:E.
  - apply gtb_true_iff in E.
    rewrite ddiv_nonzero by (intro Hz; rewrite Hz in E; apply (Qlt_irrefl _ E)).
    eexists. split; [reflexivity |].
    apply Qle_shift_div_l; [exact E |].
    rewrite Qmult_0_l. apply of_size_nonneg. exact Hd.
  - exists 0%Q. split; [reflexivity | apply Qle_refl].
Qed.

(** The rate computed is the clamped delta over the elapsed time when that
    time is positive, and 0 otherwise. *)
Lemma instantaneous_rate_cases (ar : ShenandoahAllocationRate S)
    (time : Q) (allocated : Z) :
  ((time - _last_sample_time ar <= 0)%Q /\
   instantaneous_rate ar time allocated = Some 0%Q)
  \/ ((0 < time - _last_sample_time ar)%Q /\
      instantaneous_rate ar time allocated
      = Some (Double.of_size
                (if allocated >? _last_sample_value ar
                 then SizeT.sub allocated (_last_sample_value ar) else 0)
              / (time - _last_sample_time ar))%Q).
Proof.
  unfold instantaneous_rate.
  destruct (Double.gtb (time - _last_sample_time ar) 0) eqn:E.
  - apply gtb_true_iff in E. right. split; [exact E |].
    apply ddiv_nonzero. intro Hz. rewrite Hz in E. apply (Qlt_irrefl _ E).
  - apply gtb_false_iff in E. left. split; [exact E | reflexivity].
Qed.

Lemma instantaneous_rate_clamped (ar : ShenandoahAllocationRate S)
    (time : Q) (allocated : Z) (r : Q) :
  instantaneous_rate ar time allocated = Some r ->
  allocated <= _last_sample_value ar -> (r == 0)%Q.
Proof.
  intros Hr Hreg.
  destruct (instantaneous_rate_cases ar time allocated) as [[_ H0] | [_ Hq]].
  - rewrite H0 in Hr. injection Hr as <-. reflexivity.
  - rewrite Hq in Hr. injection Hr as <-.
    replace (allocated >? _last_sample_value ar) with false
      by (symmetry; rewrite Z.gtb_ltb; apply Z.ltb_ge; exact Hreg).
    unfold Double.of_size, Qdiv. apply Qmult_0_l.
Qed.

(** After a positive elapsed time [dt] the rate is at most [2^64 / dt]. *)
Lemma instantaneous_rate_bound (ar : ShenandoahAllocationRate S)
    (time : Q) (allocated : Z) (r bound : Q) :
  instantaneous_rate ar time allocated = Some r ->
  (0 < bound)%Q -> (bound < time - _last_sample_time ar)%Q ->
  (r <= Double.of_size (2 ^ 65) / bound)%Q.
Proof.
  intros Hr Hb Hdt.
  destruct (instantaneous_rate_cases ar time allocated) as [[Hle _] | [Hpos Hq]].
  - exfalso. apply (Qlt_irrefl 0%Q). apply Qlt_le_trans with (2 := Hle).
    apply Qlt_trans with bound; assumption.
  - rewrite Hq in Hr. injection Hr as <-.
    set (delta := if allocated >? _last_sample_value ar
                  then SizeT.sub allocated (_last_sample_value ar) else 0).
    assert (Hd : 0 <= delta < 2 ^ 64) by apply allocation_delta_range.
    set (dt := (time - _last_sample_time ar)%Q) in *.
    apply Qle_shift_div_l; [exact Hb |].
    assert (Hq0 : (0 <= Double.of_size delta / dt)%Q).
    { apply Qle_shift_div_l; [exact Hpos |].
      rewrite Qmult_0_l. apply of_size_nonneg. lia. }
    apply Qle_trans with (Double.of_size delta / dt * dt)%Q.
    + rewrite (Qmult_comm _ bound), (Qmult_comm _ dt).
      apply Qmult_le_compat_r; [apply Qlt_le_weak; exact Hdt | exact Hq0].
    + assert (Hne : ~ (dt == 0)%Q)
        by (intro Hz; rewrite Hz in Hpos; apply (Qlt_irrefl _ Hpos)).
      rewrite Qmult_comm, Qmult_div_r by exact Hne.
      unfold Double.of_size. rewrite <- Zle_Qle. lia.
Qed.

Lemma sample_returns (ar : ShenandoahAllocationRate S)
    (now : Q) (allocated : Z) :
  exists r ar',
    sample ar now allocated = Some (r, ar')
    /\ (0 <= r)%Q
    /\ (_rate ar' = _rate ar \/ _rate ar' = seq_add (_rate ar) r).
Proof.
  unfold sample.
  destruct (Double.gtb (now - _last_sample_time ar) (_interval_sec ar)).
  - destruct (allocated >=? _last_sample_value ar).
    + destruct (instantaneous_rate_defined ar now allocated) as [r [Hr Hpos]].
      rewrite Hr. exists r. eexists. split; [reflexivity |].
      split; [exact Hpos | right; reflexivity].
    + exists 0%Q. eexists. split; [reflexivity |].
      split; [apply Qle_refl | left; reflexivity].
  - exists 0%Q, ar. split; [reflexivity |].
    split; [apply Qle_refl | left; reflexivity].
Qed.

(** What [sample] returns is 0, or the rate [instantaneous_rate] computes
    after more than [_interval_sec] with a counter that did not regress. *)
Lemma sample_value (ar : ShenandoahAllocationRate S)
    (now : Q) (allocated : Z) (r : Q) (ar' : ShenandoahAllocationRate S) :
  sample ar now allocated = Some (r, ar') ->
  r = 0%Q
  \/ ((_interval_sec ar < now - _last_sample_time ar)%Q
      /\ _last_sample_value ar <= allocated
      /\ instantaneous_rate ar now allocated = Some r).
Proof.
  unfold sample.
  destruct (Double.gtb (now - _last_sample_time ar) (_interval_sec ar)) eqn:Edt.
  - apply gtb_true_iff in Edt.
    destruct (Z.geb_spec allocated (_last_sample_value ar)) as [Hge | Hlt].
    + destruct (instantaneous_rate ar now allocated) as [rate |] eqn:Hr;
        [| discriminate].
      intro Hs. injection Hs as <- _. right.
      split; [exact Edt |]. split; [lia | reflexivity].
    + intro Hs. injection Hs as <- _. left. reflexivity.
  - intro Hs. injection Hs as <- _. left. reflexivity.
Qed.

(** C10.  [sample] and [instantaneous_rate] always return, and never a
    negative rate.  The rate [instantaneous_rate] computes is 0 when the
    counter has not grown, since the allocation delta is clamped at 0, and
    it is 0 when the elapsed time is not positive, so that the division is
    only evaluated on a positive elapsed time.  The value [sample] returns
    is the only value it can add to [_rate]; it is 0 when the counter has
    not grown and within the sampling interval, and with a positive interval
    it stays below [2^65 / _interval_sec].  On binary64 values, whatever the
    times and the counters are (infinities and NaN included), the rate
    computed is neither negative nor a NaN, and what [sample] returns is
    finite as soon as [_interval_sec] is at least [2^-64], and for the
    interval the constructor computes from any frequency. *)
Theorem sample_total_and_nonnegative (ar : ShenandoahAllocationRate S)
    (now : Q) (allocated : Z) :
  (exists r,
     instantaneous_rate ar now allocated = Some r
     /\ (0 <= r)%Q
     /\ (allocated <= _last_sample_value ar -> (r == 0)%Q)
     /\ ((now - _last_sample_time ar <= 0)%Q -> r = 0%Q))
  /\ (exists r ar',
        sample ar now allocated = Some (r, ar')
        /\ (0 <= r)%Q
        /\ (_rate ar' = _rate ar \/ _rate ar' = seq_add (_rate ar) r)
        /\ (allocated <= _last_sample_value ar -> (r == 0)%Q)
        /\ ((now - _last_sample_time ar <= _interval_sec ar)%Q -> r = 0%Q)
        /\ ((0 < _interval_sec ar)%Q ->
            (r <= Double.of_size (2 ^ 65) / _interval_sec ar)%Q))
  /\ (forall (last_time time : float) (last_value : Z),
        PrimFloat.leb 0
          (Binary64.instantaneous_rate last_time last_value time allocated)
        = true)
  /\ (forall (last_time interval_sec time : float) (last_value : Z),
        PrimFloat.leb Binary64.shortest_interval interval_sec = true ->
        PrimFloat.leb 0
          (Binary64.sample last_time last_value interval_sec time allocated)
        = true
        /\ PrimFloat.ltb
             (Binary64.sample last_time last_value interval_sec time allocated)
             infinity
           = true)
  /\ (forall (last_time time : float) (last_value frequency : Z),
        0 <= frequency < 2 ^ 64 ->
        PrimFloat.leb 0
          (Binary64.sample last_time last_value
             (Binary64.interval_sec frequency) time allocated)
        = true
        /\ PrimFloat.ltb
             (Binary64.sample last_time last_value
                (Binary64.interval_sec frequency) time allocated)
             infinity
           = true).
Proof.
  split; [| split; [| split; [| split]]].
  - destruct (instantaneous_rate_defined ar now allocated) as [r [Hr Hpos]].
    exists r. split; [exact Hr |]. split; [exact Hpos |]. split.
    + apply (instantaneous_rate_clamped ar now allocated r Hr).
    + intro Hle.
      destruct (instantaneous_rate_cases ar now allocated) as [[_ H0] | [Hlt _]].
      * rewrite H0 in Hr. injection Hr as <-. reflexivity.
      * exfalso. apply (Qlt_irrefl 0%Q). apply Qlt_le_trans with (2 := Hle).
        exact Hlt.
  - destruct (sample_returns ar now allocated) as [r [ar' [Hs [Hpos Hadd]]]].
    exists r, ar'. split; [exact Hs |]. split; [exact Hpos |].
    split; [exact Hadd |].
    destruct (sample_value ar now allocated r ar' Hs) as [H0 | [Hdt [Hge Hr]]].
    + subst r. split; [reflexivity |]. split; [reflexivity |].
      intro Hi. apply Qle_shift_div_l; [exact Hi |].
      rewrite Qmult_0_l. apply of_size_nonneg. lia.
    + split; [apply (instantaneous_rate_clamped ar now allocated r Hr) |].
      split.
      * intro Hle. exfalso. apply (Qlt_irrefl (_interval_sec ar)).
        apply Qlt_le_trans with (2 := Hle). exact Hdt.
      * intro Hi. apply (instantaneous_rate_bound ar now allocated r _ Hr Hi Hdt).
  - intros last_time time last_value. apply binary64_instantaneous_rate_nonneg.
  - intros last_time interval_sec time last_value Hint.
    apply binary64_sample_finite. exact Hint.
  - intros last_time time last_value frequency Hf.
    apply binary64_sample_finite_constructed. exact Hf.
Qed.

(** C5.  Within the sampling interval [sample] returns 0 and leaves the
    estimator as it was; after the interval, with a counter that regressed,
    it returns 0, leaves both sequences alone and records the current time
    and counter. *)
Theorem sample_rate_limit_and_regression (ar : ShenandoahAllocationRate S)
    (now : Q) (allocated : Z) :
  ((now - _last_sample_time ar <= _interval_sec ar)%Q ->
     sample ar now allocated = Some (0%Q, ar))
  /\ ((_interval_sec ar < now - _last_sample_time ar)%Q ->
      allocated < _last_sample_value ar ->
      exists ar',
        sample ar now allocated = Some (0%Q, ar')
        /\ _rate ar' = _rate ar
        /\ _rate_avg ar' = _rate_avg ar
        /\ _last_sample_time ar' = now
        /\ _last_sample_value ar' = allocated
        /\ _interval_sec ar' = _interval_sec ar).
Proof.
  split.
  - intro Hle. unfold sample.
    apply gtb_false_iff in Hle. rewrite Hle. reflexivity.
  - intros Hlt Hreg. unfold sample.
    apply gtb_true_iff in Hlt. rewrite Hlt.
    replace (allocated >=? _last_sample_value ar) with false
      by (symmetry; rewrite Z.geb_leb; apply Z.leb_gt; exact Hreg).
    eexists. split; [reflexivity |]. repeat split.
Qed.

End AllocationRateFacts.

(** ** The feedback rules *)

Lemma confidence_ordered : (MINIMUM_CONFIDENCE <= MAXIMUM_CONFIDENCE)%Q.
Proof. unfold MINIMUM_CONFIDENCE, MAXIMUM_CONFIDENCE. lra. Qed.

Lemma saturate_bounds (v lo hi : Q) :
  (lo <= hi)%Q -> (lo <= saturate v lo hi /\ saturate v lo hi <= hi)%Q.
Proof.
  intro Hord. unfold saturate, Double.MAX2, Double.MIN2.
  destruct (Qlt_le_dec v hi); destruct (Qlt_le_dec lo _); split; lra.
Qed.

Lemma saturate_inside (v lo hi : Q) :
  (lo <= v)%Q -> (v <= hi)%Q -> (saturate v lo hi == v)%Q.
Proof.
  intros Hlo Hhi. unfold saturate, Double.MAX2, Double.MIN2.
  destruct (Qlt_le_dec v hi); destruct (Qlt_le_dec lo _); lra.
Qed.

Lemma saturate_compat (v w lo hi : Q) :
  (v == w)%Q -> (saturate v lo hi == saturate w lo hi)%Q.
Proof.
  intro Heq. unfold saturate, Double.MAX2, Double.MIN2.
  destruct (Qlt_le_dec v hi); destruct (Qlt_le_dec w hi);
    repeat match goal with |- context [Qlt_le_dec ?a ?b] =>
      destruct (Qlt_le_dec a b) end; lra.
Qed.

Lemma saturate_in_confidence (v : Q) :
  in_confidence (saturate v MINIMUM_CONFIDENCE MAXIMUM_CONFIDENCE).
Proof. apply saturate_bounds, confidence_ordered. Qed.

Lemma binary64_ltb_leb (x y : float) :
  PrimFloat.ltb x y = true -> PrimFloat.leb x y = true.
Proof.
  rewrite ltb_spec, leb_spec. unfold SFltb, SFleb.
  destruct (SFcompare (Prim2SF x) (Prim2SF y)) as [[| |] |]; congruence.
Qed.

(** On binary64 values the clamp lands in the interval for every argument,
    NaN and the infinities included. *)
Lemma binary64_saturate_in_confidence (v : float) :
  Binary64.in_confidence
    (Binary64.saturate v Binary64.MINIMUM_CONFIDENCE Binary64.MAXIMUM_CONFIDENCE).
Proof.
  unfold Binary64.in_confidence, Binary64.saturate, Binary64.MIN2, Binary64.MAX2.
  destruct (PrimFloat.ltb v Binary64.MAXIMUM_CONFIDENCE) eqn:Ehi.
  - destruct (PrimFloat.ltb Binary64.MINIMUM_CONFIDENCE v) eqn:Elo.
    + split; apply binary64_ltb_leb; assumption.
    + split; vm_compute; reflexivity.
  - split; vm_compute; reflexivity.
Qed.

Section FeedbackFacts.
Context {B S : Type} `{BaseHeuristics B} `{NumberSeq S}.

Local Abbreviation Heur := (ShenandoahAdaptiveHeuristics B S).

Lemma adjust_margin_of_error_confidence (h : Heur) (amount : Q) :
  in_confidence (_margin_of_error_sd (adjust_margin_of_error h amount))
  /\ _spike_threshold_sd (adjust_margin_of_error h amount) = _spike_threshold_sd h.
Proof. split; [apply saturate_in_confidence | reflexivity]. Qed.

Lemma adjust_spike_threshold_confidence (h : Heur) (amount : Q) :
  in_confidence (_spike_threshold_sd (adjust_spike_threshold h amount))
  /\ _margin_of_error_sd (adjust_spike_threshold h amount) = _margin_of_error_sd h.
Proof. split; [apply saturate_in_confidence | reflexivity]. Qed.

Lemma adjust_last_trigger_parameters_confidence (h : Heur) (amount : Q) :
  parameters_in_confidence h ->
  parameters_in_confidence (adjust_last_trigger_parameters h amount).
Proof.
  intros [Hm Hs]. unfold adjust_last_trigger_parameters.
  destruct (_last_trigger h).
  - split; [exact Hm | apply saturate_in_confidence].
  - split; [apply saturate_in_confidence | exact Hs].
  - split; assumption.
Qed.

Lemma record_outcome_confidence (h : Heur) (o : Outcome) :
  parameters_in_confidence h -> parameters_in_confidence (record_outcome h o).
Proof.
  intro Hin. destruct o as [c abbreviated | |]; simpl.
  - unfold record_success_concurrent.
    match goal with |- context [if ?b then _ else _] => destruct b end.
    + apply adjust_last_trigger_parameters_confidence. exact Hin.
    + exact Hin.
  - split; apply saturate_in_confidence.
  - split; apply saturate_in_confidence.
Qed.

Lemma record_outcomes_confidence (os : list Outcome) (h : Heur) :
  parameters_in_confidence h -> parameters_in_confidence (record_outcomes h os).
Proof.
  revert h. induction os as [| o os IH]; intros h Hin; simpl.
  - exact Hin.
  - apply IH, record_outcome_confidence, Hin.
Qed.

(** C4.  Whatever the amount, [adjust_margin_of_error] leaves the margin of
    error in [0.319, 3.291] and [adjust_spike_threshold] leaves the spike
    threshold there, on rationals and on binary64 values alike; and when both
    parameters start in the interval they are both in it after either
    adjustment and after any sequence of concurrent, degenerated and full
    outcomes. *)
Theorem confidence_saturation (h : Heur) :
  (forall amount,
      in_confidence (_margin_of_error_sd (adjust_margin_of_error h amount)))
  /\ (forall amount,
         in_confidence (_spike_threshold_sd (adjust_spike_threshold h amount)))
  /\ (forall value amount : float,
         Binary64.in_confidence (Binary64.adjust_margin_of_error value amount)
         /\ Binary64.in_confidence (Binary64.adjust_spike_threshold value amount))
  /\ (parameters_in_confidence h ->
      forall amount os,
        parameters_in_confidence (adjust_margin_of_error h amount)
        /\ parameters_in_confidence (adjust_spike_threshold h amount)
        /\ parameters_in_confidence (record_outcomes h os)).
Proof.
  split; [| split; [| split]].
  - intro amount. apply adjust_margin_of_error_confidence.
  - intro amount. apply adjust_spike_threshold_confidence.
  - intros value amount. split; apply binary64_saturate_in_confidence.
  - intros [Hm Hs] amount os. split; [| split].
    + split; [apply saturate_in_confidence | exact Hs].
    + split; [exact Hm | apply saturate_in_confidence].
    + apply record_outcomes_confidence. split; assumption.
Qed.

(** C8.  A degenerated cycle moves the margin of error up by 0.1 and the
    spike threshold down by 0.1, a full cycle by 0.2, each clamped to
    [0.319, 3.291]; from a margin of 1.00 and a threshold of 2.00 a full
    cycle gives 1.20 and 1.80, on rationals and, as the nearest binary64
    values, in binary64 arithmetic. *)
Theorem degenerated_and_full_penalties (h : Heur) :
  (_margin_of_error_sd (record_success_degenerated h)
     = saturate (_margin_of_error_sd h + (1 # 10)) (319 # 1000) (3291 # 1000)
   /\ _spike_threshold_sd (record_success_degenerated h)
     = saturate (_spike_threshold_sd h - (1 # 10)) (319 # 1000) (3291 # 1000))
  /\ (_margin_of_error_sd (record_success_full h)
        = saturate (_margin_of_error_sd h + (2 # 10)) (319 # 1000) (3291 # 1000)
      /\ _spike_threshold_sd (record_success_full h)
        = saturate (_spike_threshold_sd h - (2 # 10)) (319 # 1000) (3291 # 1000))
  /\ ((_margin_of_error_sd h == 1)%Q -> (_spike_threshold_sd h == 2)%Q ->
      (_margin_of_error_sd (record_success_full h) == 120 # 100)%Q
      /\ (_spike_threshold_sd (record_success_full h) == 180 # 100)%Q)
  /\ (PrimFloat.eqb
        (Binary64.adjust_margin_of_error 1%float Binary64.FULL_PENALTY_SD)
        (120 / 100)%float = true
      /\ PrimFloat.eqb
           (Binary64.adjust_spike_threshold 2%float Binary64.FULL_PENALTY_SD)
           (180 / 100)%float = true).
Proof.
  split; [split; reflexivity |]. split; [split; reflexivity |].
  split; [| split; vm_compute; reflexivity].
  intros Hm Hs. simpl.
  unfold FULL_PENALTY_SD, MINIMUM_CONFIDENCE, MAXIMUM_CONFIDENCE.
  split.
  - rewrite saturate_inside; lra.
  - rewrite saturate_inside; lra.
Qed.

End FeedbackFacts.

Lemma size_MIN2_min (a b : Z) : SizeT.MIN2 a b = Z.min a b.
Proof. unfold SizeT.MIN2. destruct (Z.ltb_spec a b); lia. Qed.

Section ConcurrentFacts.
Context {B S : Type} `{BaseHeuristics B} `{NumberSeq S}.

Local Abbreviation Heur := (ShenandoahAdaptiveHeuristics B S).

Lemma beyond_expected_test (z : Q) :
  Double.ltb z LOWEST_EXPECTED_AVAILABLE_AT_END
  || Double.gtb z HIGHEST_EXPECTED_AVAILABLE_AT_END = true
  <-> beyond_expected z.
Proof.
  unfold beyond_expected. rewrite orb_true_iff, ltb_true_iff, gtb_true_iff.
  reflexivity.
Qed.

(** C3 (as amended).  [record_success_concurrent] takes the smaller of the
    generation's and the free set's available bytes, computes its z-score
    against the history as it stands before the push, pushes it, and
    adjusts by [-z/100] exactly when [z < -0.5] or [z > 0.5]: the margin of
    error when the last trigger was RATE, the spike threshold when it was
    SPIKE, nothing when it was OTHER. *)
Theorem record_success_concurrent_feedback (h : Heur) (c : Collab)
    (abbreviated : bool) :
  let avail := Z.min (gen_available c) (free_set_available c) in
  let z := z_score_of (_available h) avail in
  let h' := record_success_concurrent h c abbreviated in
  _available h' = seq_add (_available h) (Double.of_size avail)
  /\ _last_trigger h' = _last_trigger h
  /\ (beyond_expected z ->
      match _last_trigger h with
      | RATE =>
          (_margin_of_error_sd h'
           == saturate (_margin_of_error_sd h + - z / (100 # 1))
                (319 # 1000) (3291 # 1000))%Q
          /\ _spike_threshold_sd h' = _spike_threshold_sd h
      | SPIKE =>
          (_spike_threshold_sd h'
           == saturate (_spike_threshold_sd h - - z / (100 # 1))
                (319 # 1000) (3291 # 1000))%Q
          /\ _margin_of_error_sd h' = _margin_of_error_sd h
      | OTHER =>
          _margin_of_error_sd h' = _margin_of_error_sd h
          /\ _spike_threshold_sd h' = _spike_threshold_sd h
      end)
  /\ (~ beyond_expected z ->
      _margin_of_error_sd h' = _margin_of_error_sd h
      /\ _spike_threshold_sd h' = _spike_threshold_sd h).
Proof.
  intros avail z h'.
  assert (Hflip : forall q : Q, (q / - (100 # 1) == - q / (100 # 1))%Q).
  { intro q. field. }
  subst h'. unfold record_success_concurrent.
  rewrite size_MIN2_min. fold avail.
  destruct h as [b m s t a ar].
  cbn [_available set_base set_available base _last_trigger
       _margin_of_error_sd _spike_threshold_sd] in *.
  change (if Double.gtb (seq_sd a) 0
          then (Double.of_size avail - seq_avg a) / seq_sd a
          else 0)%Q with z.
  destruct (Double.ltb z LOWEST_EXPECTED_AVAILABLE_AT_END
            || Double.gtb z HIGHEST_EXPECTED_AVAILABLE_AT_END) eqn:E.
  - apply beyond_expected_test in E.
    destruct t; cbn; (split; [reflexivity |]); (split; [reflexivity |]);
      (split; [intros _ | intro Hn; contradiction]).
    + split; [| reflexivity].
      apply saturate_compat. rewrite (Hflip z). reflexivity.
    + split; [| reflexivity].
      apply saturate_compat. rewrite (Hflip z). reflexivity.
    + split; reflexivity.
  - assert (Hn : ~ beyond_expected z).
    { intro Hb. apply beyond_expected_test in Hb. congruence. }
    cbn. split; [reflexivity |]. split; [reflexivity |].
    split; [intro Hb; contradiction | intros _; split; reflexivity].
Qed.

End ConcurrentFacts.

(** ** The trigger decision *)

Section TriggerFacts.
Context {B S : Type} `{BaseHeuristics B} `{NumberSeq S}.

Local Abbreviation Heur := (ShenandoahAdaptiveHeuristics B S).

Lemma sample_defined (ar : ShenandoahAllocationRate S) (now : Q) (allocated : Z) :
  exists r ar', sample ar now allocated = Some (r, ar').
Proof.
  destruct (sample_returns ar now allocated) as [r [ar' [Hs _]]].
  exists r, ar'. exact Hs.
Qed.

(** C2.  For a generation that is not old, when the bytes available to the
    mutator are below [min_free_threshold], [should_start_gc] returns true
    and leaves [_last_trigger] at OTHER, whatever the estimator, the
    parameters and the learning counter hold. *)
Theorem min_free_threshold_trigger (fl : Flags) (h : Heur) (c : Collab) :
  gen_is_old c = false ->
  mutator_available c < min_free_threshold fl c ->
  exists h',
    should_start_gc fl h c = Some (true, h') /\ _last_trigger h' = OTHER.
Proof.
  intros Hold Hlow. unfold should_start_gc.
  destruct (sample_defined (_allocation_rate h) (elapsedTime c)
              (gen_bytes_allocated_since_gc_start c)) as [rate [ar Hs]].
  rewrite Hs, Hold. cbn [negb].
  fold (mutator_available c).
  apply Z.ltb_lt in Hlow. rewrite Hlow.
  eexists. split; reflexivity.
Qed.

(** C9 (as amended).  For a generation that is not old, past the
    minimum-free trigger and while fewer than [ShenandoahLearningSteps]
    cycles were learned: below [(capacity / 100) * InitFreeThreshold], the
    integer division taken first, [should_start_gc] returns true with
    [_last_trigger] at OTHER; at or above it the learning step does not fire
    and the call decides as it does once learning is over.  For 1,024 MiB and
    70 the threshold is 751,619,260 bytes, which is less than 716.8 MiB. *)
Theorem learning_trigger (fl : Flags) (h : Heur) (c : Collab) :
  gen_is_old c = false ->
  min_free_threshold fl c <= mutator_available c ->
  gc_times_learned (base h) < ShenandoahLearningSteps fl ->
  (mutator_available c < learning_threshold fl c ->
   exists h',
     should_start_gc fl h c = Some (true, h') /\ _last_trigger h' = OTHER)
  /\ (learning_threshold fl c <= mutator_available c ->
      should_start_gc fl h c
      = should_start_gc (with_learning_steps fl (gc_times_learned (base h))) h c)
  /\ (gen_soft_max_capacity c = 1024 * MiB ->
      ShenandoahInitFreeThreshold fl = 70 ->
      learning_threshold fl c = 751619260
      /\ 100 * learning_threshold fl c < 1024 * MiB * 70).
Proof.
  intros Hold Hmin Hlearn.
  destruct (sample_defined (_allocation_rate h) (elapsedTime c)
              (gen_bytes_allocated_since_gc_start c)) as [rate [ar Hs]].
  apply Z.ltb_ge in Hmin.
  split; [| split].
  - intro Hlow. unfold should_start_gc.
    rewrite Hs, Hold. cbn [negb].
    fold (mutator_available c). fold (learning_threshold fl c).
    unfold min_free_threshold in *. cbn [base set_last_trigger set_allocation_rate].
    rewrite Hmin.
    apply Z.ltb_lt in Hlow, Hlearn. rewrite Hlow, Hlearn. cbn [andb].
    eexists. split; reflexivity.
  - intro Hhigh. unfold should_start_gc.
    rewrite Hs, Hold. cbn [negb].
    fold (mutator_available c).
    change (SizeT.mul (gen_soft_max_capacity c / 100)
              (ShenandoahInitFreeThreshold
                 (with_learning_steps fl (gc_times_learned (base h)))))
      with (learning_threshold fl c).
    fold (learning_threshold fl c).
    unfold min_free_threshold in *.
    cbn [base set_last_trigger set_allocation_rate with_learning_steps
         ShenandoahMinFreeThreshold ShenandoahLearningSteps
         ShenandoahAllocSpikeFactor].
    rewrite Hmin.
    apply Z.ltb_ge in Hhigh. rewrite Hhigh.
    rewrite Z.ltb_irrefl, !andb_false_r. reflexivity.
  - intros Hcap Hinit. unfold learning_threshold.
    rewrite Hcap, Hinit. vm_compute. split; reflexivity.
Qed.

End TriggerFacts.

(** ** The runway estimator *)

Lemma to_size_floor (q : Q) : (0 <= q)%Q -> Double.to_size q = Qfloor q.
Proof.
  destruct q as [n d]. unfold Qle, Double.to_size, Qfloor. cbn.
  intro Hn. apply Z.quot_div_nonneg; lia.
Qed.

Lemma to_size_nonneg (q : Q) : (0 <= q)%Q -> 0 <= Double.to_size q.
Proof.
  intro Hq. rewrite to_size_floor by exact Hq.
  change 0 with (Qfloor 0). apply Qfloor_resp_le. exact Hq.
Qed.

Lemma to_size_monotone (p q : Q) :
  (0 <= p)%Q -> (p <= q)%Q -> Double.to_size p <= Double.to_size q.
Proof.
  intros Hp Hpq. rewrite !to_size_floor by lra.
  apply Qfloor_resp_le. exact Hpq.
Qed.

Lemma to_size_opp (q : Q) : Double.to_size (- q) = - Double.to_size q.
Proof.
  destruct q as [n d]. unfold Double.to_size. cbn.
  apply Z.quot_opp_l. discriminate.
Qed.

Lemma to_size_compat (p q : Q) : (p == q)%Q -> Double.to_size p = Double.to_size q.
Proof.
  intro Heq. destruct (Qlt_le_dec p 0) as [Hneg | Hpos].
  - assert (Hopp : Double.to_size (- p) = Double.to_size (- q)).
    { rewrite !to_size_floor by lra.
      apply Qfloor_comp. rewrite Heq. reflexivity. }
    rewrite !to_size_opp in Hopp. lia.
  - rewrite !to_size_floor by lra. apply Qfloor_comp. exact Heq.
Qed.

Lemma of_size_monotone (a b : Z) : a <= b -> (Double.of_size a <= Double.of_size b)%Q.
Proof. intro Hab. unfold Double.of_size. rewrite <- Zle_Qle. exact Hab. Qed.

Lemma evac_slack_nonneg (a : Z) (b : Q) : 0 <= evac_slack a b.
Proof.
  unfold evac_slack. destruct (Double.gtb (Double.of_size a) b) eqn:E.
  - apply gtb_true_iff in E. apply to_size_nonneg. lra.
  - lia.
Qed.

Lemma evac_slack_monotone (a1 a2 : Z) (b : Q) :
  a1 <= a2 -> evac_slack a1 b <= evac_slack a2 b.
Proof.
  intro Ha. apply of_size_monotone in Ha. unfold evac_slack at 1.
  destruct (Double.gtb (Double.of_size a1) b) eqn:E1.
  - apply gtb_true_iff in E1. unfold evac_slack.
    replace (Double.gtb (Double.of_size a2) b) with true
      by (symmetry; apply gtb_true_iff; lra).
    apply to_size_monotone; lra.
  - apply evac_slack_nonneg.
Qed.

Lemma evac_slack_antitone (a : Z) (b1 b2 : Q) :
  (b1 <= b2)%Q -> evac_slack a b2 <= evac_slack a b1.
Proof.
  intro Hb. unfold evac_slack at 1.
  destruct (Double.gtb (Double.of_size a) b2) eqn:E2.
  - apply gtb_true_iff in E2. unfold evac_slack.
    replace (Double.gtb (Double.of_size a) b1) with true
      by (symmetry; apply gtb_true_iff; lra).
    apply to_size_monotone; lra.
  - apply evac_slack_nonneg.
Qed.

Lemma size_MIN3_min (a b c : Z) : SizeT.MIN3 a b c = Z.min (Z.min a b) c.
Proof. unfold SizeT.MIN3. rewrite !size_MIN2_min. reflexivity. Qed.

Lemma runway_of_terms_monotone (a1 a2 p s t : Z) (act aar rate : Q) (sp : bool) :
  0 <= t -> a1 <= a2 -> a2 < SizeT.modulus ->
  runway_of_terms a1 p s t act aar rate sp
  <= runway_of_terms a2 p s t act aar rate sp.
Proof.
  intros Ht Ha Hhi. unfold runway_of_terms. rewrite !size_MIN3_min.
  assert (Hmin : (if a1 >? t then SizeT.sub a1 t else 0)
                 <= (if a2 >? t then SizeT.sub a2 t else 0)).
  { unfold SizeT.sub.
    destruct (Z.gtb_spec a1 t); destruct (Z.gtb_spec a2 t); try lia.
    - rewrite !wrap_small by lia. lia.
    - apply wrap_nonneg. }
  pose proof (evac_slack_monotone a1 a2
                (act * aar + Double.of_size p + Double.of_size s) Ha).
  pose proof (evac_slack_monotone a1 a2
                (act * rate + Double.of_size p + Double.of_size s) Ha).
  destruct sp; lia.
Qed.

Lemma runway_of_terms_antitone (a p1 p2 s1 s2 t : Z) (act aar rate : Q)
    (sp : bool) :
  p1 <= p2 -> s1 <= s2 ->
  runway_of_terms a p2 s2 t act aar rate sp
  <= runway_of_terms a p1 s1 t act aar rate sp.
Proof.
  intros Hp Hs. unfold runway_of_terms. rewrite !size_MIN3_min.
  apply of_size_monotone in Hp, Hs.
  assert (H1 : evac_slack a (act * aar + Double.of_size p2 + Double.of_size s2)
               <= evac_slack a (act * aar + Double.of_size p1 + Double.of_size s1))
    by (apply evac_slack_antitone; lra).
  assert (H2 : evac_slack a (act * rate + Double.of_size p2 + Double.of_size s2)
               <= evac_slack a (act * rate + Double.of_size p1 + Double.of_size s1))
    by (apply evac_slack_antitone; lra).
  destruct sp; lia.
Qed.

Section RunwayFacts.
Context {B S : Type} `{BaseHeuristics B} `{NumberSeq S}.

Local Abbreviation Heur := (ShenandoahAdaptiveHeuristics B S).

Lemma runway_unfold (fl : Flags) (h : Heur) (c : Collab) (y : Z) :
  bytes_of_allocation_runway_before_gc_trigger fl h c y
  = match sample (_allocation_rate h) (elapsedTime c)
            (gen_bytes_allocated_since_gc_start c) with
    | None => None
    | Some (rate, ar) =>
        Some (runway_of_terms (anticipated_available fl c y)
                (penalties_term h c) (spike_headroom_term fl c)
                (min_free_threshold fl c)
                (gc_cycle_time_davg (base h)
                 + _margin_of_error_sd h * gc_cycle_time_dsd (base h))%Q
                (upper_bound ar (_margin_of_error_sd h)) rate
                (is_spiking ar rate (_spike_threshold_sd h)),
              set_allocation_rate h ar)
    end.
Proof.
  unfold bytes_of_allocation_runway_before_gc_trigger.
  destruct (sample (_allocation_rate h) (elapsedTime c)
              (gen_bytes_allocated_since_gc_start c)) as [[rate ar] |];
    reflexivity.
Qed.

Lemma runway_available_range (c : Collab) :
  0 <= runway_available c < SizeT.modulus.
Proof.
  unfold runway_available.
  destruct (gen_soft_max_capacity c >? gen_used c).
  - unfold SizeT.sub, SizeT.wrap. apply Z.mod_pos_bound. reflexivity.
  - split; [lia | reflexivity].
Qed.

Lemma anticipated_available_exact (fl : Flags) (c : Collab) (y : Z) :
  0 <= y * region_size_bytes fl ->
  young_available_bytes_collected c
    <= runway_available c + y * region_size_bytes fl ->
  0 <= young_available_bytes_collected c ->
  runway_available c + y * region_size_bytes fl < SizeT.modulus ->
  anticipated_available fl c y
  = runway_available c + y * region_size_bytes fl
    - young_available_bytes_collected c.
Proof.
  intros Hy Hlo Hc Hhi. pose proof (runway_available_range c) as Hr.
  unfold anticipated_available, SizeT.sub, SizeT.add, SizeT.mul.
  rewrite (wrap_small (y * _)) by lia.
  rewrite (wrap_small (_ + _)) by lia.
  apply wrap_small. lia.
Qed.

Lemma min_free_threshold_nonneg (fl : Flags) (c : Collab) :
  0 <= min_free_threshold fl c.
Proof.
  unfold min_free_threshold, SizeT.mul.
  apply Z.div_pos; [apply wrap_nonneg | lia].
Qed.

(** C6 (as amended).  With everything else held fixed: when
    [available + y * region_size - available_young_collected] stays within
    [size_t] for both values of [y], a larger [young_regions_to_be_reclaimed]
    never gives a smaller runway; and a larger penalties term, or a larger
    spike-headroom term, never gives a larger runway.  The estimate always
    returns. *)
Theorem runway_monotonicity (fl : Flags) (h : Heur) (c : Collab) :
  (forall y1 y2,
      0 <= region_size_bytes fl -> 0 <= y1 <= y2 ->
      0 <= young_available_bytes_collected c
        <= runway_available c + y1 * region_size_bytes fl ->
      runway_available c + y2 * region_size_bytes fl < SizeT.modulus ->
      exists r1 r2,
        runway fl h c y1 = Some r1 /\ runway fl h c y2 = Some r2 /\ r1 <= r2)
  /\ (forall h2 y,
         same_but_penalties h h2 ->
         penalties_term h c <= penalties_term h2 c ->
         exists r r2,
           runway fl h c y = Some r /\ runway fl h2 c y = Some r2 /\ r2 <= r)
  /\ (forall n y,
         spike_headroom_term fl c
           <= spike_headroom_term (with_alloc_spike_factor fl n) c ->
         exists r r2,
           runway fl h c y = Some r
           /\ runway (with_alloc_spike_factor fl n) h c y = Some r2
           /\ r2 <= r).
Proof.
  destruct (sample_defined (_allocation_rate h) (elapsedTime c)
              (gen_bytes_allocated_since_gc_start c)) as [rate [ar Hs]].
  split; [| split].
  - intros y1 y2 Hrs Hy Hc Hhi.
    unfold runway. rewrite !runway_unfold, Hs. cbn [option_map fst].
    do 2 eexists. split; [reflexivity |]. split; [reflexivity |].
    assert (Hmul : y1 * region_size_bytes fl <= y2 * region_size_bytes fl)
      by (apply Z.mul_le_mono_nonneg_r; lia).
    assert (H0y1 : 0 <= y1 * region_size_bytes fl) by (apply Z.mul_nonneg_nonneg; lia).
    rewrite !anticipated_available_exact by lia.
    apply runway_of_terms_monotone.
    + apply min_free_threshold_nonneg.
    + lia.
    + lia.
  - intros h2 y [Hm [Hsp [Har [Hda Hds]]]] Hp.
    unfold runway. rewrite !runway_unfold.
    rewrite <- Har, <- Hm, <- Hsp, <- Hda, <- Hds, Hs. cbn [option_map fst].
    do 2 eexists. split; [reflexivity |]. split; [reflexivity |].
    apply runway_of_terms_antitone; [exact Hp | lia].
  - intros n y Hsp.
    unfold runway. rewrite !runway_unfold, Hs. cbn [option_map fst].
    do 2 eexists. split; [reflexivity |]. split; [reflexivity |].
    change (anticipated_available (with_alloc_spike_factor fl n) c y)
      with (anticipated_available fl c y).
    change (min_free_threshold (with_alloc_spike_factor fl n) c)
      with (min_free_threshold fl c).
    apply runway_of_terms_antitone; [lia | exact Hsp].
Qed.

End RunwayFacts.

(** ** The collection-set chooser *)

Lemma insert_by_garbage_perm (d : RegionData) (l : list RegionData) :
  Permutation (d :: l) (insert_by_garbage d l).
Proof.
  induction l as [| e rest IH]; simpl.
  - apply Permutation_refl.
  - destruct (_garbage e <=? _garbage d).
    + apply Permutation_refl.
    + apply perm_trans with (e :: d :: rest).
      * apply perm_swap.
      * apply perm_skip. exact IH.
Qed.

Lemma sort_by_garbage_perm (data : list RegionData) :
  Permutation data (sort_by_garbage data).
Proof.
  induction data as [| d rest IH]; simpl.
  - apply perm_nil.
  - apply perm_trans with (d :: sort_by_garbage rest).
    + apply perm_skip. exact IH.
    + apply insert_by_garbage_perm.
Qed.

Lemma insert_by_garbage_sorted (d : RegionData) (l : list RegionData) :
  garbage_descending l -> garbage_descending (insert_by_garbage d l).
Proof.
  unfold garbage_descending.
  induction l as [| e rest IH]; intro Hs; simpl.
  - constructor; constructor.
  - inversion Hs as [| ? ? Hrest Hall]; subst.
    destruct (Z.leb_spec (_garbage e) (_garbage d)) as [Hle | Hgt].
    + constructor; [exact Hs |].
      constructor; [exact Hle |].
      rewrite Forall_forall in Hall |- *. intros x Hx.
      specialize (Hall x Hx). lia.
    + constructor; [apply IH; exact Hrest |].
      rewrite Forall_forall in Hall |- *. intros x Hx.
      apply (Permutation_in _ (Permutation_sym (insert_by_garbage_perm d rest)))
        in Hx.
      destruct Hx as [Heq | Hin].
      * subst x. lia.
      * apply Hall. exact Hin.
Qed.

Lemma sort_by_garbage_sorted (data : list RegionData) :
  garbage_descending (sort_by_garbage data).
Proof.
  induction data as [| d rest IH]; simpl.
  - constructor.
  - apply insert_by_garbage_sorted. exact IH.
Qed.

Section ChooserFacts.
Variable fl : Flags.

Lemma nongen_loop_walk (max_cset min_garbage : Z) (data : list RegionData) :
  forall cur_cset cur_garbage cset,
  exists added,
    nongen_loop fl max_cset min_garbage data cur_cset cur_garbage cset
    = (fold_left SizeT.add (map get_live_data_bytes added) cur_cset,
       fold_left SizeT.add (map garbage added) cur_garbage,
       mkCSet (is_preselected cset) (cset_regions cset ++ added))
    /\ selection_walk max_cset
         (adds_below_target min_garbage (garbage_threshold fl))
         cur_cset cur_garbage data added.
Proof.
  induction data as [| d rest IH]; intros cc cg cset.
  - exists []. split; [| constructor].
    simpl. rewrite app_nil_r. destruct cset; reflexivity.
  - cbn [nongen_loop].
    destruct (Z.gtb_spec (SizeT.add cc (get_live_data_bytes (_region d))) max_cset)
      as [Hbrk | Hfit].
    + exists []. split; [| constructor; lia].
      simpl. rewrite app_nil_r. destruct cset; reflexivity.
    + fold (adds_below_target min_garbage (garbage_threshold fl) cg (_region d)).
      destruct (adds_below_target min_garbage (garbage_threshold fl) cg (_region d))
        eqn:Hadd.
      * destruct (IH (SizeT.add cc (get_live_data_bytes (_region d)))
                     (SizeT.add cg (garbage (_region d)))
                     (add_region (_region d) cset)) as [added [Heq Hwalk]].
        exists (_region d :: added). split.
        -- rewrite Heq. cbn. rewrite <- app_assoc. reflexivity.
        -- apply walk_add; assumption.
      * destruct (IH cc cg cset) as [added [Heq Hwalk]].
        exists added. split; [exact Heq |].
        apply walk_skip; assumption.
Qed.

Lemma selection_walk_functional (max_cset : Z) adds cc cg data l1 l2 :
  selection_walk max_cset adds cc cg data l1 ->
  selection_walk max_cset adds cc cg data l2 ->
  l1 = l2.
Proof.
  intro W1. revert l2.
  induction W1 as [cc cg | cc cg d rest Hb | cc cg d rest added Hf Ha W IH
                   | cc cg d rest added Hf Ha W IH];
    intros l2 W2; inversion W2; subst; try reflexivity; try lia; try congruence.
  - f_equal. apply IH. assumption.
  - apply IH. assumption.
Qed.

Lemma min_garbage_of_max (free_target actual_free : Z) :
  0 <= actual_free -> free_target < SizeT.modulus ->
  min_garbage_of free_target actual_free = Z.max 0 (free_target - actual_free).
Proof.
  intros Haf Hft. unfold min_garbage_of, SizeT.sub.
  destruct (Z.gtb_spec free_target actual_free).
  - rewrite wrap_small by lia. lia.
  - lia.
Qed.

Lemma wrap_range (z : Z) : 0 <= SizeT.wrap z < SizeT.modulus.
Proof. unfold SizeT.wrap. apply Z.mod_pos_bound. reflexivity. Qed.

Lemma keyed_descending (l : list RegionData) :
  keyed_by_garbage l -> garbage_descending l -> region_garbage_descending l.
Proof.
  unfold keyed_by_garbage, garbage_descending, region_garbage_descending.
  intros Hkey Hs. induction Hs as [| a l Hs IH Hall].
  - constructor.
  - inversion Hkey as [| ? ? Ha Hl]; subst.
    constructor; [apply IH; exact Hl |].
    rewrite Forall_forall in Hall, Hl |- *. intros x Hx.
    rewrite <- (Hl x Hx), <- Ha. apply Hall. exact Hx.
Qed.

(** C1 (as amended).  In non-generational mode the chooser walks the array
    sorted by the entries' sort key, descending, which is the order of the
    regions' [garbage()] when every entry is keyed by the garbage of its
    region; it stops for good at the first region whose live bytes do not
    fit under [max_cset], and it adds a region that fits if and only if the
    garbage accumulated with that region is below [min_garbage] or the
    region's garbage exceeds the threshold.  The running sums are those of
    the regions added.  [max_cset] is the binary64 value of
    [(1.0 * capacity / 100 * ShenandoahEvacReserve) / ShenandoahEvacWaste],
    truncated: for a capacity of 368050176 bytes, a reserve of 5 and a waste
    of 1.2 it is 15335423, one less than the truncated exact quotient and
    than [capacity * ShenandoahEvacReserve / 100 / ShenandoahEvacWaste]
    evaluated in binary64 in that order.
    [free_target] and [min_garbage] are as the spec gives them. *)
Theorem nongenerational_selection (c : Collab) (cset : ShenandoahCollectionSet)
    (data : list RegionData) (actual_free : Z) :
  mode_is_generational c = false ->
  let sorted := sort_by_garbage data in
  let max_cset := nongen_max_cset fl c in
  let free_target := nongen_free_target fl c in
  let min_garbage := min_garbage_of free_target actual_free in
  (Permutation data sorted /\ garbage_descending sorted
   /\ (keyed_by_garbage data -> region_garbage_descending sorted))
  /\ (exists added,
        cset_regions (choose_collection_set_from_regiondata fl c cset data actual_free)
        = cset_regions cset ++ added
        /\ selection_walk max_cset
             (adds_below_target min_garbage (garbage_threshold fl))
             0 0 sorted added
        /\ fst (nongen_loop fl max_cset min_garbage sorted 0 0 cset)
           = (SizeT.sum (map get_live_data_bytes added),
              SizeT.sum (map garbage added)))
  /\ (max_cset
      = Binary64.to_size
          ((1 * Binary64.of_size (heap_max_capacity c) / 100
            * Binary64.of_size (ShenandoahEvacReserve fl))
           / Binary64.of_flag (ShenandoahEvacWaste fl))%float
      /\ (heap_max_capacity c = 368050176 ->
          ShenandoahEvacReserve fl = 5 ->
          ShenandoahEvacWaste fl = (12 # 10)%Q ->
          max_cset = 15335423
          /\ Double.to_size
               (Double.of_size (heap_max_capacity c)
                * Double.of_size (ShenandoahEvacReserve fl) / (100 # 1)
                / ShenandoahEvacWaste fl)%Q
             = 15335424
          /\ Binary64.to_size
               (Binary64.of_size (heap_max_capacity c)
                * Binary64.of_size (ShenandoahEvacReserve fl) / 100
                / Binary64.of_flag (ShenandoahEvacWaste fl))%float
             = 15335424))
  /\ free_target
     = SizeT.add
         (SizeT.mul (heap_max_capacity c) (ShenandoahMinFreeThreshold fl) / 100)
         max_cset
  /\ (0 <= actual_free -> min_garbage = Z.max 0 (free_target - actual_free)).
Proof.
  intros Hmode sorted max_cset free_target min_garbage.
  split.
  { split; [apply sort_by_garbage_perm |].
    split; [apply sort_by_garbage_sorted |].
    intro Hkey. apply keyed_descending; [| apply sort_by_garbage_sorted].
    unfold keyed_by_garbage.
    apply (Permutation_Forall (sort_by_garbage_perm data)). exact Hkey. }
  split.
  - destruct (nongen_loop_walk max_cset min_garbage sorted 0 0 cset)
      as [added [Heq Hwalk]].
    exists added. unfold choose_collection_set_from_regiondata.
    rewrite Hmode. fold sorted. fold max_cset. fold free_target.
    fold min_garbage. rewrite Heq. cbn [snd fst cset_regions].
    split; [reflexivity |]. split; [exact Hwalk | reflexivity].
  - split; [| split].
    + split; [reflexivity |].
      intros Hcap Hres Hwaste. subst max_cset. unfold nongen_max_cset.
      rewrite Hcap, Hres, Hwaste. repeat split; vm_compute; reflexivity.
    + reflexivity.
    + intro Haf. apply min_garbage_of_max; [exact Haf |].
      subst free_target. unfold nongen_free_target, SizeT.add.
      apply wrap_range.
Qed.

End ChooserFacts.

Section GenerationalFacts.
Variable fl : Flags.

Lemma preselected_loop_spec (data : list RegionData) :
  forall cur_young_garbage cset,
    preselected_loop data cur_young_garbage cset
    = (fold_left SizeT.add (map garbage (preselected_regions cset data))
         cur_young_garbage,
       mkCSet (is_preselected cset)
         (cset_regions cset ++ preselected_regions cset data)).
Proof.
  induction data as [| d rest IH]; intros cyg cset.
  - cbn. rewrite app_nil_r. destruct cset; reflexivity.
  - cbn [preselected_loop]. unfold preselected_regions. cbn [map filter].
    destruct (is_preselected cset (index (_region d))) eqn:Hp.
    + rewrite IH. cbn. rewrite <- app_assoc. reflexivity.
    + apply IH.
Qed.

Lemma second_pass_ok_tail global presel d rest r :
  second_pass_ok fl global presel rest r ->
  second_pass_ok fl global presel (d :: rest) r.
Proof.
  intros [Hin Hrest]. split; [right; exact Hin | exact Hrest].
Qed.

Lemma young_loop_spec (max_cset min_garbage : Z) (data : list RegionData) :
  forall cur_cset cur_young_garbage cset,
  exists second,
    young_loop fl max_cset min_garbage data cur_cset cur_young_garbage cset
    = mkCSet (is_preselected cset) (cset_regions cset ++ second)
    /\ Forall (second_pass_ok fl false (is_preselected cset) data) second.
Proof.
  induction data as [| d rest IH]; intros cc cyg cset.
  - exists []. split; [| constructor].
    cbn. rewrite app_nil_r. destruct cset; reflexivity.
  - cbn [young_loop].
    assert (Hskip : forall cc' cyg', exists second,
      young_loop fl max_cset min_garbage rest cc' cyg' cset
      = mkCSet (is_preselected cset) (cset_regions cset ++ second)
      /\ Forall (second_pass_ok fl false (is_preselected cset) (d :: rest)) second).
    { intros cc' cyg'. destruct (IH cc' cyg' cset) as [second [Heq Hall]].
      exists second. split; [exact Heq |].
      eapply Forall_impl; [| exact Hall].
      intros r Hr. apply second_pass_ok_tail. exact Hr. }
    destruct (is_preselected cset (index (_region d))) eqn:Hp; [apply Hskip |].
    destruct (Z.ltb_spec (age (_region d)) (InitialTenuringThreshold fl))
      as [Hage | Hage]; [| apply Hskip].
    match goal with |- context [if ?b then _ else _] => destruct b end;
      [| apply Hskip].
    destruct (IH (SizeT.add cc (get_live_data_bytes (_region d)))
                 (SizeT.add cyg (garbage (_region d)))
                 (add_region (_region d) cset)) as [second [Heq Hall]].
    exists (_region d :: second). split.
    + rewrite Heq. cbn. rewrite <- app_assoc. reflexivity.
    + constructor.
      * split; [left; reflexivity |]. split; [exact Hp | left; exact Hage].
      * eapply Forall_impl; [| exact Hall].
        intros r Hr. apply second_pass_ok_tail. exact Hr.
Qed.

Lemma global_loop_spec (max_young_cset max_old_cset min_garbage : Z)
    (data : list RegionData) :
  forall young_cur_cset old_cur_cset cur_young_garbage cset,
  exists second,
    global_loop fl max_young_cset max_old_cset min_garbage data
      young_cur_cset old_cur_cset cur_young_garbage cset
    = mkCSet (is_preselected cset) (cset_regions cset ++ second)
    /\ Forall (second_pass_ok fl true (is_preselected cset) data) second.
Proof.
  induction data as [| d rest IH]; intros yc oc cyg cset.
  - exists []. split; [| constructor].
    cbn. rewrite app_nil_r. destruct cset; reflexivity.
  - cbn [global_loop].
    assert (Hskip : forall yc' oc' cyg', exists second,
      global_loop fl max_young_cset max_old_cset min_garbage rest yc' oc' cyg' cset
      = mkCSet (is_preselected cset) (cset_regions cset ++ second)
      /\ Forall (second_pass_ok fl true (is_preselected cset) (d :: rest)) second).
    { intros yc' oc' cyg'. destruct (IH yc' oc' cyg' cset) as [second [Heq Hall]].
      exists second. split; [exact Heq |].
      eapply Forall_impl; [| exact Hall].
      intros r Hr. apply second_pass_ok_tail. exact Hr. }
    assert (Hadd : forall yc' oc' cyg',
      (age (_region d) < InitialTenuringThreshold fl
       \/ (true = true /\ is_old (_region d) = true)) ->
      is_preselected cset (index (_region d)) = false ->
      exists second,
        global_loop fl max_young_cset max_old_cset min_garbage rest yc' oc' cyg'
          (add_region (_region d) cset)
        = mkCSet (is_preselected cset) (cset_regions cset ++ second)
        /\ Forall (second_pass_ok fl true (is_preselected cset) (d :: rest)) second).
    { intros yc' oc' cyg' Hwhy Hp.
      destruct (IH yc' oc' cyg' (add_region (_region d) cset))
        as [second [Heq Hall]].
      exists (_region d :: second). split.
      - rewrite Heq. cbn. rewrite <- app_assoc. reflexivity.
      - constructor.
        + split; [left; reflexivity |]. split; [exact Hp | exact Hwhy].
        + eapply Forall_impl; [| exact Hall].
          intros r Hr. apply second_pass_ok_tail. exact Hr. }
    destruct (is_preselected cset (index (_region d))) eqn:Hp; [apply Hskip |].
    destruct (is_old (_region d)) eqn:Hold.
    + match goal with |- context [if ?b then _ else _] => destruct b end;
        [| apply Hskip].
      apply Hadd; [right; split; reflexivity | reflexivity].
    + destruct (Z.ltb_spec (age (_region d)) (InitialTenuringThreshold fl))
        as [Hage | Hage]; [| apply Hskip].
      match goal with |- context [if ?b then _ else _] => destruct b end;
        [| apply Hskip].
      apply Hadd; [left; exact Hage | reflexivity].
Qed.

Lemma count_occ_filter_true (p : ShenandoahHeapRegion -> bool)
    (l : list ShenandoahHeapRegion) (r : ShenandoahHeapRegion) :
  p r = true ->
  count_occ region_eq_dec (filter p l) r = count_occ region_eq_dec l r.
Proof.
  intro Hp. induction l as [| x rest IH]; [reflexivity |].
  cbn [filter]. destruct (p x) eqn:Hx.
  - cbn [count_occ]. destruct (region_eq_dec x r); rewrite IH; reflexivity.
  - cbn [count_occ]. destruct (region_eq_dec x r) as [Heq | Hne].
    + subst x. congruence.
    + exact IH.
Qed.

(** C7 (as amended).  In both generational modes the regions added are,
    first, every preselected entry of the sorted array, each as often as it
    occurs in the array (exactly once when the array lists no region twice),
    their garbage summed into [cur_young_garbage]; and then regions of a
    second pass, none of them preselected.  A region that is not preselected
    and whose age has reached [InitialTenuringThreshold] is added only as an
    old region of a global collection. *)
Theorem generational_selection (c : Collab) (cset : ShenandoahCollectionSet)
    (data : list RegionData) (actual_free : Z) :
  mode_is_generational c = true ->
  let sorted := sort_by_garbage data in
  let first := preselected_regions cset sorted in
  exists second,
    cset_regions (choose_collection_set_from_regiondata fl c cset data actual_free)
    = cset_regions cset ++ first ++ second
    /\ preselected_loop sorted 0 cset
       = (SizeT.sum (map garbage first),
          mkCSet (is_preselected cset) (cset_regions cset ++ first))
    /\ Forall (second_pass_candidate fl c cset data) second
    /\ (forall r, is_preselected cset (index r) = true ->
          count_occ region_eq_dec (first ++ second) r
          = count_occ region_eq_dec (map _region data) r)
    /\ (NoDup (map _region data) ->
        forall r, In r (map _region data) ->
          is_preselected cset (index r) = true ->
          count_occ region_eq_dec (first ++ second) r = 1%nat)
    /\ (forall r, In r (first ++ second) ->
          is_preselected cset (index r) = false ->
          InitialTenuringThreshold fl <= age r ->
          gen_is_global c = true /\ is_old r = true).
Proof.
  intros Hmode sorted first.
  pose proof (sort_by_garbage_perm data) as Hperm. fold sorted in Hperm.
  assert (Hregions : Permutation (map _region sorted) (map _region data))
    by (apply Permutation_map, Permutation_sym, Hperm).
  assert (Hsecond : exists second,
    cset_regions (choose_collection_set_from_regiondata fl c cset data actual_free)
    = cset_regions cset ++ first ++ second
    /\ Forall (second_pass_ok fl (gen_is_global c) (is_preselected cset) sorted)
         second).
  { unfold choose_collection_set_from_regiondata. rewrite Hmode.
    fold sorted. rewrite preselected_loop_spec. fold first.
    destruct (gen_is_global c).
    - match goal with |- context [global_loop fl ?a ?b ?m sorted ?y ?o ?g ?cs] =>
        destruct (global_loop_spec a b m sorted y o g cs) as [second [Heq Hall]]
      end.
      exists second. rewrite Heq. cbn. rewrite <- app_assoc.
      split; [reflexivity | exact Hall].
    - match goal with |- context [young_loop fl ?a ?m sorted ?y ?g ?cs] =>
        destruct (young_loop_spec a m sorted y g cs) as [second [Heq Hall]]
      end.
      exists second. rewrite Heq. cbn. rewrite <- app_assoc.
      split; [reflexivity | exact Hall]. }
  destruct Hsecond as [second [Heq Hall]].
  assert (Hcand : Forall (second_pass_candidate fl c cset data) second).
  { eapply Forall_impl; [| exact Hall].
    intros r [Hin [Hp Hwhy]]. split; [| split].
    - apply (Permutation_in _ Hregions). exact Hin.
    - exact Hp.
    - exact Hwhy. }
  assert (Hcount : forall r, is_preselected cset (index r) = true ->
            count_occ region_eq_dec (first ++ second) r
            = count_occ region_eq_dec (map _region data) r).
  { intros r Hp. rewrite count_occ_app.
    replace (count_occ region_eq_dec second r) with 0%nat.
    + unfold first, preselected_regions.
      rewrite (count_occ_filter_true
                 (fun r0 => is_preselected cset (index r0)) _ r Hp).
      rewrite Nat.add_0_r.
      apply (proj1 (Permutation_count_occ region_eq_dec _ _) Hregions).
    + symmetry. apply count_occ_not_In. intro Hin.
      rewrite Forall_forall in Hcand. destruct (Hcand r Hin) as [_ [Hnp _]].
      congruence. }
  exists second. split; [exact Heq |].
  split; [apply preselected_loop_spec |].
  split; [exact Hcand |]. split; [exact Hcount |]. split.
  - intros Hnodup r Hin Hp. rewrite (Hcount r Hp).
    apply (proj1 (NoDup_count_occ' region_eq_dec _) Hnodup). exact Hin.
  - intros r Hin Hnp Hage. apply in_app_or in Hin. destruct Hin as [Hin | Hin].
    + unfold first, preselected_regions in Hin.
      apply filter_In in Hin. destruct Hin as [_ Hp]. congruence.
    + rewrite Forall_forall in Hcand.
      destruct (Hcand r Hin) as [_ [_ [Hlt | Hold]]]; [lia | exact Hold].
Qed.

End GenerationalFacts.

(** * Further properties of the code *)

(** ** The allocation-rate estimator, continued *)

Section MoreRateFacts.
Context {S : Type} `{NumberSeq S}.

Lemma leb_false_iff (a b : Q) : Double.leb a b = false <-> (b < a)%Q.
Proof.
  unfold Double.leb. rewrite negb_false_iff. apply ltb_true_iff.
Qed.

Lemma is_spiking_positive (ar : ShenandoahAllocationRate S) (rate threshold : Q) :
  is_spiking ar rate threshold = true -> (0 < rate)%Q.
Proof.
  unfold is_spiking. destruct (Double.leb rate 0) eqn:E; [discriminate |].
  intros _. apply leb_false_iff. exact E.
Qed.

(** X5.  Nothing is spiking unless the rate is positive and the samples
    have a positive deviation.  A rate that is spiking for a threshold is
    spiking for every lower one, and every higher rate is then spiking too,
    against the same samples and threshold. *)
Theorem is_spiking_monotone (ar : ShenandoahAllocationRate S) (rate threshold : Q) :
  is_spiking ar rate threshold = true ->
  (0 < rate)%Q /\ (0 < seq_sd (_rate ar))%Q
  /\ (forall lower,
        (lower <= threshold)%Q -> is_spiking ar rate lower = true)
  /\ (forall higher,
        (rate <= higher)%Q -> is_spiking ar higher threshold = true).
Proof.
  unfold is_spiking.
  destruct (Double.leb rate 0) eqn:Erate; [discriminate |].
  apply leb_false_iff in Erate.
  destruct (Double.gtb (seq_sd (_rate ar)) 0) eqn:Esd; [| discriminate].
  apply gtb_true_iff in Esd.
  destruct (Double.gtb ((rate - seq_avg (_rate ar)) / seq_sd (_rate ar)) threshold)
    eqn:Ez; [| discriminate].
  apply gtb_true_iff in Ez. intros _.
  split; [exact Erate |]. split; [exact Esd |]. split.
  - intros lower Hle.
    replace (Double.gtb ((rate - seq_avg (_rate ar)) / seq_sd (_rate ar)) lower)
      with true; [reflexivity |].
    symmetry. apply gtb_true_iff. apply Qle_lt_trans with threshold; assumption.
  - intros higher Hle.
    replace (Double.leb higher 0) with false
      by (symmetry; apply leb_false_iff; apply Qlt_le_trans with rate; assumption).
    replace (Double.gtb ((higher - seq_avg (_rate ar)) / seq_sd (_rate ar))
               threshold) with true; [reflexivity |].
    symmetry. apply gtb_true_iff.
    apply Qlt_le_trans with (1 := Ez).
    unfold Qdiv. apply Qmult_le_compat_r.
    + lra.
    + apply Qinv_le_0_compat. apply Qlt_le_weak. exact Esd.
Qed.

Lemma sample_positive (ar ar' : ShenandoahAllocationRate S) (now r : Q)
    (allocated : Z) :
  sample ar now allocated = Some (r, ar') -> (0 < r)%Q ->
  (_interval_sec ar < now - _last_sample_time ar)%Q
  /\ _last_sample_value ar < allocated.
Proof.
  unfold sample. intros Hs Hr.
  destruct (Double.gtb (now - _last_sample_time ar) (_interval_sec ar)) eqn:Eint.
  - apply gtb_true_iff in Eint. split; [exact Eint |].
    destruct (allocated >=? _last_sample_value ar) eqn:Ege.
    + unfold instantaneous_rate in Hs.
      destruct (Z.gtb_spec allocated (_last_sample_value ar)) as [Hgt | Hle];
        [lia |].
      exfalso.
      destruct (Double.gtb (now - _last_sample_time ar) 0) eqn:Edt.
      * apply gtb_true_iff in Edt. rewrite ddiv_nonzero in Hs by lra.
        injection Hs as Hrate _. subst r.
        unfold Double.of_size, inject_Z, Qdiv in Hr. rewrite Qmult_0_l in Hr.
        apply (Qlt_irrefl _ Hr).
      * injection Hs as Hrate _. subst r. apply (Qlt_irrefl _ Hr).
    + injection Hs as Hrate _. subst r. exfalso. apply (Qlt_irrefl _ Hr).
  - injection Hs as Hrate _. subst r. exfalso. apply (Qlt_irrefl _ Hr).
Qed.

Lemma sample_taken (ar : ShenandoahAllocationRate S) (now : Q) (allocated : Z) :
  (0 <= _interval_sec ar)%Q ->
  (_interval_sec ar < now - _last_sample_time ar)%Q ->
  0 <= _last_sample_value ar <= allocated -> allocated < SizeT.modulus ->
  exists rate,
    (0 <= rate)%Q
    /\ ((0 < rate)%Q <-> _last_sample_value ar < allocated)
    /\ sample ar now allocated
       = Some (rate,
               mkAllocRate now allocated (_interval_sec ar)
                 (seq_add (_rate ar) rate)
                 (seq_add (_rate_avg ar) (seq_avg (seq_add (_rate ar) rate)))).
Proof.
  intros Hint Hdt Hval Hhi. unfold sample, instantaneous_rate.
  replace (Double.gtb (now - _last_sample_time ar) (_interval_sec ar)) with true
    by (symmetry; apply gtb_true_iff; exact Hdt).
  replace (allocated >=? _last_sample_value ar) with true
    by (symmetry; rewrite Z.geb_leb; apply Z.leb_le; lia).
  replace (Double.gtb (now - _last_sample_time ar) 0) with true
    by (symmetry; apply gtb_true_iff; lra).
  rewrite ddiv_nonzero by lra.
  assert (Hpos : (0 < now - _last_sample_time ar)%Q) by lra.
  eexists. split; [| split; [| reflexivity]].
  - apply Qle_shift_div_l; [exact Hpos |]. rewrite Qmult_0_l.
    apply of_size_nonneg.
    destruct (allocated >? _last_sample_value ar); [apply wrap_nonneg | lia].
  - destruct (Z.gtb_spec allocated (_last_sample_value ar)) as [Hgt | Hle].
    + split; [intros _; exact Hgt |]. intros _.
      apply Qlt_shift_div_l; [exact Hpos |]. rewrite Qmult_0_l.
      unfold SizeT.sub. rewrite wrap_small by lia.
      unfold Double.of_size. change 0%Q with (inject_Z 0).
      rewrite <- Zlt_Qlt. lia.
    + split; [| lia]. intro Hr. exfalso.
      unfold Double.of_size, inject_Z, Qdiv in Hr. rewrite Qmult_0_l in Hr.
      apply (Qlt_irrefl _ Hr).
Qed.

(** X6.  A call of [sample] after the interval, with a counter that has not
    regressed, takes a sample: the rate it returns is not negative, and is
    positive exactly when the counter has grown; that rate is appended to
    [_rate], the new average of [_rate] to [_rate_avg], and the time and the
    counter are recorded. *)
Theorem sample_takes_rate (ar : ShenandoahAllocationRate S) (now : Q)
    (allocated : Z) :
  (0 <= _interval_sec ar)%Q ->
  (_interval_sec ar < now - _last_sample_time ar)%Q ->
  0 <= _last_sample_value ar <= allocated -> allocated < SizeT.modulus ->
  exists rate ar',
    sample ar now allocated = Some (rate, ar')
    /\ (0 <= rate)%Q
    /\ ((0 < rate)%Q <-> _last_sample_value ar < allocated)
    /\ _rate ar' = seq_add (_rate ar) rate
    /\ _rate_avg ar' = seq_add (_rate_avg ar) (seq_avg (_rate ar'))
    /\ _last_sample_time ar' = now
    /\ _last_sample_value ar' = allocated
    /\ _interval_sec ar' = _interval_sec ar.
Proof.
  intros Hint Hdt Hval Hhi.
  destruct (sample_taken ar now allocated Hint Hdt Hval Hhi)
    as [rate [Hr [Hsign Hs]]].
  exists rate. eexists. split; [exact Hs |]. split; [exact Hr |].
  split; [exact Hsign |]. repeat split.
Qed.

(** X7.  No two samples are taken within one interval: after a call that
    passed the interval test, a call no more than [interval_sec] later
    returns 0 and changes nothing, whatever the counter reads. *)
Theorem sample_at_most_once_per_interval (ar ar1 : ShenandoahAllocationRate S)
    (now1 now2 r1 : Q) (allocated1 allocated2 : Z) :
  (_interval_sec ar < now1 - _last_sample_time ar)%Q ->
  sample ar now1 allocated1 = Some (r1, ar1) ->
  (now2 - now1 <= _interval_sec ar)%Q ->
  sample ar1 now2 allocated2 = Some (0%Q, ar1).
Proof.
  intros Hdt Hs Hnear. unfold sample in Hs.
  apply gtb_true_iff in Hdt. rewrite Hdt in Hs.
  assert (Hstate : _last_sample_time ar1 = now1
                   /\ _interval_sec ar1 = _interval_sec ar).
  { destruct (allocated1 >=? _last_sample_value ar).
    - destruct (instantaneous_rate ar now1 allocated1); [| discriminate].
      injection Hs as _ Har. subst ar1. split; reflexivity.
    - injection Hs as _ Har. subst ar1. split; reflexivity. }
  destruct Hstate as [Htime Hint]. unfold sample.
  rewrite Htime, Hint.
  replace (Double.gtb (now2 - now1) (_interval_sec ar)) with false
    by (symmetry; apply gtb_false_iff; exact Hnear).
  reflexivity.
Qed.

End MoreRateFacts.

(** ** The trigger decision, continued *)

Section MoreTriggerFacts.
Context {B S : Type} `{BaseHeuristics B} `{NumberSeq S}.

Local Abbreviation Heur := (ShenandoahAdaptiveHeuristics B S).

Lemma sampled_pair (h : Heur) (c : Collab) :
  sample (_allocation_rate h) (elapsedTime c)
    (gen_bytes_allocated_since_gc_start c)
  = Some (sampled_rate h c, sampled_estimator h c).
Proof.
  unfold sampled_rate, sampled_estimator.
  destruct (sample_defined (_allocation_rate h) (elapsedTime c)
              (gen_bytes_allocated_since_gc_start c)) as [r [ar Hs]].
  rewrite Hs. reflexivity.
Qed.

Lemma should_start_gc_steps (fl : Flags) (h : Heur) (c : Collab) :
  should_start_gc fl h c
  = if negb (gen_is_old c) then
      if mutator_available c <? min_free_threshold fl c
      then Some (true, after_sample h c)
      else if learning_fires fl h c then Some (true, after_sample h c)
      else if rate_test fl h c
      then Some (true, set_last_trigger (after_sample h c) RATE)
      else if spike_test fl h c
      then Some (true, set_last_trigger (after_sample h c) SPIKE)
      else if expedite c then Some (true, after_sample h c)
      else Some (base_should_start_gc (base h) c, after_sample h c)
    else Some (base_should_start_gc (base h) c, after_sample h c).
Proof.
  unfold should_start_gc. rewrite sampled_pair. reflexivity.
Qed.

Ltac trigger_cases fl h c :=
  rewrite (should_start_gc_steps fl h c);
  destruct (gen_is_old c) eqn:Eold; cbn [negb];
  [| destruct (mutator_available c <? min_free_threshold fl c) eqn:Emin;
     [| destruct (learning_fires fl h c) eqn:Elearn;
        [| destruct (rate_test fl h c) eqn:Erate;
           [| destruct (spike_test fl h c) eqn:Espike;
              [| destruct (expedite c) eqn:Eexp ]]]]].

Lemma should_start_gc_frame_aux (fl : Flags) (h : Heur) (c : Collab) :
  exists b h',
    should_start_gc fl h c = Some (b, h')
    /\ _margin_of_error_sd h' = _margin_of_error_sd h
    /\ _spike_threshold_sd h' = _spike_threshold_sd h.
Proof.
  trigger_cases fl h c; do 2 eexists; (split; [reflexivity |]);
    split; reflexivity.
Qed.

(** X1.  [should_start_gc] always returns.  Whether or not it triggers, and
    for the old generation too, it takes one sample of the allocation
    counter and keeps the estimator that [sample] returns; the margin of
    error, the spike threshold, the history of available bytes and the base
    class are left as they were. *)
Theorem should_start_gc_frame (fl : Flags) (h : Heur) (c : Collab) :
  exists b h' rate,
    should_start_gc fl h c = Some (b, h')
    /\ sample (_allocation_rate h) (elapsedTime c)
         (gen_bytes_allocated_since_gc_start c)
       = Some (rate, _allocation_rate h')
    /\ base h' = base h
    /\ _margin_of_error_sd h' = _margin_of_error_sd h
    /\ _spike_threshold_sd h' = _spike_threshold_sd h
    /\ _available h' = _available h.
Proof.
  pose proof (sampled_pair h c) as Hs.
  trigger_cases fl h c;
    do 2 eexists; exists (sampled_rate h c);
    (split; [reflexivity |]); (split; [exact Hs |]); repeat split.
Qed.

(** X2.  [_last_trigger] is written on every call: a call that returns
    false leaves it at OTHER, whatever it was before, and RATE or SPIKE are
    only ever recorded together with the answer true. *)
Theorem trigger_recorded_only_when_fired (fl : Flags) (h : Heur) (c : Collab)
    (b : bool) (h' : Heur) :
  should_start_gc fl h c = Some (b, h') ->
  (b = false -> _last_trigger h' = OTHER)
  /\ (_last_trigger h' <> OTHER -> b = true).
Proof.
  trigger_cases fl h c; intro Heq; injection Heq as Hb Hh; subst b h';
    cbn [_last_trigger set_last_trigger after_sample]; split;
    try (intros; reflexivity); try (intro Hx; discriminate Hx);
    try (intro Hx; exfalso; apply Hx; reflexivity).
Qed.

(** X3.  For the old generation none of the depletion triggers applies: the
    answer is the base heuristic's, with OTHER recorded, however little is
    available and whatever the rates are. *)
Theorem old_generation_defers_to_base (fl : Flags) (h : Heur) (c : Collab) :
  gen_is_old c = true ->
  exists h',
    should_start_gc fl h c = Some (base_should_start_gc (base h) c, h')
    /\ _last_trigger h' = OTHER.
Proof.
  intro Hold. rewrite should_start_gc_steps, Hold. cbn [negb].
  eexists. split; reflexivity.
Qed.

Lemma trigger_headroom_clamped (fl : Flags) (h : Heur) (c : Collab) :
  0 <= mutator_available c < SizeT.modulus ->
  trigger_headroom fl h c
  = Z.max 0 (mutator_available c - trigger_penalties h c
             - trigger_spike_headroom fl c).
Proof.
  intro Ha. unfold trigger_headroom.
  assert (Hp : 0 <= trigger_penalties h c) by apply wrap_nonneg.
  assert (Hs : 0 <= trigger_spike_headroom fl c) by apply wrap_nonneg.
  rewrite !size_MIN2_min. unfold SizeT.sub.
  rewrite (wrap_small (mutator_available c - _)) by lia.
  apply wrap_small_eq. lia.
Qed.

Lemma dgt_quot_positive (x n d : Q) :
  (0 < d)%Q -> Double.dgt_quot x n d = true <-> (n < x * d)%Q.
Proof.
  intro Hd. unfold Double.dgt_quot.
  rewrite ddiv_nonzero by lra.
  rewrite gtb_true_iff. split; intro Hx.
  - assert (Hn : (n == n / d * d)%Q) by (field; lra).
    rewrite Hn. apply Qmult_lt_compat_r; assumption.
  - apply Qlt_shift_div_r; [exact Hd | exact Hx].
Qed.

Lemma dgt_quot_zero (x n d : Q) : (d == 0)%Q -> Double.dgt_quot x n d = false.
Proof.
  intro Hd. unfold Double.dgt_quot, Double.ddiv.
  apply Qeq_bool_iff in Hd. rewrite Hd. reflexivity.
Qed.

Lemma recorded_rate_iff (fl : Flags) (h : Heur) (c : Collab) :
  gen_is_old c = false ->
  min_free_threshold fl c <= mutator_available c ->
  learning_fires fl h c = false ->
  recorded_trigger fl h c = Some RATE <-> rate_test fl h c = true.
Proof.
  intros Hold Hmin Hlearn. unfold recorded_trigger.
  rewrite should_start_gc_steps, Hold, Hlearn. cbn [negb].
  replace (mutator_available c <? min_free_threshold fl c) with false
    by (symmetry; apply Z.ltb_ge; exact Hmin).
  destruct (rate_test fl h c); [split; reflexivity |].
  destruct (spike_test fl h c); [split; discriminate |].
  destruct (expedite c); split; discriminate.
Qed.

(** X4.  Past the minimum-free and learning steps: with an upper bound of
    zero on the allocation rate the quotient of the rate test is not finite
    and the average-rate trigger does not fire; when the penalties and the
    spike headroom use up all that is available the headroom is 0, and the
    trigger fires for every positive cycle time and rate.  RATE is recorded
    only with the answer true and a rate other than zero. *)
Theorem rate_trigger_condition (fl : Flags) (h : Heur) (c : Collab) :
  gen_is_old c = false ->
  min_free_threshold fl c <= mutator_available c ->
  learning_fires fl h c = false ->
  0 <= mutator_available c < SizeT.modulus ->
  ((avg_alloc_rate h c == 0)%Q -> recorded_trigger fl h c <> Some RATE)
  /\ (mutator_available c
      <= trigger_penalties h c + trigger_spike_headroom fl c ->
      (0 < avg_cycle_time h)%Q -> (0 < avg_alloc_rate h c)%Q ->
      recorded_trigger fl h c = Some RATE)
  /\ (recorded_trigger fl h c = Some RATE ->
      decision fl h c = Some true /\ ~ (avg_alloc_rate h c == 0)%Q).
Proof.
  intros Hold Hmin Hlearn Hrange.
  pose proof (recorded_rate_iff fl h c Hold Hmin Hlearn) as Hiff.
  assert (Hzero : (avg_alloc_rate h c == 0)%Q -> recorded_trigger fl h c <> Some RATE).
  { intros Hz Hrate. apply Hiff in Hrate. unfold rate_test in Hrate.
    rewrite dgt_quot_zero in Hrate by exact Hz. discriminate. }
  split; [exact Hzero |]. split.
  - intros Hused Hact Hrate. apply Hiff. unfold rate_test.
    rewrite trigger_headroom_clamped by exact Hrange.
    apply dgt_quot_positive; [exact Hrate |].
    replace (Z.max 0 (mutator_available c - trigger_penalties h c
                      - trigger_spike_headroom fl c)) with 0 by lia.
    unfold Double.of_size. change (inject_Z 0) with 0%Q.
    rewrite <- (Qmult_0_l (avg_alloc_rate h c)).
    apply Qmult_lt_compat_r; assumption.
  - intro Hrate. split; [| intro Hz; exact (Hzero Hz Hrate)].
    apply Hiff in Hrate. unfold decision.
    rewrite should_start_gc_steps, Hold, Hlearn, Hrate. cbn [negb].
    replace (mutator_available c <? min_free_threshold fl c) with false
      by (symmetry; apply Z.ltb_ge; exact Hmin).
    reflexivity.
Qed.

(** X8.  The spike trigger fires only on a call that took a sample: SPIKE is
    recorded only when the interval had elapsed and the counter had grown
    since the last sample, and then the answer is true. *)
Theorem spike_trigger_needs_sample (fl : Flags) (h : Heur) (c : Collab) :
  recorded_trigger fl h c = Some SPIKE ->
  (_interval_sec (_allocation_rate h)
   < elapsedTime c - _last_sample_time (_allocation_rate h))%Q
  /\ _last_sample_value (_allocation_rate h)
     < gen_bytes_allocated_since_gc_start c
  /\ decision fl h c = Some true.
Proof.
  unfold recorded_trigger, decision.
  trigger_cases fl h c; cbn; intro Hrec; try discriminate Hrec.
  split; [| split; [| reflexivity]].
  - unfold spike_test in Espike. apply andb_prop in Espike.
    destruct Espike as [Hsp _].
    apply is_spiking_positive in Hsp.
    apply (sample_positive _ _ _ _ _ (sampled_pair h c) Hsp).
  - unfold spike_test in Espike. apply andb_prop in Espike.
    destruct Espike as [Hsp _].
    apply is_spiking_positive in Hsp.
    apply (sample_positive _ _ _ _ _ (sampled_pair h c) Hsp).
Qed.

Lemma upper_bound_nonneg (ar : ShenandoahAllocationRate S) (sds : Q) :
  (0 <= sds)%Q -> (0 <= seq_davg (_rate ar))%Q ->
  (0 <= seq_dsd (_rate_avg ar))%Q -> (0 <= upper_bound ar sds)%Q.
Proof.
  intros Hs Hd Hv. unfold upper_bound.
  pose proof (Qmult_le_0_compat _ _ Hs Hv). lra.
Qed.

Lemma upper_bound_monotone (ar : ShenandoahAllocationRate S) (s1 s2 : Q) :
  (s1 <= s2)%Q -> (0 <= seq_dsd (_rate_avg ar))%Q ->
  (upper_bound ar s1 <= upper_bound ar s2)%Q.
Proof.
  intros Hs Hv. unfold upper_bound.
  pose proof (Qmult_le_compat_r _ _ _ Hs Hv). lra.
Qed.

(** X9.  Raising the margin of error never takes back a rate trigger: with
    non-negative statistics, if the call records RATE with the margin it
    has, it records RATE with any larger margin. *)
Theorem rate_trigger_monotone_in_margin (fl : Flags) (h : Heur) (c : Collab)
    (margin : Q) :
  (0 <= _margin_of_error_sd h)%Q -> (_margin_of_error_sd h <= margin)%Q ->
  (0 <= gc_cycle_time_dsd (base h))%Q ->
  (0 <= seq_davg (_rate (sampled_estimator h c)))%Q ->
  (0 <= seq_dsd (_rate_avg (sampled_estimator h c)))%Q ->
  recorded_trigger fl h c = Some RATE ->
  recorded_trigger fl (set_margin_of_error_sd h margin) c = Some RATE.
Proof.
  intros Hm0 Hm Hcd Hra Hrd. unfold recorded_trigger.
  rewrite (should_start_gc_steps fl (set_margin_of_error_sd h margin) c).
  trigger_cases fl h c; cbn; intro Hrec; try discriminate Hrec.
  change (learning_fires fl (set_margin_of_error_sd h margin) c)
    with (learning_fires fl h c).
  rewrite Elearn.
  replace (rate_test fl (set_margin_of_error_sd h margin) c) with true;
    [reflexivity |].
  symmetry. unfold rate_test in *.
  change (trigger_headroom fl (set_margin_of_error_sd h margin) c)
    with (trigger_headroom fl h c).
  set (hr := Double.of_size (trigger_headroom fl h c)) in *.
  assert (Hhr : (0 <= hr)%Q).
  { subst hr. apply of_size_nonneg. unfold trigger_headroom, SizeT.sub.
    apply wrap_nonneg. }
  set (act := avg_cycle_time h) in *.
  set (aar := avg_alloc_rate h c) in *.
  set (act2 := avg_cycle_time (set_margin_of_error_sd h margin)).
  set (aar2 := avg_alloc_rate (set_margin_of_error_sd h margin) c).
  assert (Haar0 : (0 <= aar)%Q)
    by (apply upper_bound_nonneg; assumption).
  assert (Haar : (0 < aar)%Q).
  { destruct (Qlt_le_dec 0 aar) as [Hpos | Hneg]; [exact Hpos |].
    rewrite dgt_quot_zero in Erate by lra. discriminate. }
  apply (dgt_quot_positive act hr aar Haar) in Erate.
  assert (Haar2 : (aar <= aar2)%Q).
  { subst aar aar2. unfold avg_alloc_rate.
    apply (upper_bound_monotone (sampled_estimator h c)); assumption. }
  assert (Hact2 : (act <= act2)%Q).
  { subst act act2. unfold avg_cycle_time. cbn.
    pose proof (Qmult_le_compat_r _ _ _ Hm Hcd). lra. }
  assert (Hact : (0 < act)%Q).
  { destruct (Qlt_le_dec 0 act) as [Hpos | Hneg]; [exact Hpos |].
    exfalso.
    assert (Hprod : (act * aar <= 0 * aar)%Q)
      by (apply Qmult_le_compat_r; lra).
    lra. }
  apply dgt_quot_positive; [lra |].
  assert (H1 : (act * aar <= act2 * aar)%Q)
    by (apply Qmult_le_compat_r; lra).
  assert (H2 : (act2 * aar <= act2 * aar2)%Q).
  { rewrite (Qmult_comm act2 aar), (Qmult_comm act2 aar2).
    apply Qmult_le_compat_r; lra. }
  lra.
Qed.

(** X10.  A cycle whose trigger was recorded as OTHER does not retune the
    parameters when it succeeds concurrently: after such a call of
    [should_start_gc], [record_success_concurrent] leaves the margin of
    error and the spike threshold as they were before the call. *)
Theorem success_after_other_trigger_keeps_parameters (fl : Flags) (h h' : Heur)
    (c c' : Collab) (b abbreviated : bool) :
  should_start_gc fl h c = Some (b, h') ->
  _last_trigger h' = OTHER ->
  _margin_of_error_sd (record_success_concurrent h' c' abbreviated)
  = _margin_of_error_sd h
  /\ _spike_threshold_sd (record_success_concurrent h' c' abbreviated)
     = _spike_threshold_sd h.
Proof.
  intros Hs Hother.
  destruct (should_start_gc_frame_aux fl h c) as [b0 [h0 [Hs0 [Hm Hsp]]]].
  rewrite Hs in Hs0. injection Hs0 as Hb Hh. subst b0 h0.
  rewrite <- Hm, <- Hsp.
  unfold record_success_concurrent, adjust_last_trigger_parameters.
  destruct h' as [b' m s t a ar]. cbn in Hother. subst t.
  match goal with |- context [if ?x then _ else _] => destruct x end;
    split; reflexivity.
Qed.

(** X11.  [record_cycle_start] restarts the counter: whatever the last
    sample read, the first call of [sample] after the interval sees no
    regression and takes a sample, whose rate is positive exactly when bytes
    have been allocated since the start.  The parameters and the recorded
    trigger are not touched. *)
Theorem first_sample_of_cycle (h : Heur) (c : Collab) (now : Q) (allocated : Z) :
  (0 <= _interval_sec (_allocation_rate h))%Q ->
  (_interval_sec (_allocation_rate h) < now - elapsedTime c)%Q ->
  0 <= allocated < SizeT.modulus ->
  let h' := record_cycle_start h c in
  (exists rate ar',
      sample (_allocation_rate h') now allocated = Some (rate, ar')
      /\ (0 <= rate)%Q
      /\ ((0 < rate)%Q <-> 0 < allocated)
      /\ _rate ar' = seq_add (_rate (_allocation_rate h)) rate
      /\ _last_sample_time ar' = now
      /\ _last_sample_value ar' = allocated)
  /\ _margin_of_error_sd h' = _margin_of_error_sd h
  /\ _spike_threshold_sd h' = _spike_threshold_sd h
  /\ _last_trigger h' = _last_trigger h
  /\ _available h' = _available h.
Proof.
  intros Hint Hdt Hval h'. split; [| repeat split].
  assert (Hs : exists rate,
    (0 <= rate)%Q
    /\ ((0 < rate)%Q <-> 0 < allocated)
    /\ sample (_allocation_rate h') now allocated
       = Some (rate,
               mkAllocRate now allocated (_interval_sec (_allocation_rate h))
                 (seq_add (_rate (_allocation_rate h)) rate)
                 (seq_add (_rate_avg (_allocation_rate h))
                    (seq_avg (seq_add (_rate (_allocation_rate h)) rate))))).
  { apply (sample_taken (_allocation_rate h') now allocated).
    - exact Hint.
    - exact Hdt.
    - cbn. lia.
    - lia. }
  destruct Hs as [rate [Hr [Hsign Hs]]].
  exists rate. eexists. split; [exact Hs |].
  split; [exact Hr |]. split; [exact Hsign |]. repeat split.
Qed.

(** X22.  With promotions or mixed evacuations pending, a generation that is
    not old always starts a cycle in generational mode: whatever the free
    space and the rates are, the answer is true. *)
Theorem pending_promotions_always_trigger (fl : Flags) (h : Heur) (c : Collab) :
  gen_is_old c = false -> mode_is_generational c = true ->
  0 < promotion_potential c \/ 0 < promotion_in_place_potential c
  \/ 0 < unprocessed_old_collection_candidates c ->
  decision fl h c = Some true.
Proof.
  intros Hold Hmode Hpending.
  assert (Hexp : expedite c = true).
  { unfold expedite. rewrite Hmode. cbn [andb].
    destruct Hpending as [Hp | [Hp | Hp]]; apply Z.gtb_lt in Hp; rewrite Hp;
      rewrite ?orb_true_r; reflexivity. }
  unfold decision. trigger_cases fl h c; try reflexivity; congruence.
Qed.

Lemma dgt_quot_numerator (x n1 n2 d : Q) :
  (0 <= d)%Q -> (n2 <= n1)%Q ->
  Double.dgt_quot x n1 d = true -> Double.dgt_quot x n2 d = true.
Proof.
  intros Hd Hn Hq.
  destruct (Qlt_le_dec 0 d) as [Hpos | Hzero].
  - apply (dgt_quot_positive x n1 d Hpos) in Hq.
    apply (dgt_quot_positive x n2 d Hpos). lra.
  - rewrite dgt_quot_zero in Hq by lra. discriminate.
Qed.

(** X23.  Running lower on memory never takes a trigger back: if the call
    answers true with some figures for the available bytes, it answers true
    with smaller ones, everything else being equal, provided the upper
    bound on the allocation rate is not negative and the base heuristic's
    answer does not depend on the available bytes. *)
Theorem less_available_keeps_trigger (fl : Flags) (h : Heur) (c : Collab)
    (soft free : Z) :
  let c' := with_available c soft free in
  0 <= mutator_available c' <= mutator_available c ->
  mutator_available c < SizeT.modulus ->
  (0 <= avg_alloc_rate h c)%Q ->
  base_should_start_gc (base h) c' = base_should_start_gc (base h) c ->
  decision fl h c = Some true -> decision fl h c' = Some true.
Proof.
  intros c' Havail Hrange Haar Hbase. unfold decision.
  assert (Hhr : (Double.of_size (trigger_headroom fl h c')
                 <= Double.of_size (trigger_headroom fl h c))%Q).
  { apply of_size_monotone.
    rewrite !trigger_headroom_clamped by lia.
    change (trigger_penalties h c') with (trigger_penalties h c).
    change (trigger_spike_headroom fl c') with (trigger_spike_headroom fl c).
    lia. }
  assert (Hrate : rate_test fl h c = true -> rate_test fl h c' = true).
  { unfold rate_test.
    change (avg_alloc_rate h c') with (avg_alloc_rate h c).
    apply dgt_quot_numerator; assumption. }
  assert (Hspike : spike_test fl h c = true -> spike_test fl h c' = true).
  { unfold spike_test.
    change (sampled_estimator h c') with (sampled_estimator h c).
    change (sampled_rate h c') with (sampled_rate h c).
    intro Hs. apply andb_prop in Hs. destruct Hs as [Hsp Hq].
    rewrite Hsp. cbn [andb].
    apply (dgt_quot_numerator _ _ _ _
             (Qlt_le_weak _ _ (is_spiking_positive _ _ _ Hsp)) Hhr Hq). }
  assert (Hlearn : learning_fires fl h c = true -> learning_fires fl h c' = true).
  { unfold learning_fires.
    change (learning_threshold fl c') with (learning_threshold fl c).
    intro Hl. apply andb_prop in Hl. destruct Hl as [H1 H2].
    rewrite H1. cbn [andb]. apply Z.ltb_lt. apply Z.ltb_lt in H2. lia. }
  assert (Hmin : (mutator_available c <? min_free_threshold fl c) = true ->
                 (mutator_available c' <? min_free_threshold fl c') = true).
  { change (min_free_threshold fl c') with (min_free_threshold fl c).
    intro Hm. apply Z.ltb_lt. apply Z.ltb_lt in Hm. lia. }
  rewrite (should_start_gc_steps fl h c').
  change (gen_is_old c') with (gen_is_old c).
  change (expedite c') with (expedite c).
  rewrite Hbase.
  trigger_cases fl h c; cbn [option_map fst]; intro Hres;
    try discriminate Hres;
    repeat match goal with
           | Hx : ?P -> _ |- _ =>
               match type of Hx with
               | (_ = true) -> (_ = true) =>
                   first [ specialize (Hx eq_refl) | clear Hx ]
               end
           end;
    repeat match goal with
           | Hx : ?b = true |- context [if ?b then _ else _] => rewrite Hx
           | |- context [if ?b then _ else _] => destruct b
           end; try reflexivity; try exact Hres.
Qed.

End MoreTriggerFacts.

(** ** The feedback rules, continued *)

Lemma saturate_monotone (v w lo hi : Q) :
  (v <= w)%Q -> (saturate v lo hi <= saturate w lo hi)%Q.
Proof.
  intro Hvw. unfold saturate, Double.MAX2, Double.MIN2.
  destruct (Qlt_le_dec v hi); destruct (Qlt_le_dec w hi);
    repeat match goal with |- context [Qlt_le_dec ?a ?b] =>
      destruct (Qlt_le_dec a b) end; lra.
Qed.

Lemma saturate_above (v x lo hi : Q) :
  (lo <= x)%Q -> (x <= hi)%Q -> (x <= v)%Q -> (x <= saturate v lo hi)%Q.
Proof.
  intros Hlo Hhi Hv. unfold saturate, Double.MAX2, Double.MIN2.
  destruct (Qlt_le_dec v hi); destruct (Qlt_le_dec lo _); lra.
Qed.

Lemma saturate_below (v x lo hi : Q) :
  (lo <= x)%Q -> (x <= hi)%Q -> (v <= x)%Q -> (saturate v lo hi <= x)%Q.
Proof.
  intros Hlo Hhi Hv. unfold saturate, Double.MAX2, Double.MIN2.
  destruct (Qlt_le_dec v hi); destruct (Qlt_le_dec lo _); lra.
Qed.



Section MoreFeedbackFacts.
Context {B S : Type} `{BaseHeuristics B} `{NumberSeq S}.

Local Abbreviation Heur := (ShenandoahAdaptiveHeuristics B S).


(** X13.  A degenerated and a full cycle tighten both triggers, the full one
    at least as far: with parameters in the interval, the margin of error
    after a full cycle is at least the one after a degenerated cycle, which
    is at least the old one, and the spike thresholds are ordered the other
    way.  Neither touches the recorded trigger, the history of available
    bytes or the estimator. *)
Theorem degenerated_and_full_tighten (h : Heur) :
  parameters_in_confidence h ->
  ((_margin_of_error_sd h
    <= _margin_of_error_sd (record_success_degenerated h))%Q
   /\ (_margin_of_error_sd (record_success_degenerated h)
       <= _margin_of_error_sd (record_success_full h))%Q
   /\ (_spike_threshold_sd (record_success_full h)
       <= _spike_threshold_sd (record_success_degenerated h))%Q
   /\ (_spike_threshold_sd (record_success_degenerated h)
       <= _spike_threshold_sd h)%Q)
  /\ (_last_trigger (record_success_degenerated h) = _last_trigger h
      /\ _available (record_success_degenerated h) = _available h
      /\ _allocation_rate (record_success_degenerated h) = _allocation_rate h)
  /\ (_last_trigger (record_success_full h) = _last_trigger h
      /\ _available (record_success_full h) = _available h
      /\ _allocation_rate (record_success_full h) = _allocation_rate h).
Proof.
  intros [[Hm1 Hm2] [Hs1 Hs2]]. pose proof confidence_ordered as Hord.
  split; [| split; repeat split].
  cbn. unfold DEGENERATE_PENALTY_SD, FULL_PENALTY_SD.
  split; [apply saturate_above; lra |].
  split; [apply saturate_monotone; lra |].
  split; [apply saturate_monotone; lra |].
  apply saturate_below; lra.
Qed.



Lemma record_outcome_keeps_trigger (h : Heur) (o : Outcome) :
  _last_trigger (record_outcome h o) = _last_trigger h
  /\ _allocation_rate (record_outcome h o) = _allocation_rate h.
Proof.
  destruct o as [c abbreviated | |]; cbn; [| split; reflexivity ..].
  unfold record_success_concurrent, adjust_last_trigger_parameters.
  destruct h as [b m s t a ar]. cbn.
  match goal with |- context [if ?x then _ else _] => destruct x end;
    [destruct t |]; split; reflexivity.
Qed.

(** X15.  The outcome recorders never change which trigger is on record, nor
    the estimator: after any sequence of concurrent, degenerated and full
    outcomes [_last_trigger] and [_allocation_rate] are what they were; only
    [should_start_gc] writes the trigger. *)
Theorem outcomes_keep_trigger_and_estimator (h : Heur) (os : list Outcome) :
  _last_trigger (record_outcomes h os) = _last_trigger h
  /\ _allocation_rate (record_outcomes h os) = _allocation_rate h.
Proof.
  revert h. induction os as [| o os IH]; intro h; [split; reflexivity |].
  change (record_outcomes h (o :: os))
    with (record_outcomes (record_outcome h o) os).
  destruct (IH (record_outcome h o)) as [Ht Ha].
  destruct (record_outcome_keeps_trigger h o) as [Ht' Ha'].
  rewrite Ht, Ha. split; assumption.
Qed.

End MoreFeedbackFacts.


(** ** The runway estimator, continued *)

Section MoreRunwayFacts.
Context {B S : Type} `{BaseHeuristics B} `{NumberSeq S}.

Local Abbreviation Heur := (ShenandoahAdaptiveHeuristics B S).

Lemma anticipated_available_range (fl : Flags) (c : Collab) (y : Z) :
  0 <= anticipated_available fl c y < SizeT.modulus.
Proof. unfold anticipated_available, SizeT.sub. apply wrap_range. Qed.

Lemma evac_slack_zero (a : Z) (b : Q) :
  (Double.of_size a <= b)%Q -> evac_slack a b = 0.
Proof.
  intro Hle. unfold evac_slack.
  replace (Double.gtb (Double.of_size a) b) with false
    by (symmetry; apply gtb_false_iff; exact Hle).
  reflexivity.
Qed.

(** X16.  The runway estimate always returns, and what it returns is never
    negative and never more than the anticipated available bytes above
    [min_free_threshold]: it is 0 when no more than the threshold is
    anticipated, and 0 when no more is anticipated than the average-rate
    budget [avg_cycle_time * avg_alloc_rate + penalties + spike_headroom].
    The call takes a sample like [should_start_gc] does and changes nothing
    else. *)
Theorem runway_bounds (fl : Flags) (h : Heur) (c : Collab) (y : Z) :
  exists r,
    bytes_of_allocation_runway_before_gc_trigger fl h c y
    = Some (r, set_allocation_rate h (sampled_estimator h c))
    /\ 0 <= r
    /\ r <= Z.max 0 (anticipated_available fl c y - min_free_threshold fl c)
    /\ r <= anticipated_available fl c y
    /\ ((Double.of_size (anticipated_available fl c y)
         <= avg_cycle_time h * avg_alloc_rate h c
            + Double.of_size (penalties_term h c)
            + Double.of_size (spike_headroom_term fl c))%Q ->
        r = 0).
Proof.
  rewrite runway_unfold, sampled_pair.
  eexists. split; [reflexivity |].
  pose proof (anticipated_available_range fl c y) as Ha.
  pose proof (min_free_threshold_nonneg fl c) as Ht.
  unfold runway_of_terms. rewrite size_MIN3_min.
  set (A := anticipated_available fl c y) in *.
  set (T := min_free_threshold fl c) in *.
  set (slack_avg := evac_slack A (_ * upper_bound _ _ + _ + _)%Q).
  set (slack_spike := if is_spiking _ _ _ then _ else _).
  assert (Hmin : (if A >? T then SizeT.sub A T else 0) = Z.max 0 (A - T)).
  { unfold SizeT.sub. destruct (Z.gtb_spec A T).
    - rewrite wrap_small by lia. lia.
    - lia. }
  rewrite Hmin.
  assert (Hsa : 0 <= slack_avg) by apply evac_slack_nonneg.
  assert (Hss : 0 <= slack_spike).
  { subst slack_spike. destruct (is_spiking _ _ _);
      [apply evac_slack_nonneg | exact Hsa]. }
  split; [lia |]. split; [lia |]. split; [lia |].
  intro Hbudget.
  assert (Hz : slack_avg = 0).
  { subst slack_avg. apply evac_slack_zero.
    unfold avg_cycle_time, avg_alloc_rate in Hbudget. exact Hbudget. }
  lia.
Qed.

End MoreRunwayFacts.


(** ** The collection-set chooser, continued *)

Lemma skipn_length_app {A : Type} (l a : list A) : skipn (length l) (l ++ a) = a.
Proof. induction l as [| x l IH]; [reflexivity | exact IH]. Qed.

Lemma Zsum_app (l1 l2 : list Z) : Zsum (l1 ++ l2) = Zsum l1 + Zsum l2.
Proof.
  unfold Zsum. induction l1 as [| x l1 IH]; cbn [app fold_right];
    [reflexivity | rewrite IH; lia].
Qed.

Lemma live_bytes_app (l1 l2 : list ShenandoahHeapRegion) :
  live_bytes (l1 ++ l2) = live_bytes l1 + live_bytes l2.
Proof. unfold live_bytes. rewrite map_app. apply Zsum_app. Qed.

Lemma live_bytes_nonneg (bound : Z) (data : list RegionData) :
  live_sizes_fit bound data -> 0 <= live_bytes (map _region data).
Proof.
  unfold live_bytes, Zsum.
  induction 1 as [| d rest [Hd _] _ IH]; cbn [map fold_right]; lia.
Qed.

Lemma add_exact (bound cc live : Z) :
  0 <= cc <= bound -> 0 <= live -> bound + live < SizeT.modulus ->
  SizeT.add cc live = cc + live.
Proof. intros Hc Hl Hb. unfold SizeT.add. apply wrap_small. lia. Qed.

Section WalkFacts.
Variables (max_cset : Z) (adds : Z -> ShenandoahHeapRegion -> bool).

Lemma walk_count cc cg data added :
  selection_walk max_cset adds cc cg data added ->
  forall r,
    (count_occ region_eq_dec added r
     <= count_occ region_eq_dec (map _region data) r)%nat.
Proof.
  induction 1 as [cc cg | cc cg d rest Hb | cc cg d rest added Hf Ha W IH
                  | cc cg d rest added Hf Ha W IH]; intro r; cbn.
  - lia.
  - lia.
  - specialize (IH r). destruct (region_eq_dec (_region d) r); lia.
  - specialize (IH r). destruct (region_eq_dec (_region d) r); lia.
Qed.

Lemma walk_cap cc cg data added :
  selection_walk max_cset adds cc cg data added ->
  live_sizes_fit max_cset data -> 0 <= cc <= max_cset ->
  cc + live_bytes added <= max_cset.
Proof.
  induction 1 as [cc cg | cc cg d rest Hb | cc cg d rest added Hf Ha W IH
                  | cc cg d rest added Hf Ha W IH]; intros Hfit Hcc.
  - unfold live_bytes. cbn. lia.
  - unfold live_bytes. cbn. lia.
  - inversion Hfit as [| ? ? [Hl Hb] Hrest]; subst.
    rewrite (add_exact max_cset) in Hf, IH by lia.
    change (live_bytes (_region d :: added))
      with (get_live_data_bytes (_region d) + live_bytes added).
    specialize (IH Hrest). lia.
  - inversion Hfit as [| ? ? _ Hrest]; subst. apply IH; assumption.
Qed.

End WalkFacts.

Section MoreChooserFacts.
Variable fl : Flags.

Lemma walk_worth (max_cset min_garbage : Z) cc cg data added :
  selection_walk max_cset
    (adds_below_target min_garbage (garbage_threshold fl)) cc cg data added ->
  Forall (fun r => garbage r > garbage_threshold fl \/ 0 < min_garbage) added.
Proof.
  remember (adds_below_target min_garbage (garbage_threshold fl)) as adds
    eqn:Hadds.
  induction 1 as [cc cg | cc cg d rest Hb | cc cg d rest added Hf Ha W IH
                  | cc cg d rest added Hf Ha W IH]; try constructor;
    try (apply IH; exact Hadds).
  subst adds. unfold adds_below_target in Ha.
  apply orb_prop in Ha. destruct Ha as [Hlow | Hhigh].
  - right. apply Z.ltb_lt in Hlow.
    pose proof (wrap_nonneg (cg + garbage (_region d))) as Hw.
    unfold SizeT.add in Hlow. lia.
  - left. apply Z.gtb_lt in Hhigh. lia.
Qed.

Lemma walk_complete (max_cset min_garbage : Z) cc cg data added :
  selection_walk max_cset
    (adds_below_target min_garbage (garbage_threshold fl)) cc cg data added ->
  live_sizes_fit max_cset data -> 0 <= cc ->
  cc + live_bytes (map _region data) <= max_cset ->
  forall d, In d data -> garbage (_region d) > garbage_threshold fl ->
    In (_region d) added.
Proof.
  remember (adds_below_target min_garbage (garbage_threshold fl)) as adds
    eqn:Hadds.
  induction 1 as [cc cg | cc cg d rest Hb | cc cg d rest added Hf Ha W IH
                  | cc cg d rest added Hf Ha W IH];
    intros Hfit Hcc Htotal e Hin Hg.
  - destruct Hin.
  - exfalso. inversion Hfit as [| ? ? [Hl Hbnd] Hrest]; subst.
    pose proof (live_bytes_nonneg _ _ Hrest) as Hnn.
    change (live_bytes (map _region (d :: rest)))
      with (get_live_data_bytes (_region d) + live_bytes (map _region rest))
      in Htotal.
    rewrite (add_exact max_cset) in Hb by lia. lia.
  - inversion Hfit as [| ? ? [Hl Hbnd] Hrest]; subst.
    pose proof (live_bytes_nonneg _ _ Hrest) as Hnn.
    change (live_bytes (map _region (d :: rest)))
      with (get_live_data_bytes (_region d) + live_bytes (map _region rest))
      in Htotal.
    destruct Hin as [Heq | Hin]; [subst e; left; reflexivity |].
    right. apply (IH Hrest); try assumption.
    + rewrite (add_exact max_cset) by lia. lia.
    + rewrite (add_exact max_cset) by lia. lia.
  - inversion Hfit as [| ? ? [Hl Hbnd] Hrest]; subst.
    pose proof (live_bytes_nonneg _ _ Hrest) as Hnn.
    change (live_bytes (map _region (d :: rest)))
      with (get_live_data_bytes (_region d) + live_bytes (map _region rest))
      in Htotal.
    destruct Hin as [Heq | Hin].
    + subst e. exfalso. unfold adds_below_target in Ha.
      apply orb_false_elim in Ha. destruct Ha as [_ Hhigh].
      destruct (Z.gtb_spec (garbage (_region d)) (garbage_threshold fl)); 
        [discriminate | lia].
    + apply (IH Hrest); try assumption. lia.
Qed.

Lemma regardless_needs_target (mg cyg : Z) (r : ShenandoahHeapRegion) :
  ((garbage r >? ignore_threshold fl) && (SizeT.add cyg (garbage r) <? mg))
  || (garbage r >? garbage_threshold fl) = true ->
  worth_adding fl mg r.
Proof.
  intro Hor. apply orb_prop in Hor. destruct Hor as [Hreg | Hhigh].
  - apply andb_prop in Hreg. destruct Hreg as [Hign Hlow].
    right. apply Z.gtb_lt in Hign. apply Z.ltb_lt in Hlow.
    pose proof (wrap_nonneg (cyg + garbage r)) as Hw.
    unfold SizeT.add in Hlow. lia.
  - left. apply Z.gtb_lt in Hhigh. lia.
Qed.

Lemma young_loop_facts (max_cset mg : Z) (data : list RegionData) :
  forall cc cyg cset,
  exists second,
    young_loop fl max_cset mg data cc cyg cset
    = mkCSet (is_preselected cset) (cset_regions cset ++ second)
    /\ Forall (fun r => is_preselected cset (index r) = false
                        /\ age r < InitialTenuringThreshold fl
                        /\ worth_adding fl mg r) second
    /\ (forall r,
          (count_occ region_eq_dec second r
           <= count_occ region_eq_dec (map _region data) r)%nat)
    /\ (live_sizes_fit max_cset data -> 0 <= cc <= max_cset ->
        cc + live_bytes second <= max_cset)
    /\ (live_sizes_fit max_cset data -> 0 <= cc ->
        cc + live_bytes (map _region data) <= max_cset ->
        forall d, In d data ->
          is_preselected cset (index (_region d)) = false ->
          age (_region d) < InitialTenuringThreshold fl ->
          garbage (_region d) > garbage_threshold fl ->
          In (_region d) second).
Proof.
  induction data as [| d rest IH]; intros cc cyg cset.
  - exists []. split; [cbn; rewrite app_nil_r; destruct cset; reflexivity |].
    split; [constructor |]. split; [intro r; cbn; lia |].
    split; [intros _ Hcc; unfold live_bytes; cbn; lia |].
    intros _ _ _ e Hin. destruct Hin.
  - cbn [young_loop].
    assert (Hskip :
      (is_preselected cset (index (_region d)) = false ->
       age (_region d) < InitialTenuringThreshold fl ->
       garbage (_region d) > garbage_threshold fl ->
       0 <= cc ->
       cc + get_live_data_bytes (_region d) <= max_cset ->
       0 <= get_live_data_bytes (_region d) ->
       max_cset + get_live_data_bytes (_region d) < SizeT.modulus -> False) ->
      exists second,
        young_loop fl max_cset mg rest cc cyg cset
        = mkCSet (is_preselected cset) (cset_regions cset ++ second)
        /\ Forall (fun r => is_preselected cset (index r) = false
                            /\ age r < InitialTenuringThreshold fl
                            /\ worth_adding fl mg r) second
        /\ (forall r,
              (count_occ region_eq_dec second r
               <= count_occ region_eq_dec (map _region (d :: rest)) r)%nat)
        /\ (live_sizes_fit max_cset (d :: rest) -> 0 <= cc <= max_cset ->
            cc + live_bytes second <= max_cset)
        /\ (live_sizes_fit max_cset (d :: rest) -> 0 <= cc ->
            cc + live_bytes (map _region (d :: rest)) <= max_cset ->
            forall e, In e (d :: rest) ->
              is_preselected cset (index (_region e)) = false ->
              age (_region e) < InitialTenuringThreshold fl ->
              garbage (_region e) > garbage_threshold fl ->
              In (_region e) second)).
    { intro Hno.
      destruct (IH cc cyg cset) as [second [Heq [Hall [Hcnt [Hcap Hcomp]]]]].
      exists second. split; [exact Heq |]. split; [exact Hall |].
      split; [| split].
      - intro r. specialize (Hcnt r). cbn.
        destruct (region_eq_dec (_region d) r); lia.
      - intros Hfit Hcc. inversion Hfit; subst. apply Hcap; assumption.
      - intros Hfit Hcc Htotal e Hin Hp Hage Hg.
        inversion Hfit as [| ? ? [Hl Hbnd] Hrest]; subst.
        pose proof (live_bytes_nonneg _ _ Hrest) as Hnn.
        change (live_bytes (map _region (d :: rest)))
          with (get_live_data_bytes (_region d) + live_bytes (map _region rest))
          in Htotal.
        destruct Hin as [Heq' | Hin].
        + subst e. exfalso. apply Hno; try assumption. lia.
        + apply (Hcomp Hrest Hcc); try assumption. lia. }
    destruct (is_preselected cset (index (_region d))) eqn:Hp;
      [apply Hskip; intros; discriminate |].
    destruct (Z.ltb_spec (age (_region d)) (InitialTenuringThreshold fl))
      as [Hage | Hage]; [| apply Hskip; intros; lia].
    match goal with |- context [if ?b then _ else _] => destruct b eqn:Etest end.
    + apply andb_prop in Etest. destruct Etest as [Hle Hor].
      apply Z.leb_le in Hle. apply regardless_needs_target in Hor.
      destruct (IH (SizeT.add cc (get_live_data_bytes (_region d)))
                   (SizeT.add cyg (garbage (_region d)))
                   (add_region (_region d) cset))
        as [second [Heq [Hall [Hcnt [Hcap Hcomp]]]]].
      exists (_region d :: second). split; [| split; [| split; [| split]]].
      * rewrite Heq. cbn. rewrite <- app_assoc. reflexivity.
      * constructor; [split; [exact Hp | split; [exact Hage | exact Hor]] |].
        exact Hall.
      * intro r. specialize (Hcnt r). cbn.
        destruct (region_eq_dec (_region d) r); lia.
      * intros Hfit Hcc. inversion Hfit as [| ? ? [Hl Hbnd] Hrest]; subst.
        rewrite (add_exact max_cset) in Hle, Hcap by lia.
        change (live_bytes (_region d :: second))
          with (get_live_data_bytes (_region d) + live_bytes second).
        specialize (Hcap Hrest). lia.
      * intros Hfit Hcc Htotal e Hin Hpe Hagee Hg.
        inversion Hfit as [| ? ? [Hl Hbnd] Hrest]; subst.
        pose proof (live_bytes_nonneg _ _ Hrest) as Hnn.
        change (live_bytes (map _region (d :: rest)))
          with (get_live_data_bytes (_region d) + live_bytes (map _region rest))
          in Htotal.
        destruct Hin as [Heq' | Hin]; [subst e; left; reflexivity |].
        right. apply (Hcomp Hrest); try assumption.
        -- rewrite (add_exact max_cset) by lia. lia.
        -- rewrite (add_exact max_cset) by lia. lia.
    + apply Hskip. intros _ _ Hg Hcc Hfits Hl Hbnd.
      apply andb_false_iff in Etest. destruct Etest as [Hle | Hor].
      * apply Z.leb_gt in Hle. rewrite (add_exact max_cset) in Hle by lia. lia.
      * apply orb_false_elim in Hor. destruct Hor as [_ Hhigh].
        destruct (Z.gtb_spec (garbage (_region d)) (garbage_threshold fl));
          [discriminate | lia].
Qed.

Lemma global_loop_facts (max_young max_old mg : Z) (data : list RegionData) :
  forall yc oc cyg cset,
  exists second,
    global_loop fl max_young max_old mg data yc oc cyg cset
    = mkCSet (is_preselected cset) (cset_regions cset ++ second)
    /\ Forall (fun r => is_preselected cset (index r) = false
                        /\ (is_old r = true -> garbage r > garbage_threshold fl)
                        /\ (is_old r = false ->
                            age r < InitialTenuringThreshold fl
                            /\ worth_adding fl mg r)) second
    /\ (forall r,
          (count_occ region_eq_dec second r
           <= count_occ region_eq_dec (map _region data) r)%nat)
    /\ (live_sizes_fit max_young data -> live_sizes_fit max_old data ->
        0 <= yc <= max_young -> 0 <= oc <= max_old ->
        yc + live_bytes (filter (fun r => negb (is_old r)) second) <= max_young
        /\ oc + live_bytes (filter is_old second) <= max_old)
    /\ (live_sizes_fit max_young data -> live_sizes_fit max_old data ->
        0 <= yc -> 0 <= oc ->
        yc + live_bytes (map _region data) <= max_young ->
        oc + live_bytes (map _region data) <= max_old ->
        forall d, In d data ->
          is_preselected cset (index (_region d)) = false ->
          is_old (_region d) = true
          \/ age (_region d) < InitialTenuringThreshold fl ->
          garbage (_region d) > garbage_threshold fl ->
          In (_region d) second).
Proof.
  induction data as [| d rest IH]; intros yc oc cyg cset.
  - exists []. split; [cbn; rewrite app_nil_r; destruct cset; reflexivity |].
    split; [constructor |]. split; [intro r; cbn; lia |].
    split; [intros _ _ Hyc Hoc; unfold live_bytes; cbn; lia |].
    intros _ _ _ _ _ _ e Hin. destruct Hin.
  - cbn [global_loop].
    assert (Hskip :
      (is_preselected cset (index (_region d)) = false ->
       is_old (_region d) = true
       \/ age (_region d) < InitialTenuringThreshold fl ->
       garbage (_region d) > garbage_threshold fl ->
       0 <= yc -> 0 <= oc ->
       yc + get_live_data_bytes (_region d) <= max_young ->
       oc + get_live_data_bytes (_region d) <= max_old ->
       0 <= get_live_data_bytes (_region d) ->
       max_young + get_live_data_bytes (_region d) < SizeT.modulus ->
       max_old + get_live_data_bytes (_region d) < SizeT.modulus -> False) ->
      exists second,
        global_loop fl max_young max_old mg rest yc oc cyg cset
        = mkCSet (is_preselected cset) (cset_regions cset ++ second)
        /\ Forall (fun r => is_preselected cset (index r) = false
                            /\ (is_old r = true ->
                                garbage r > garbage_threshold fl)
                            /\ (is_old r = false ->
                                age r < InitialTenuringThreshold fl
                                /\ worth_adding fl mg r)) second
        /\ (forall r,
              (count_occ region_eq_dec second r
               <= count_occ region_eq_dec (map _region (d :: rest)) r)%nat)
        /\ (live_sizes_fit max_young (d :: rest) ->
            live_sizes_fit max_old (d :: rest) ->
            0 <= yc <= max_young -> 0 <= oc <= max_old ->
            yc + live_bytes (filter (fun r => negb (is_old r)) second)
              <= max_young
            /\ oc + live_bytes (filter is_old second) <= max_old)
        /\ (live_sizes_fit max_young (d :: rest) ->
            live_sizes_fit max_old (d :: rest) ->
            0 <= yc -> 0 <= oc ->
            yc + live_bytes (map _region (d :: rest)) <= max_young ->
            oc + live_bytes (map _region (d :: rest)) <= max_old ->
            forall e, In e (d :: rest) ->
              is_preselected cset (index (_region e)) = false ->
              is_old (_region e) = true
              \/ age (_region e) < InitialTenuringThreshold fl ->
              garbage (_region e) > garbage_threshold fl ->
              In (_region e) second)).
    { intro Hno.
      destruct (IH yc oc cyg cset) as [second [Heq [Hall [Hcnt [Hcap Hcomp]]]]].
      exists second. split; [exact Heq |]. split; [exact Hall |].
      split; [| split].
      - intro r. specialize (Hcnt r). cbn.
        destruct (region_eq_dec (_region d) r); lia.
      - intros Hfy Hfo Hyc Hoc. inversion Hfy; inversion Hfo; subst.
        apply Hcap; assumption.
      - intros Hfy Hfo Hyc Hoc Hty Hto e Hin Hp Hkind Hg.
        inversion Hfy as [| ? ? [Hl Hby] Hry]; subst.
        inversion Hfo as [| ? ? [_ Hbo] Hro]; subst.
        pose proof (live_bytes_nonneg _ _ Hry) as Hnn.
        change (live_bytes (map _region (d :: rest)))
          with (get_live_data_bytes (_region d) + live_bytes (map _region rest))
          in Hty, Hto.
        destruct Hin as [Heq' | Hin].
        + subst e. exfalso. apply Hno; try assumption; lia.
        + apply (Hcomp Hry Hro Hyc Hoc); try assumption; lia. }
    destruct (is_preselected cset (index (_region d))) eqn:Hp;
      [apply Hskip; intros; discriminate |].
    destruct (is_old (_region d)) eqn:Hold.
    + match goal with |- context [if ?b then _ else _] => destruct b eqn:Etest end.
      * apply andb_prop in Etest. destruct Etest as [Hle Hhigh].
        apply Z.leb_le in Hle. apply Z.gtb_lt in Hhigh.
        destruct (IH yc (SizeT.add oc (get_live_data_bytes (_region d))) cyg
                     (add_region (_region d) cset))
          as [second [Heq [Hall [Hcnt [Hcap Hcomp]]]]].
        exists (_region d :: second). split; [| split; [| split; [| split]]].
        -- rewrite Heq. cbn. rewrite <- app_assoc. reflexivity.
        -- constructor; [| exact Hall].
           split; [exact Hp |]. split; [intros _; lia | congruence].
        -- intro r. specialize (Hcnt r). cbn.
           destruct (region_eq_dec (_region d) r); lia.
        -- intros Hfy Hfo Hyc Hoc.
           inversion Hfy as [| ? ? _ Hry]; subst.
           inversion Hfo as [| ? ? [Hl Hbo] Hro]; subst.
           rewrite (add_exact max_old) in Hle, Hcap by lia.
           cbn [filter]. rewrite Hold. cbn [negb].
           change (live_bytes (_region d :: filter is_old second))
             with (get_live_data_bytes (_region d)
                   + live_bytes (filter is_old second)).
           specialize (Hcap Hry Hro Hyc). lia.
        -- intros Hfy Hfo Hyc Hoc Hty Hto e Hin Hpe Hkind Hg.
           inversion Hfy as [| ? ? [Hl Hby] Hry]; subst.
           inversion Hfo as [| ? ? [_ Hbo] Hro]; subst.
           pose proof (live_bytes_nonneg _ _ Hry) as Hnn.
           change (live_bytes (map _region (d :: rest)))
             with (get_live_data_bytes (_region d)
                   + live_bytes (map _region rest)) in Hty, Hto.
           destruct Hin as [Heq' | Hin]; [subst e; left; reflexivity |].
           right. apply (Hcomp Hry Hro Hyc); try assumption.
           ++ rewrite (add_exact max_old) by lia. lia.
           ++ lia.
           ++ rewrite (add_exact max_old) by lia. lia.
      * apply Hskip. intros _ _ Hg Hyc Hoc Hfy Hfo Hl Hby Hbo.
        apply andb_false_iff in Etest. destruct Etest as [Hle | Hhigh].
        -- apply Z.leb_gt in Hle. rewrite (add_exact max_old) in Hle by lia. lia.
        -- destruct (Z.gtb_spec (garbage (_region d)) (garbage_threshold fl));
             [discriminate | lia].
    + destruct (Z.ltb_spec (age (_region d)) (InitialTenuringThreshold fl))
        as [Hage | Hage];
        [| apply Hskip; intros _ [Hx | Hx]; [discriminate | lia]].
      match goal with |- context [if ?b then _ else _] => destruct b eqn:Etest end.
      * apply andb_prop in Etest. destruct Etest as [Hle Hor].
        apply Z.leb_le in Hle. apply regardless_needs_target in Hor.
        destruct (IH (SizeT.add yc (get_live_data_bytes (_region d))) oc
                     (SizeT.add cyg (garbage (_region d)))
                     (add_region (_region d) cset))
          as [second [Heq [Hall [Hcnt [Hcap Hcomp]]]]].
        exists (_region d :: second). split; [| split; [| split; [| split]]].
        -- rewrite Heq. cbn. rewrite <- app_assoc. reflexivity.
        -- constructor; [| exact Hall].
           split; [exact Hp |]. split; [congruence |].
           intros _. split; assumption.
        -- intro r. specialize (Hcnt r). cbn.
           destruct (region_eq_dec (_region d) r); lia.
        -- intros Hfy Hfo Hyc Hoc.
           inversion Hfy as [| ? ? [Hl Hby] Hry]; subst.
           inversion Hfo as [| ? ? _ Hro]; subst.
           rewrite (add_exact max_young) in Hle, Hcap by lia.
           cbn [filter]. rewrite Hold. cbn [negb].
           change (live_bytes
                     (_region d :: filter (fun r => negb (is_old r)) second))
             with (get_live_data_bytes (_region d)
                   + live_bytes (filter (fun r => negb (is_old r)) second)).
           assert (Hyc' : 0 <= yc + get_live_data_bytes (_region d) <= max_young)
             by lia.
           specialize (Hcap Hry Hro Hyc' Hoc). lia.
        -- intros Hfy Hfo Hyc Hoc Hty Hto e Hin Hpe Hkind Hg.
           inversion Hfy as [| ? ? [Hl Hby] Hry]; subst.
           inversion Hfo as [| ? ? [_ Hbo] Hro]; subst.
           pose proof (live_bytes_nonneg _ _ Hry) as Hnn.
           change (live_bytes (map _region (d :: rest)))
             with (get_live_data_bytes (_region d)
                   + live_bytes (map _region rest)) in Hty, Hto.
           destruct Hin as [Heq' | Hin]; [subst e; left; reflexivity |].
           right. apply (Hcomp Hry Hro); try assumption.
           ++ rewrite (add_exact max_young) by lia. lia.
           ++ rewrite (add_exact max_young) by lia. lia.
           ++ lia.
      * apply Hskip. intros _ _ Hg Hyc Hoc Hfy Hfo Hl Hby Hbo.
        apply andb_false_iff in Etest. destruct Etest as [Hle | Hor].
        -- apply Z.leb_gt in Hle.
           rewrite (add_exact max_young) in Hle by lia. lia.
        -- apply orb_false_elim in Hor. destruct Hor as [_ Hhigh].
           destruct (Z.gtb_spec (garbage (_region d)) (garbage_threshold fl));
             [discriminate | lia].
Qed.

Lemma nongen_added (c : Collab) (cset : ShenandoahCollectionSet)
    (data : list RegionData) (actual_free : Z) :
  mode_is_generational c = false ->
  let result := choose_collection_set_from_regiondata fl c cset data actual_free in
  cset_regions result = cset_regions cset ++ added_regions cset result
  /\ is_preselected result = is_preselected cset
  /\ selection_walk (nongen_max_cset fl c)
       (adds_below_target (chooser_min_garbage fl c actual_free)
          (garbage_threshold fl))
       0 0 (sort_by_garbage data) (added_regions cset result).
Proof.
  intros Hmode result. subst result.
  unfold choose_collection_set_from_regiondata, chooser_min_garbage, added_regions.
  rewrite Hmode.
  destruct (nongen_loop_walk fl (nongen_max_cset fl c)
              (min_garbage_of (nongen_free_target fl c) actual_free)
              (sort_by_garbage data) 0 0 cset) as [added [Heq Hwalk]].
  rewrite Heq. cbn [snd cset_regions is_preselected].
  rewrite skipn_length_app.
  split; [reflexivity |]. split; [reflexivity | exact Hwalk].
Qed.

Lemma generational_second (c : Collab) (cset : ShenandoahCollectionSet)
    (data : list RegionData) (actual_free : Z) :
  mode_is_generational c = true ->
  let result := choose_collection_set_from_regiondata fl c cset data actual_free in
  let sorted := sort_by_garbage data in
  let mg := chooser_min_garbage fl c actual_free in
  exists second,
    result = mkCSet (is_preselected cset)
               (cset_regions cset ++ preselected_regions cset sorted ++ second)
    /\ (gen_is_global c = false ->
        Forall (fun r => is_preselected cset (index r) = false
                         /\ age r < InitialTenuringThreshold fl
                         /\ worth_adding fl mg r) second
        /\ (live_sizes_fit (young_max_cset fl c) sorted ->
            0 <= young_max_cset fl c ->
            live_bytes second <= young_max_cset fl c)
        /\ (live_sizes_fit (young_max_cset fl c) sorted ->
            live_bytes (map _region sorted) <= young_max_cset fl c ->
            forall d, In d sorted ->
              is_preselected cset (index (_region d)) = false ->
              age (_region d) < InitialTenuringThreshold fl ->
              garbage (_region d) > garbage_threshold fl ->
              In (_region d) second))
    /\ (gen_is_global c = true ->
        Forall (fun r => is_preselected cset (index r) = false
                         /\ (is_old r = true -> garbage r > garbage_threshold fl)
                         /\ (is_old r = false ->
                             age r < InitialTenuringThreshold fl
                             /\ worth_adding fl mg r)) second
        /\ (live_sizes_fit (young_max_cset fl c) sorted ->
            live_sizes_fit (old_max_cset fl c) sorted ->
            0 <= young_max_cset fl c -> 0 <= old_max_cset fl c ->
            live_bytes (filter (fun r => negb (is_old r)) second)
              <= young_max_cset fl c
            /\ live_bytes (filter is_old second) <= old_max_cset fl c)
        /\ (live_sizes_fit (young_max_cset fl c) sorted ->
            live_sizes_fit (old_max_cset fl c) sorted ->
            live_bytes (map _region sorted) <= young_max_cset fl c ->
            live_bytes (map _region sorted) <= old_max_cset fl c ->
            forall d, In d sorted ->
              is_preselected cset (index (_region d)) = false ->
              is_old (_region d) = true
              \/ age (_region d) < InitialTenuringThreshold fl ->
              garbage (_region d) > garbage_threshold fl ->
              In (_region d) second))
    /\ (forall r,
          (count_occ region_eq_dec second r
           <= count_occ region_eq_dec (map _region sorted) r)%nat)
    /\ Forall (fun r => is_preselected cset (index r) = false) second.
Proof.
  intros Hmode result sorted mg. subst result mg.
  unfold choose_collection_set_from_regiondata, chooser_min_garbage.
  rewrite Hmode. fold sorted. rewrite preselected_loop_spec.
  fold (young_max_cset fl c). fold (old_max_cset fl c).
  destruct (gen_is_global c).
  - match goal with |- context [global_loop fl ?a ?b ?m sorted ?y ?o ?g ?cs] =>
      destruct (global_loop_facts a b m sorted y o g cs)
        as [second [Heq [Hall [Hcnt [Hcap Hcomp]]]]]
    end.
    exists second. rewrite Heq. cbn [cset_regions is_preselected] in *.
    rewrite <- app_assoc.
    split; [reflexivity |]. split; [intro Hx; discriminate Hx |].
    split; [| split; [exact Hcnt |]].
    + intros _. split; [exact Hall |]. split.
      * intros Hfy Hfo Hy Ho.
        specialize (Hcap Hfy Hfo (conj (Z.le_refl 0) Hy) (conj (Z.le_refl 0) Ho)).
        lia.
      * intros Hfy Hfo Hty Hto. apply (Hcomp Hfy Hfo); lia.
    + eapply Forall_impl; [| exact Hall]. intros r [Hp _]. exact Hp.
  - match goal with |- context [young_loop fl ?a ?m sorted ?y ?g ?cs] =>
      destruct (young_loop_facts a m sorted y g cs)
        as [second [Heq [Hall [Hcnt [Hcap Hcomp]]]]]
    end.
    exists second. rewrite Heq. cbn [cset_regions is_preselected] in *.
    rewrite <- app_assoc.
    split; [reflexivity |].
    split; [| split; [intro Hx; discriminate Hx | split; [exact Hcnt |]]].
    + intros _. split; [exact Hall |]. split.
      * intros Hfy Hy. specialize (Hcap Hfy (conj (Z.le_refl 0) Hy)). lia.
      * intros Hfy Hty. apply (Hcomp Hfy); lia.
    + eapply Forall_impl; [| exact Hall]. intros r [Hp _]. exact Hp.
Qed.

Lemma count_occ_filter_le (p : ShenandoahHeapRegion -> bool)
    (l : list ShenandoahHeapRegion) (r : ShenandoahHeapRegion) :
  (count_occ region_eq_dec (filter p l) r <= count_occ region_eq_dec l r)%nat.
Proof.
  induction l as [| x l IH]; [cbn; lia |].
  cbn [filter]. destruct (p x); cbn [count_occ];
    destruct (region_eq_dec x r); lia.
Qed.

Lemma count_occ_filter_false (p : ShenandoahHeapRegion -> bool)
    (l : list ShenandoahHeapRegion) (r : ShenandoahHeapRegion) :
  p r = false -> count_occ region_eq_dec (filter p l) r = 0%nat.
Proof.
  intro Hp. apply count_occ_not_In. intro Hin.
  apply filter_In in Hin. destruct Hin as [_ Hx]. congruence.
Qed.

Lemma sorted_regions_perm (data : list RegionData) :
  Permutation (map _region (sort_by_garbage data)) (map _region data).
Proof. apply Permutation_map, Permutation_sym, sort_by_garbage_perm. Qed.

Lemma chooser_added_count (c : Collab) (cset : ShenandoahCollectionSet)
    (data : list RegionData) (actual_free : Z) :
  let result := choose_collection_set_from_regiondata fl c cset data actual_free in
  cset_regions result = cset_regions cset ++ added_regions cset result
  /\ is_preselected result = is_preselected cset
  /\ forall r,
       (count_occ region_eq_dec (added_regions cset result) r
        <= count_occ region_eq_dec (map _region data) r)%nat.
Proof.
  intro result.
  assert (Hsorted : forall r,
    count_occ region_eq_dec (map _region (sort_by_garbage data)) r
    = count_occ region_eq_dec (map _region data) r).
  { intro r. apply (proj1 (Permutation_count_occ region_eq_dec _ _)).
    apply sorted_regions_perm. }
  destruct (mode_is_generational c) eqn:Hmode.
  - destruct (generational_second c cset data actual_free Hmode)
      as [second [Heq [_ [_ [Hcnt Hnp]]]]].
    fold result in Heq. unfold added_regions. rewrite Heq.
    cbn [cset_regions is_preselected]. rewrite skipn_length_app.
    split; [reflexivity |]. split; [reflexivity |].
    intro r. rewrite count_occ_app, <- Hsorted. specialize (Hcnt r).
    destruct (is_preselected cset (index r)) eqn:Hp.
    + replace (count_occ region_eq_dec second r) with 0%nat.
      * pose proof (count_occ_filter_le
                      (fun r0 => is_preselected cset (index r0))
                      (map _region (sort_by_garbage data)) r) as Hle.
        unfold preselected_regions. lia.
      * symmetry. apply count_occ_not_In. intro Hin.
        rewrite Forall_forall in Hnp. specialize (Hnp r Hin). congruence.
    + unfold preselected_regions.
      rewrite (count_occ_filter_false
                 (fun r0 => is_preselected cset (index r0)) _ r Hp).
      lia.
  - destruct (nongen_added c cset data actual_free Hmode) as [Heq [Hpre Hwalk]].
    fold result in Heq, Hpre, Hwalk.
    split; [exact Heq |]. split; [exact Hpre |].
    intro r. rewrite <- Hsorted.
    apply (walk_count _ _ _ _ _ _ Hwalk).
Qed.

(** X17.  The chooser only adds: the regions already in the collection set
    stay where they are and the preselection is not changed.  It adds
    regions of the candidate array only, none more often than the array lists
    it, so from an array without duplicates no region is added twice, and
    from an empty array nothing is added. *)
Theorem chooser_adds_candidates_once (c : Collab)
    (cset : ShenandoahCollectionSet) (data : list RegionData) (actual_free : Z) :
  let result := choose_collection_set_from_regiondata fl c cset data actual_free in
  let added := added_regions cset result in
  cset_regions result = cset_regions cset ++ added
  /\ is_preselected result = is_preselected cset
  /\ (forall r, In r added -> In r (map _region data))
  /\ (forall r,
        (count_occ region_eq_dec added r
         <= count_occ region_eq_dec (map _region data) r)%nat)
  /\ (NoDup (map _region data) -> NoDup added)
  /\ (data = [] -> added = []).
Proof.
  intros result added.
  destruct (chooser_added_count c cset data actual_free) as [Heq [Hpre Hcnt]].
  fold result in Heq, Hpre, Hcnt. fold added in Heq, Hcnt.
  split; [exact Heq |]. split; [exact Hpre |].
  split; [| split; [exact Hcnt | split]].
  - intros r Hin. apply (count_occ_In region_eq_dec) in Hin.
    apply (count_occ_In region_eq_dec). specialize (Hcnt r). lia.
  - intro Hnd. apply (NoDup_count_occ region_eq_dec). intro r.
    pose proof (proj1 (NoDup_count_occ region_eq_dec _) Hnd r) as H1.
    specialize (Hcnt r). lia.
  - intro Hnil. subst data. apply (count_occ_inv_nil region_eq_dec).
    intro r. specialize (Hcnt r). cbn in Hcnt. lia.
Qed.

Lemma live_bytes_perm (l1 l2 : list ShenandoahHeapRegion) :
  Permutation l1 l2 -> live_bytes l1 = live_bytes l2.
Proof.
  unfold live_bytes, Zsum.
  induction 1 as [| x l1 l2 _ IH | x y l | l1 l2 l3 _ IH1 _ IH2];
    cbn [map fold_right]; lia.
Qed.

Lemma live_sizes_fit_sorted (bound : Z) (data : list RegionData) :
  live_sizes_fit bound data -> live_sizes_fit bound (sort_by_garbage data).
Proof.
  unfold live_sizes_fit. apply Permutation_Forall, sort_by_garbage_perm.
Qed.

Lemma filter_all_false {A : Type} (p : A -> bool) (l : list A) :
  Forall (fun x => p x = false) l -> filter p l = [].
Proof.
  induction 1 as [| x l Hx _ IH]; [reflexivity |].
  cbn. rewrite Hx. exact IH.
Qed.

Lemma filter_agree {A : Type} (p q : A -> bool) (l : list A) :
  Forall (fun x => p x = q x) l -> filter p l = filter q l.
Proof.
  induction 1 as [| x l Hx _ IH]; [reflexivity |].
  cbn. rewrite Hx, IH. reflexivity.
Qed.

Lemma filter_all_true {A : Type} (p : A -> bool) (l : list A) :
  Forall (fun x => p x = true) l -> filter p l = l.
Proof.
  induction 1 as [| x l Hx _ IH]; [reflexivity |].
  cbn. rewrite Hx, IH. reflexivity.
Qed.

Lemma preselected_regions_all (cset : ShenandoahCollectionSet)
    (data : list RegionData) :
  Forall (fun r => is_preselected cset (index r) = true)
    (preselected_regions cset data).
Proof.
  apply Forall_forall. intros r Hin. unfold preselected_regions in Hin.
  apply filter_In in Hin. apply Hin.
Qed.

Lemma filter_second_pass (cset : ShenandoahCollectionSet)
    (q : ShenandoahHeapRegion -> bool) (first second : list ShenandoahHeapRegion) :
  Forall (fun r => is_preselected cset (index r) = true) first ->
  Forall (fun r => is_preselected cset (index r) = false) second ->
  filter (fun r => not_preselected cset r && q r) (first ++ second)
  = filter q second.
Proof.
  intros Hf Hs. rewrite filter_app.
  rewrite (filter_all_false _ first).
  - cbn. apply filter_agree. eapply Forall_impl; [| exact Hs].
    intros r Hr. unfold not_preselected. rewrite Hr. reflexivity.
  - eapply Forall_impl; [| exact Hf].
    intros r Hr. unfold not_preselected. rewrite Hr. reflexivity.
Qed.

(** X18.  The live bytes chosen for evacuation stay within the reserve: in
    non-generational mode the live bytes of the regions added are at most
    [max_cset]; in a young collection those of the added regions that are not
    preselected are at most [max_cset]; in a global collection those of the
    young ones are at most [max_young_cset] and those of the old ones at most
    [max_old_cset].  Preselected regions are not counted. *)
Theorem evacuated_live_bytes_within_reserve (c : Collab)
    (cset : ShenandoahCollectionSet) (data : list RegionData) (actual_free : Z) :
  let added :=
    added_regions cset
      (choose_collection_set_from_regiondata fl c cset data actual_free) in
  (mode_is_generational c = false ->
   0 <= nongen_max_cset fl c -> live_sizes_fit (nongen_max_cset fl c) data ->
   live_bytes added <= nongen_max_cset fl c)
  /\ (mode_is_generational c = true -> gen_is_global c = false ->
      0 <= young_max_cset fl c -> live_sizes_fit (young_max_cset fl c) data ->
      live_bytes (filter (not_preselected cset) added)
      <= young_max_cset fl c)
  /\ (mode_is_generational c = true -> gen_is_global c = true ->
      0 <= young_max_cset fl c -> 0 <= old_max_cset fl c ->
      live_sizes_fit (young_max_cset fl c) data ->
      live_sizes_fit (old_max_cset fl c) data ->
      live_bytes
        (filter (fun r => not_preselected cset r && negb (is_old r)) added)
      <= young_max_cset fl c
      /\ live_bytes (filter (fun r => not_preselected cset r && is_old r) added)
         <= old_max_cset fl c).
Proof.
  intro added. split; [| split].
  - intros Hmode Hmax Hfit.
    destruct (nongen_added c cset data actual_free Hmode) as [_ [_ Hwalk]].
    fold added in Hwalk.
    pose proof (walk_cap _ _ _ _ _ _ Hwalk (live_sizes_fit_sorted _ _ Hfit)) as Hc.
    specialize (Hc (conj (Z.le_refl 0) Hmax)). lia.
  - intros Hmode Hglobal Hmax Hfit.
    destruct (generational_second c cset data actual_free Hmode)
      as [second [Heq [Hyoung [_ [_ Hnp]]]]].
    subst added. unfold added_regions. rewrite Heq.
    cbn [cset_regions]. rewrite skipn_length_app.
    rewrite (filter_agree (not_preselected cset)
               (fun r => not_preselected cset r && true))
      by (apply Forall_forall; intros r _; rewrite andb_true_r; reflexivity).
    rewrite (filter_second_pass cset (fun _ => true) _ second
               (preselected_regions_all cset _) Hnp).
    rewrite (filter_all_true (fun _ => true))
      by (apply Forall_forall; reflexivity).
    destruct (Hyoung Hglobal) as [_ [Hcap _]].
    apply Hcap; [apply live_sizes_fit_sorted; exact Hfit | exact Hmax].
  - intros Hmode Hglobal Hymax Homax Hfy Hfo.
    destruct (generational_second c cset data actual_free Hmode)
      as [second [Heq [_ [Hglob [_ Hnp]]]]].
    subst added. unfold added_regions. rewrite Heq.
    cbn [cset_regions]. rewrite skipn_length_app.
    rewrite (filter_second_pass cset (fun r => negb (is_old r)) _ second
               (preselected_regions_all cset _) Hnp).
    rewrite (filter_second_pass cset is_old _ second
               (preselected_regions_all cset _) Hnp).
    destruct (Hglob Hglobal) as [_ [Hcap _]].
    apply Hcap; try assumption; apply live_sizes_fit_sorted; assumption.
Qed.

(** X19.  The garbage threshold is soft only while the free target is not
    met: every region added, unless it was preselected in a generational
    mode, has more garbage than [garbage_threshold], or was added while
    [min_garbage] was still positive, and then, in the generational modes,
    with more garbage than [ignore_threshold].  So when [min_garbage] is 0
    no region at or below the garbage threshold is added. *)
Theorem garbage_threshold_is_soft (c : Collab) (cset : ShenandoahCollectionSet)
    (data : list RegionData) (actual_free : Z) :
  let added :=
    added_regions cset
      (choose_collection_set_from_regiondata fl c cset data actual_free) in
  let min_garbage := chooser_min_garbage fl c actual_free in
  let generational := mode_is_generational c in
  Forall (fun r =>
            (generational = true /\ is_preselected cset (index r) = true)
            \/ garbage r > garbage_threshold fl
            \/ (0 < min_garbage
                /\ (generational = true -> garbage r > ignore_threshold fl)))
    added
  /\ (min_garbage = 0 ->
      Forall (fun r =>
                (generational = true /\ is_preselected cset (index r) = true)
                \/ garbage r > garbage_threshold fl) added).
Proof.
  intros added min_garbage generational.
  assert (Hall : Forall (fun r =>
            (generational = true /\ is_preselected cset (index r) = true)
            \/ garbage r > garbage_threshold fl
            \/ (0 < min_garbage
                /\ (generational = true -> garbage r > ignore_threshold fl)))
    added).
  { subst generational. destruct (mode_is_generational c) eqn:Hmode.
    - destruct (generational_second c cset data actual_free Hmode)
        as [second [Heq [Hyoung [Hglob _]]]].
      subst added. unfold added_regions. rewrite Heq.
      cbn [cset_regions]. rewrite skipn_length_app.
      apply Forall_app. split.
      + eapply Forall_impl; [| apply preselected_regions_all].
        intros r Hp. left. split; [reflexivity | exact Hp].
      + fold min_garbage in Hyoung, Hglob.
        destruct (gen_is_global c).
        * destruct (Hglob eq_refl) as [Hs _].
          eapply Forall_impl; [| exact Hs].
          intros r [_ [Hold Hyoung']]. right.
          destruct (is_old r); [left; apply Hold; reflexivity |].
          destruct (Hyoung' eq_refl) as [_ [Hhigh | [Hign Hpos]]];
            [left; exact Hhigh | right; split; [exact Hpos | intros _; exact Hign]].
        * destruct (Hyoung eq_refl) as [Hs _].
          eapply Forall_impl; [| exact Hs].
          intros r [_ [_ [Hhigh | [Hign Hpos]]]]; right;
            [left; exact Hhigh | right; split; [exact Hpos | intros _; exact Hign]].
    - destruct (nongen_added c cset data actual_free Hmode) as [_ [_ Hwalk]].
      fold added min_garbage in Hwalk.
      eapply Forall_impl; [| apply (walk_worth _ _ _ _ _ _ Hwalk)].
      intros r [Hhigh | Hpos]; right;
        [left; exact Hhigh | right; split; [exact Hpos | intro Hx; discriminate Hx]]. }
  split; [exact Hall |].
  intro Hzero. eapply Forall_impl; [| exact Hall].
  intros r [Hp | [Hhigh | [Hpos _]]]; [left; exact Hp | right; exact Hhigh | lia].
Qed.

(** X20.  In a heap that is not overloaded the cap excludes nothing: when
    the live bytes of all candidates together are within the cap (both caps
    in a global collection), every candidate with more garbage than
    [garbage_threshold] is added: all of them in non-generational mode; in
    the generational modes those that are preselected, below the tenuring
    age or, in a global collection, old. *)
Theorem unconstrained_choice_takes_all_above_threshold (c : Collab)
    (cset : ShenandoahCollectionSet) (data : list RegionData) (actual_free : Z) :
  let added :=
    added_regions cset
      (choose_collection_set_from_regiondata fl c cset data actual_free) in
  (mode_is_generational c = false ->
   live_sizes_fit (nongen_max_cset fl c) data ->
   live_bytes (map _region data) <= nongen_max_cset fl c ->
   forall d, In d data -> garbage (_region d) > garbage_threshold fl ->
     In (_region d) added)
  /\ (mode_is_generational c = true ->
      live_sizes_fit (young_max_cset fl c) data ->
      live_bytes (map _region data) <= young_max_cset fl c ->
      (gen_is_global c = true ->
       live_sizes_fit (old_max_cset fl c) data
       /\ live_bytes (map _region data) <= old_max_cset fl c) ->
      forall d, In d data -> garbage (_region d) > garbage_threshold fl ->
        is_preselected cset (index (_region d)) = true
        \/ age (_region d) < InitialTenuringThreshold fl
        \/ (gen_is_global c = true /\ is_old (_region d) = true) ->
        In (_region d) added).
Proof.
  intro added.
  assert (Hlive : live_bytes (map _region (sort_by_garbage data))
                  = live_bytes (map _region data))
    by (apply live_bytes_perm, sorted_regions_perm).
  assert (Hmem : forall d, In d data -> In d (sort_by_garbage data))
    by (intro d; apply Permutation_in, sort_by_garbage_perm).
  split.
  - intros Hmode Hfit Htotal d Hin Hg.
    destruct (nongen_added c cset data actual_free Hmode) as [_ [_ Hwalk]].
    fold added in Hwalk.
    apply (walk_complete _ _ _ _ _ _ Hwalk (live_sizes_fit_sorted _ _ Hfit));
      try assumption; try lia.
    apply Hmem. exact Hin.
  - intros Hmode Hfit Htotal Hold d Hin Hg Hkind.
    destruct (generational_second c cset data actual_free Hmode)
      as [second [Heq [Hyoung [Hglob _]]]].
    subst added. unfold added_regions. rewrite Heq.
    cbn [cset_regions]. rewrite skipn_length_app.
    apply in_or_app.
    destruct (is_preselected cset (index (_region d))) eqn:Hp.
    + left. unfold preselected_regions. apply filter_In.
      split; [apply in_map, Hmem, Hin | exact Hp].
    + right. destruct Hkind as [Hx | Hkind]; [discriminate Hx |].
      destruct (gen_is_global c) eqn:Hglobal.
      * destruct (Hold eq_refl) as [Hfo Hto].
        destruct (Hglob eq_refl) as [_ [_ Hcomp]].
        assert (Hk : is_old (_region d) = true
                     \/ age (_region d) < InitialTenuringThreshold fl).
        { destruct Hkind as [Hage | [_ Hisold]];
            [right; exact Hage | left; exact Hisold]. }
        rewrite <- Hlive in Htotal, Hto.
        exact (Hcomp (live_sizes_fit_sorted _ _ Hfit)
                 (live_sizes_fit_sorted _ _ Hfo) Htotal Hto d (Hmem d Hin)
                 Hp Hk Hg).
      * destruct (Hyoung eq_refl) as [_ [_ Hcomp]].
        assert (Hage : age (_region d) < InitialTenuringThreshold fl).
        { destruct Hkind as [Hage | [Hx _]]; [exact Hage | discriminate Hx]. }
        rewrite <- Hlive in Htotal.
        exact (Hcomp (live_sizes_fit_sorted _ _ Hfit) Htotal d (Hmem d Hin)
                 Hp Hage Hg).
Qed.

Lemma insert_at_head (d : RegionData) (l : list RegionData) :
  Forall (fun e => _garbage e <= _garbage d) l ->
  insert_by_garbage d l = d :: l.
Proof.
  intro Hall. destruct l as [| e rest]; [reflexivity |].
  inversion Hall as [| ? ? He _]; subst. cbn.
  replace (_garbage e <=? _garbage d) with true
    by (symmetry; apply Z.leb_le; exact He).
  reflexivity.
Qed.

Lemma young_entries_bounded (k : Z) (l : list RegionData) :
  Forall (fun e => _garbage e <= k) l ->
  Forall (fun e => _garbage e <= k) (young_entries l).
Proof.
  intro Hall. apply Forall_forall. intros e Hin.
  unfold young_entries in Hin. apply filter_In in Hin.
  rewrite Forall_forall in Hall. apply Hall, Hin.
Qed.

Lemma insert_young_entries (d : RegionData) (l : list RegionData) :
  garbage_descending l ->
  young_entries (insert_by_garbage d l)
  = if is_old (_region d) then young_entries l
    else insert_by_garbage d (young_entries l).
Proof.
  unfold garbage_descending.
  induction l as [| e rest IH]; intro Hs.
  - cbn. destruct (is_old (_region d)); reflexivity.
  - inversion Hs as [| ? ? Hrest Hall]; subst.
    cbn [insert_by_garbage].
    destruct (Z.leb_spec (_garbage e) (_garbage d)) as [Hle | Hgt].
    + assert (Hbound : Forall (fun x => _garbage x <= _garbage d) (e :: rest)).
      { constructor; [exact Hle |].
        eapply Forall_impl; [| exact Hall]. intros x Hx. cbn in Hx. lia. }
      change (young_entries (d :: e :: rest))
        with (if negb (is_old (_region d))
              then d :: young_entries (e :: rest)
              else young_entries (e :: rest)).
      destruct (is_old (_region d)); cbn [negb]; [reflexivity |].
      symmetry. apply insert_at_head, young_entries_bounded, Hbound.
    + change (young_entries (e :: insert_by_garbage d rest))
        with (if negb (is_old (_region e))
              then e :: young_entries (insert_by_garbage d rest)
              else young_entries (insert_by_garbage d rest)).
      change (young_entries (e :: rest))
        with (if negb (is_old (_region e))
              then e :: young_entries rest else young_entries rest).
      rewrite (IH Hrest).
      destruct (is_old (_region d)); destruct (is_old (_region e));
        cbn [negb insert_by_garbage]; try reflexivity.
      replace (_garbage e <=? _garbage d) with false
        by (symmetry; apply Z.leb_gt; exact Hgt).
      reflexivity.
Qed.

Lemma sort_young_entries (data : list RegionData) :
  sort_by_garbage (young_entries data) = young_entries (sort_by_garbage data).
Proof.
  induction data as [| d rest IH]; [reflexivity |].
  change (sort_by_garbage (d :: rest))
    with (insert_by_garbage d (sort_by_garbage rest)).
  rewrite insert_young_entries by apply sort_by_garbage_sorted.
  change (young_entries (d :: rest))
    with (if negb (is_old (_region d))
          then d :: young_entries rest else young_entries rest).
  destruct (is_old (_region d)); cbn [negb]; [exact IH |].
  change (sort_by_garbage (d :: young_entries rest))
    with (insert_by_garbage d (sort_by_garbage (young_entries rest))).
  rewrite IH. reflexivity.
Qed.

Lemma preselected_young_entries (cset : ShenandoahCollectionSet)
    (l : list RegionData) :
  Forall (fun d => is_preselected cset (index (_region d)) = true ->
                   is_old (_region d) = false) l ->
  preselected_regions cset (young_entries l) = preselected_regions cset l.
Proof.
  unfold preselected_regions, young_entries.
  induction 1 as [| d rest Hd _ IH]; [reflexivity |].
  cbn [filter map].
  destruct (is_old (_region d)) eqn:Hold; cbn [negb map filter].
  - destruct (is_preselected cset (index (_region d))) eqn:Hp.
    + specialize (Hd eq_refl). congruence.
    + exact IH.
  - rewrite IH. reflexivity.
Qed.

Lemma global_young_agree (max_young max_old mg : Z) (data : list RegionData) :
  forall yc oc cyg cs1 cs2,
    is_preselected cs1 = is_preselected cs2 ->
    exists s1 s2,
      global_loop fl max_young max_old mg data yc oc cyg cs1
      = mkCSet (is_preselected cs1) (cset_regions cs1 ++ s1)
      /\ young_loop fl max_young mg (young_entries data) yc cyg cs2
         = mkCSet (is_preselected cs2) (cset_regions cs2 ++ s2)
      /\ filter (fun r => negb (is_old r)) s1 = s2.
Proof.
  induction data as [| d rest IH]; intros yc oc cyg cs1 cs2 Hpre.
  - exists [], []. cbn. rewrite !app_nil_r.
    destruct cs1, cs2. repeat split.
  - change (young_entries (d :: rest))
      with (if negb (is_old (_region d))
            then d :: young_entries rest else young_entries rest).
    cbn [global_loop].
    destruct (is_old (_region d)) eqn:Hold; cbn [negb].
    + assert (Hadd : forall oc', exists s1 s2,
        global_loop fl max_young max_old mg rest yc oc' cyg
          (add_region (_region d) cs1)
        = mkCSet (is_preselected cs1) (cset_regions cs1 ++ s1)
        /\ young_loop fl max_young mg (young_entries rest) yc cyg cs2
           = mkCSet (is_preselected cs2) (cset_regions cs2 ++ s2)
        /\ filter (fun r => negb (is_old r)) s1 = s2).
      { intro oc'.
        destruct (IH yc oc' cyg (add_region (_region d) cs1) cs2 Hpre)
          as [s1 [s2 [H1 [H2 H3]]]].
        exists (_region d :: s1), s2. split; [| split; [exact H2 |]].
        - rewrite H1. cbn. rewrite <- app_assoc. reflexivity.
        - cbn [filter]. rewrite Hold. exact H3. }
      destruct (is_preselected cs1 (index (_region d)));
        [apply IH; exact Hpre |].
      match goal with |- context [if ?b then _ else _] => destruct b end;
        [apply Hadd | apply IH; exact Hpre].
    + cbn [young_loop].
      replace (is_preselected cs2 (index (_region d)))
        with (is_preselected cs1 (index (_region d)))
        by (rewrite Hpre; reflexivity).
      destruct (is_preselected cs1 (index (_region d)));
        [apply IH; exact Hpre |].
      destruct (age (_region d) <? InitialTenuringThreshold fl);
        [| apply IH; exact Hpre].
      match goal with |- context [if ?b then _ else _] => destruct b end;
        [| apply IH; exact Hpre].
      destruct (IH (SizeT.add yc (get_live_data_bytes (_region d))) oc
                   (SizeT.add cyg (garbage (_region d)))
                   (add_region (_region d) cs1) (add_region (_region d) cs2)
                   Hpre) as [s1 [s2 [H1 [H2 H3]]]].
      exists (_region d :: s1), (_region d :: s2).
      split; [| split].
      * rewrite H1. cbn. rewrite <- app_assoc. reflexivity.
      * rewrite H2. cbn. rewrite <- app_assoc. reflexivity.
      * cbn [filter]. rewrite Hold. cbn [negb]. rewrite H3. reflexivity.
Qed.

Lemma distinct_keys_injective (l : list RegionData) (a b : RegionData) :
  NoDup (map _garbage l) -> In a l -> In b l -> _garbage a = _garbage b -> a = b.
Proof.
  induction l as [| x rest IH]; intros Hnd Ha Hb Hk; [contradiction |].
  cbn [map] in Hnd. inversion Hnd as [| ? ? Hnotin Hrest]; subst.
  destruct Ha as [Ha | Ha]; destruct Hb as [Hb | Hb].
  - congruence.
  - subst x. exfalso. apply Hnotin. rewrite Hk. apply in_map. exact Hb.
  - subst x. exfalso. apply Hnotin. rewrite <- Hk. apply in_map. exact Ha.
  - apply IH; assumption.
Qed.

(** With pairwise distinct sort keys an array has one descending order
    only, whichever sort produces it. *)
Lemma descending_unique (l1 : list RegionData) :
  forall l2,
    NoDup (map _garbage l1) -> Permutation l1 l2 ->
    garbage_descending l1 -> garbage_descending l2 -> l1 = l2.
Proof.
  unfold garbage_descending.
  induction l1 as [| a t1 IH]; intros l2 Hnd Hperm Hs1 Hs2.
  - apply Permutation_nil in Hperm. congruence.
  - destruct l2 as [| b t2].
    + apply Permutation_sym, Permutation_nil in Hperm. discriminate Hperm.
    + inversion Hs1 as [| ? ? Hs1' Hall1]; subst.
      inversion Hs2 as [| ? ? Hs2' Hall2]; subst.
      rewrite Forall_forall in Hall1, Hall2.
      assert (Hb : In b (a :: t1))
        by (apply (Permutation_in _ (Permutation_sym Hperm)); left; reflexivity).
      assert (Ha : In a (b :: t2))
        by (apply (Permutation_in _ Hperm); left; reflexivity).
      assert (Hba : _garbage b <= _garbage a).
      { destruct Hb as [Hb | Hb]; [subst b; lia | apply Hall1; exact Hb]. }
      assert (Hab : _garbage a <= _garbage b).
      { destruct Ha as [Ha | Ha]; [subst b; lia | apply Hall2; exact Ha]. }
      assert (Heq : a = b).
      { apply (distinct_keys_injective (a :: t1));
          [exact Hnd | left; reflexivity | exact Hb | lia]. }
      subst b. f_equal.
      apply IH; try assumption.
      * cbn [map] in Hnd. inversion Hnd; assumption.
      * apply (Permutation_cons_inv Hperm).
Qed.

Lemma distinct_keys_young_entries (data : list RegionData) :
  NoDup (map _garbage data) -> NoDup (map _garbage (young_entries data)).
Proof.
  unfold young_entries.
  induction data as [| d rest IH]; intro Hnd; [constructor |].
  cbn [map] in Hnd. inversion Hnd as [| ? ? Hnotin Hrest]; subst.
  cbn [filter]. destruct (negb (is_old (_region d))); [| apply IH; exact Hrest].
  cbn [map]. constructor; [| apply IH; exact Hrest].
  intro Hin. apply Hnotin. apply in_map_iff in Hin.
  destruct Hin as [x [Hx Hinx]]. apply filter_In in Hinx.
  rewrite <- Hx. apply in_map. exact (proj1 Hinx).
Qed.

(** X21.  A global collection chooses its young regions as a young
    collection would.  With pairwise distinct sort keys the array has one
    descending order only, so the outcome does not depend on how the sort
    treats equal keys; then, when no preselected candidate is old, the
    regions added by a global collection that are not old are exactly the
    regions a young collection adds from the candidates that are not old, in
    the same order.  The old candidates draw on a budget of their own and do
    not change what is chosen among the young ones. *)
Theorem global_chooses_young_like_young_collection (c : Collab)
    (cset : ShenandoahCollectionSet) (data : list RegionData) (actual_free : Z) :
  mode_is_generational c = true -> gen_is_global c = true ->
  Forall (fun d => is_preselected cset (index (_region d)) = true ->
                   is_old (_region d) = false) data ->
  NoDup (map _garbage data) ->
  (forall sorted,
      Permutation data sorted -> garbage_descending sorted ->
      sorted = sort_by_garbage data)
  /\ (forall sorted,
        Permutation (young_entries data) sorted -> garbage_descending sorted ->
        sorted = sort_by_garbage (young_entries data))
  /\ filter (fun r => negb (is_old r))
       (added_regions cset
          (choose_collection_set_from_regiondata fl c cset data actual_free))
     = added_regions cset
         (choose_collection_set_from_regiondata fl (with_global c false) cset
            (young_entries data) actual_free).
Proof.
  intros Hmode Hglobal Hpresel Hdistinct.
  assert (Hunique : forall l sorted,
            NoDup (map _garbage l) -> Permutation l sorted ->
            garbage_descending sorted -> sorted = sort_by_garbage l).
  { intros l sorted Hnd Hperm Hdesc.
    apply descending_unique.
    - apply (Permutation_NoDup (Permutation_map _garbage Hperm)). exact Hnd.
    - apply perm_trans with l;
        [apply Permutation_sym; exact Hperm | apply sort_by_garbage_perm].
    - exact Hdesc.
    - apply sort_by_garbage_sorted. }
  split; [intros sorted; apply Hunique; exact Hdistinct |].
  split; [intros sorted; apply Hunique, distinct_keys_young_entries;
          exact Hdistinct |].
  assert (Hsorted : Forall (fun d => is_preselected cset (index (_region d)) = true
                                     -> is_old (_region d) = false)
                      (sort_by_garbage data))
    by (apply (Permutation_Forall (sort_by_garbage_perm data)); exact Hpresel).
  unfold choose_collection_set_from_regiondata, added_regions.
  cbn [mode_is_generational gen_is_global with_global young_max_capacity
       young_evac_reserve].
  rewrite Hmode, Hglobal.
  rewrite sort_young_entries, !preselected_loop_spec.
  rewrite (preselected_young_entries cset _ Hsorted).
  match goal with
  | |- context [global_loop fl ?a ?b ?m ?data ?y ?o ?g ?cs] =>
      destruct (global_young_agree a b m data y o g cs cs eq_refl)
        as [s1 [s2 [H1 [H2 H3]]]]
  end.
  rewrite H1, H2. cbn [cset_regions].
  rewrite <- !app_assoc, !skipn_length_app, filter_app.
  rewrite H3. f_equal.
  apply filter_all_true. apply Forall_forall. intros r Hin.
  unfold preselected_regions in Hin. apply filter_In in Hin.
  destruct Hin as [Hin Hp]. apply in_map_iff in Hin.
  destruct Hin as [d [Heq Hd]]. subst r.
  rewrite Forall_forall in Hsorted. rewrite (Hsorted d Hd Hp). reflexivity.
Qed.

End MoreChooserFacts.


(** * The properties at the scenario values *)

Module Instances.
Import Scenario.

(** The non-generational scenario of the spec: of the five regions, the two
    with 3 MiB of garbage and the one with 2 MiB are chosen. *)
Example s7_choice :
  map index
    (cset_regions
       (choose_collection_set_from_regiondata flags
          (collab 0 (160 * MiB) (160 * MiB)) (cset_with []) s7_data (160 * MiB)))
  = [1; 3; 4].
Proof. vm_compute. reflexivity. Qed.

(** C1: the theorem at the non-generational scenario of the spec, whose
    entries are keyed by the garbage of their regions, and the cap for a
    capacity of 368050176 bytes, a reserve of 5 and a waste of 1.2. *)
Lemma nongenerational_selection_witness :
  mode_is_generational (collab 0 (160 * MiB) (160 * MiB)) = false
  /\ keyed_by_garbage s7_data
  /\ region_garbage_descending (sort_by_garbage s7_data)
  /\ 0 <= 160 * MiB
  /\ min_garbage_of (nongen_free_target flags (collab 0 (160 * MiB) (160 * MiB)))
       (160 * MiB)
     = Z.max 0
         (nongen_free_target flags (collab 0 (160 * MiB) (160 * MiB)) - 160 * MiB)
  /\ nongen_max_cset
       (mkFlags 25 10 10 70 5 5 (12 # 10) (12 # 10) 5 7 (4 * MiB))
       (mkCollab 0 false false false 368050176 368050176 0 368050176 368050176 0
          368050176 368050176 368050176 0 0 0 0 0 0)
     = 15335423.
Proof.
  assert (Hmode : mode_is_generational (collab 0 (160 * MiB) (160 * MiB)) = false)
    by reflexivity.
  assert (Hkey : keyed_by_garbage s7_data) by (repeat constructor).
  assert (Hfree : 0 <= 160 * MiB) by (vm_compute; discriminate).
  split; [exact Hmode |]. split; [exact Hkey |].
  split; [| split; [exact Hfree |]; split].
  - exact (proj2 (proj2 (proj1
             (nongenerational_selection flags (collab 0 (160 * MiB) (160 * MiB))
                (cset_with []) s7_data (160 * MiB) Hmode))) Hkey).
  - exact (proj2 (proj2 (proj2 (proj2
             (nongenerational_selection flags (collab 0 (160 * MiB) (160 * MiB))
                (cset_with []) s7_data (160 * MiB) Hmode)))) Hfree).
  - exact (proj1 (proj2 (proj1 (proj2 (proj2
             (nongenerational_selection
                (mkFlags 25 10 10 70 5 5 (12 # 10) (12 # 10) 5 7 (4 * MiB))
                (mkCollab 0 false false false 368050176 368050176 0 368050176
                   368050176 0 368050176 368050176 368050176 0 0 0 0 0 0)
                (cset_with []) [] 0 eq_refl))))
             eq_refl eq_refl eq_refl)).
Defined.

(** C1, the walk in the spec's words: with 163 MiB free the target leaves 0.84 MiB of
    garbage to find; a region with 3 MiB live and 1 MiB of garbage fits under
    [max_cset], and nothing has been accumulated yet, so the walk of the spec
    adds it.  The chooser does not: with the region the accumulated garbage
    would be 1 MiB, which is not below 0.84 MiB, and 1 MiB does not exceed
    the threshold of 1 MiB. *)
Lemma nongenerational_selection_as_specified_fails :
  let c := collab 0 (163 * MiB) (163 * MiB) in
  let data := [entry (region 0 0 false 3 1)] in
  let min_garbage := min_garbage_of (nongen_free_target flags c) (163 * MiB) in
  cset_regions
    (choose_collection_set_from_regiondata flags c (cset_with []) data (163 * MiB))
  = []
  /\ ~ selection_walk (nongen_max_cset flags c)
         (adds_as_specified min_garbage (garbage_threshold flags)) 0 0
         (sort_by_garbage data)
         (cset_regions
            (choose_collection_set_from_regiondata flags c (cset_with []) data
               (163 * MiB))).
Proof.
  intros c data min_garbage.
  assert (Hres : cset_regions
            (choose_collection_set_from_regiondata flags c (cset_with []) data
               (163 * MiB)) = []) by (vm_compute; reflexivity).
  split; [exact Hres |].
  rewrite Hres. intro W.
  inversion W as [| cc cg d rest Hbrk | | cc cg d rest added Hfit Hadd Hrest];
    subst.
  - vm_compute in Hbrk. discriminate Hbrk.
  - vm_compute in Hadd. discriminate Hadd.
Qed.

(** C2: the minimum-threshold scenario of the spec, 50 MiB available. *)
Lemma min_free_threshold_trigger_witness :
  gen_is_old (collab 0 (50 * MiB) (50 * MiB)) = false
  /\ mutator_available (collab 0 (50 * MiB) (50 * MiB))
     < min_free_threshold flags (collab 0 (50 * MiB) (50 * MiB))
  /\ exists h',
       should_start_gc flags (heuristic 1 2 RATE []) (collab 0 (50 * MiB) (50 * MiB))
       = Some (true, h')
       /\ _last_trigger h' = OTHER.
Proof.
  assert (Hold : gen_is_old (collab 0 (50 * MiB) (50 * MiB)) = false)
    by reflexivity.
  assert (Hlow : mutator_available (collab 0 (50 * MiB) (50 * MiB))
                 < min_free_threshold flags (collab 0 (50 * MiB) (50 * MiB)))
    by (vm_compute; reflexivity).
  split; [exact Hold |]. split; [exact Hlow |].
  exact (min_free_threshold_trigger flags (heuristic 1 2 RATE [])
           (collab 0 (50 * MiB) (50 * MiB)) Hold Hlow).
Defined.

(** C3: a history of 100 and 200 bytes (mean 150, deviation 50) and 260
    bytes available give a z-score of 2.2; after a RATE trigger the margin of
    error moves from 1 to 0.978. *)
Lemma record_success_concurrent_feedback_witness :
  beyond_expected (z_score_of (mkWindowSeq 10 (1 # 2) [100 # 1; 200 # 1]) 260)
  /\ (_margin_of_error_sd
        (record_success_concurrent (heuristic 1 2 RATE [100 # 1; 200 # 1])
           (collab 0 260 300) false)
      == 978 # 1000)%Q.
Proof.
  assert (Hz : beyond_expected
                 (z_score_of (mkWindowSeq 10 (1 # 2) [100 # 1; 200 # 1]) 260))
    by (right; vm_compute; reflexivity).
  split; [exact Hz |].
  pose proof (record_success_concurrent_feedback
                (heuristic 1 2 RATE [100 # 1; 200 # 1]) (collab 0 260 300) false)
    as Hthm.
  destruct Hthm as [_ [_ [Hadj _]]].
  apply Hadj in Hz. cbn [_last_trigger heuristic] in Hz.
  destruct Hz as [Hm _]. rewrite Hm. vm_compute. reflexivity.
Defined.

(** C3, the order of the spec's sentence: with one earlier sample of 100 bytes and 200
    bytes available now, the history before the push has deviation 0, so the
    code computes a z-score of 0 and leaves the margin of error at 1; pushed
    first, the history has mean 150 and deviation 50, the z-score is 1 and
    the margin of error becomes 0.99. *)
Lemma record_success_concurrent_push_first_differs :
  let h := heuristic 1 2 RATE [100 # 1] in
  let c := collab 0 200 200 in
  (_margin_of_error_sd (record_success_concurrent h c false) == 1)%Q
  /\ (_margin_of_error_sd (record_success_concurrent_push_first h c false)
      == 99 # 100)%Q
  /\ ~ (_margin_of_error_sd (record_success_concurrent h c false)
        == _margin_of_error_sd (record_success_concurrent_push_first h c false))%Q.
Proof.
  intros h c. split; [| split].
  - vm_compute. reflexivity.
  - vm_compute. reflexivity.
  - vm_compute. discriminate.
Qed.

(** C4: both parameters stay in the interval over a run of outcomes. *)
Lemma confidence_saturation_witness :
  parameters_in_confidence (heuristic 1 2 SPIKE [100 # 1; 200 # 1])
  /\ parameters_in_confidence
       (record_outcomes (heuristic 1 2 SPIKE [100 # 1; 200 # 1])
          [FullSuccess; ConcurrentSuccess (collab 0 260 300) false;
           DegeneratedSuccess; FullSuccess]).
Proof.
  assert (Hin : parameters_in_confidence (heuristic 1 2 SPIKE [100 # 1; 200 # 1])).
  { split; split; vm_compute; discriminate. }
  split; [exact Hin |].
  exact (proj2 (proj2
           (proj2 (proj2 (proj2 (confidence_saturation
                                   (heuristic 1 2 SPIKE [100 # 1; 200 # 1]))))
              Hin 0%Q
              [FullSuccess; ConcurrentSuccess (collab 0 260 300) false;
               DegeneratedSuccess; FullSuccess]))).
Defined.

(** C5: a second call 0.05 s after the last sample, and a call one second
    later with the counter fallen from 100 to 50. *)
Lemma sample_rate_limit_and_regression_witness :
  ((1 # 20) - 0 <= 1 # 10)%Q
  /\ sample fresh_rate (1 # 20) 4096 = Some (0%Q, fresh_rate)
  /\ ((1 # 10) < 1 - 0)%Q
  /\ 50 < 100
  /\ exists ar',
       sample (mkAllocRate 0%Q 100 (1 # 10) empty_seq empty_seq) 1 50
       = Some (0%Q, ar')
       /\ _rate ar' = empty_seq
       /\ _rate_avg ar' = empty_seq
       /\ _last_sample_time ar' = 1%Q
       /\ _last_sample_value ar' = 50
       /\ _interval_sec ar' = 1 # 10.
Proof.
  assert (H1 : ((1 # 20) - 0 <= 1 # 10)%Q) by (vm_compute; discriminate).
  assert (H2 : ((1 # 10) < 1 - 0)%Q) by (vm_compute; reflexivity).
  assert (H3 : 50 < 100) by reflexivity.
  split; [exact H1 |].
  split; [exact (proj1 (sample_rate_limit_and_regression fresh_rate (1 # 20) 4096) H1) |].
  split; [exact H2 |]. split; [exact H3 |].
  exact (proj2 (sample_rate_limit_and_regression
                  (mkAllocRate 0%Q 100 (1 # 10) empty_seq empty_seq) 1 50) H2 H3).
Defined.

(** C6: one and two regions to be reclaimed with 200 MiB available; the
    penalties raised from 0 to 10 percent; the spike factor from 5 to 10. *)
Lemma runway_monotonicity_witness :
  (exists r1 r2,
      runway flags (heuristic 1 2 OTHER []) (collab 0 (200 * MiB) (200 * MiB)) 1
      = Some r1
      /\ runway flags (heuristic 1 2 OTHER []) (collab 0 (200 * MiB) (200 * MiB)) 2
         = Some r2
      /\ r1 <= r2)
  /\ (exists r r2,
         runway flags (heuristic 1 2 OTHER []) (collab 0 (200 * MiB) (200 * MiB)) 1
         = Some r
         /\ runway flags
              (set_base (heuristic 1 2 OTHER [])
                 (mkFixedBase 5 0 10 0 0 false))
              (collab 0 (200 * MiB) (200 * MiB)) 1
            = Some r2
         /\ r2 <= r)
  /\ (exists r r2,
         runway flags (heuristic 1 2 OTHER []) (collab 0 (200 * MiB) (200 * MiB)) 1
         = Some r
         /\ runway (with_alloc_spike_factor flags 10) (heuristic 1 2 OTHER [])
              (collab 0 (200 * MiB) (200 * MiB)) 1
            = Some r2
         /\ r2 <= r).
Proof.
  pose proof (runway_monotonicity flags (heuristic 1 2 OTHER [])
                (collab 0 (200 * MiB) (200 * MiB))) as [Hy [Hp Hs]].
  split; [| split].
  - apply Hy.
    + vm_compute. discriminate.
    + split; vm_compute; discriminate.
    + split; vm_compute; discriminate.
    + vm_compute. reflexivity.
  - apply Hp.
    + repeat split.
    + vm_compute. discriminate.
  - apply Hs. vm_compute. discriminate.
Defined.

(** C6, without the range condition: with nothing available, 4,096 bytes of the
    collection set's young regions counted as available and no region to be
    reclaimed, the subtraction wraps around and the runway is close to
    [2^64]; with one region to be reclaimed it is 0. *)
Lemma runway_decreases_on_wraparound :
  let c := mkCollab 0 false false false (1024 * MiB) (1024 * MiB) (1024 * MiB)
             0 0 0 0 (1024 * MiB) (1024 * MiB) (64 * MiB) (16 * MiB) 0 0 0 4096 in
  let h := heuristic 1 2 OTHER [] in
  runway flags h c 0 = Some 18446744073602173338
  /\ runway flags h c 1 = Some 0
  /\ ~ (forall r0 r1,
          runway flags h c 0 = Some r0 -> runway flags h c 1 = Some r1 ->
          r0 <= r1).
Proof.
  intros c h.
  assert (H0 : runway flags h c 0 = Some 18446744073602173338)
    by (vm_compute; reflexivity).
  assert (H1 : runway flags h c 1 = Some 0) by (vm_compute; reflexivity).
  split; [exact H0 |]. split; [exact H1 |].
  intro Hmono. specialize (Hmono _ _ H0 H1). vm_compute in Hmono.
  apply Hmono. reflexivity.
Qed.

(** C7: a young collection with region 2 preselected. *)
Lemma generational_selection_witness :
  mode_is_generational (generational_collab false) = true
  /\ exists second,
       cset_regions
         (choose_collection_set_from_regiondata flags (generational_collab false)
            (cset_with [2])
            [entry (region 1 9 false 1 3); entry (region 2 9 false 1 2);
             entry (region 3 1 false 1 3)] (512 * MiB))
       = [] ++ [region 2 9 false 1 2] ++ second
       /\ In (region 3 1 false 1 3) second.
Proof.
  assert (Hmode : mode_is_generational (generational_collab false) = true)
    by reflexivity.
  split; [exact Hmode |].
  destruct (generational_selection flags (generational_collab false)
              (cset_with [2])
              [entry (region 1 9 false 1 3); entry (region 2 9 false 1 2);
               entry (region 3 1 false 1 3)] (512 * MiB) Hmode)
    as [second [Heq _]].
  exists second. split; [exact Heq |].
  assert (Hres : cset_regions
            (choose_collection_set_from_regiondata flags (generational_collab false)
               (cset_with [2])
               [entry (region 1 9 false 1 3); entry (region 2 9 false 1 2);
                entry (region 3 1 false 1 3)] (512 * MiB))
          = [region 2 9 false 1 2; region 3 1 false 1 3])
    by (vm_compute; reflexivity).
  rewrite Hres in Heq. cbn in Heq. injection Heq as Hsecond.
  rewrite <- Hsecond. left. reflexivity.
Defined.

(** C7, without the exception for old regions: in a global collection an old region of age 9
    that is not preselected, with 3 MiB of garbage and 1 MiB live, is
    added on the old budget, although the tenuring threshold is 7. *)
Lemma aged_old_region_added_in_global :
  let r := region 0 9 true 1 3 in
  let cset := cset_with [2] in
  InitialTenuringThreshold flags <= age r
  /\ is_preselected cset (index r) = false
  /\ In r (cset_regions
             (choose_collection_set_from_regiondata flags (generational_collab true)
                cset
                [entry r; entry (region 1 9 false 1 3);
                 entry (region 2 9 false 1 2); entry (region 3 1 false 1 3)]
                (512 * MiB))).
Proof.
  intros r cset. split; [vm_compute; discriminate |].
  split; [reflexivity |].
  vm_compute. right. left. reflexivity.
Qed.

(** C8: the full-cycle scenario of the spec. *)
Lemma degenerated_and_full_penalties_witness :
  (_margin_of_error_sd (heuristic 1 2 OTHER []) == 1)%Q
  /\ (_spike_threshold_sd (heuristic 1 2 OTHER []) == 2)%Q
  /\ (_margin_of_error_sd (record_success_full (heuristic 1 2 OTHER []))
      == 120 # 100)%Q
  /\ (_spike_threshold_sd (record_success_full (heuristic 1 2 OTHER []))
      == 180 # 100)%Q.
Proof.
  assert (Hm : (_margin_of_error_sd (heuristic 1 2 OTHER []) == 1)%Q)
    by reflexivity.
  assert (Hs : (_spike_threshold_sd (heuristic 1 2 OTHER []) == 2)%Q)
    by reflexivity.
  split; [exact Hm |]. split; [exact Hs |].
  exact (proj1 (proj2 (proj2
           (degenerated_and_full_penalties (heuristic 1 2 OTHER [])))) Hm Hs).
Defined.

(** C9: the learning scenario of the spec, 600 MiB available on a fresh
    heuristic. *)
Lemma learning_trigger_witness :
  gen_is_old (collab 0 (600 * MiB) (600 * MiB)) = false
  /\ min_free_threshold flags (collab 0 (600 * MiB) (600 * MiB))
     <= mutator_available (collab 0 (600 * MiB) (600 * MiB))
  /\ gc_times_learned (base (heuristic 1 2 RATE [])) < ShenandoahLearningSteps flags
  /\ mutator_available (collab 0 (600 * MiB) (600 * MiB))
     < learning_threshold flags (collab 0 (600 * MiB) (600 * MiB))
  /\ exists h',
       should_start_gc flags (heuristic 1 2 RATE []) (collab 0 (600 * MiB) (600 * MiB))
       = Some (true, h')
       /\ _last_trigger h' = OTHER.
Proof.
  assert (Hold : gen_is_old (collab 0 (600 * MiB) (600 * MiB)) = false)
    by reflexivity.
  assert (Hmin : min_free_threshold flags (collab 0 (600 * MiB) (600 * MiB))
                 <= mutator_available (collab 0 (600 * MiB) (600 * MiB)))
    by (vm_compute; discriminate).
  assert (Hlearn : gc_times_learned (base (heuristic 1 2 RATE []))
                   < ShenandoahLearningSteps flags) by reflexivity.
  assert (Hlow : mutator_available (collab 0 (600 * MiB) (600 * MiB))
                 < learning_threshold flags (collab 0 (600 * MiB) (600 * MiB)))
    by (vm_compute; reflexivity).
  split; [exact Hold |]. split; [exact Hmin |]. split; [exact Hlearn |].
  split; [exact Hlow |].
  exact (proj1 (learning_trigger flags (heuristic 1 2 RATE [])
                  (collab 0 (600 * MiB) (600 * MiB)) Hold Hmin Hlearn) Hlow).
Defined.

(** C9, the threshold as an exact quotient: with 751,619,270 bytes available, which is
    below 70 percent of 1,024 MiB (751,619,276.8 bytes), a fresh heuristic
    still learning and past the minimum threshold does not start a cycle:
    the code's threshold is 751,619,260. *)
Lemma learning_threshold_is_not_exact :
  let c := collab 0 751619270 751619270 in
  let h := heuristic (18 # 10) (18 # 10) OTHER [] in
  gen_is_old c = false
  /\ min_free_threshold flags c <= mutator_available c
  /\ gc_times_learned (base h) < ShenandoahLearningSteps flags
  /\ 100 * mutator_available c
     < gen_soft_max_capacity c * ShenandoahInitFreeThreshold flags
  /\ option_map fst (should_start_gc flags h c) = Some false.
Proof.
  intros c h. split; [reflexivity |].
  split; [vm_compute; discriminate |].
  split; [reflexivity |].
  split; vm_compute; reflexivity.
Qed.

(** C10: 100 MiB allocated in the first second, with a sampling interval of
    0.1 s, given as such and as computed from a frequency of 10 Hz. *)
Lemma sample_total_and_nonnegative_witness :
  (0 < _interval_sec fresh_rate)%Q
  /\ PrimFloat.leb Binary64.shortest_interval (1 / 10)%float = true
  /\ 0 <= 10 < 2 ^ 64
  /\ (exists r ar',
        sample fresh_rate 1 (100 * MiB) = Some (r, ar')
        /\ (0 <= r)%Q
        /\ (r <= Double.of_size (2 ^ 65) / _interval_sec fresh_rate)%Q)
  /\ (PrimFloat.leb 0 (Binary64.sample 0 0 (1 / 10) 1 (100 * MiB)) = true
      /\ PrimFloat.ltb (Binary64.sample 0 0 (1 / 10) 1 (100 * MiB)) infinity = true)
  /\ (PrimFloat.leb 0
        (Binary64.sample 0 0 (Binary64.interval_sec 10) 1 (100 * MiB)) = true
      /\ PrimFloat.ltb
           (Binary64.sample 0 0 (Binary64.interval_sec 10) 1 (100 * MiB)) infinity
         = true).
Proof.
  assert (Hi : (0 < _interval_sec fresh_rate)%Q) by (vm_compute; reflexivity).
  assert (Hb : PrimFloat.leb Binary64.shortest_interval (1 / 10)%float = true)
    by (vm_compute; reflexivity).
  assert (Hfreq : 0 <= 10 < 2 ^ 64) by (split; [lia | reflexivity]).
  split; [exact Hi |]. split; [exact Hb |]. split; [exact Hfreq |].
  destruct (sample_total_and_nonnegative fresh_rate 1 (100 * MiB))
    as [_ [Hs [_ [Hf Hc]]]].
  destruct Hs as [r [ar' [Hs [Hpos [_ [_ [_ Hbound]]]]]]].
  split; [| split].
  - exists r, ar'. split; [exact Hs |]. split; [exact Hpos |].
    apply Hbound. exact Hi.
  - apply Hf. exact Hb.
  - apply Hc. exact Hfreq.
Defined.

End Instances.

(** * Further properties at the scenario values *)

Module MoreInstances.
Import Scenario.

(** X2: with 900 MiB available a fresh heuristic does not trigger; the RATE
    on record from an earlier call is replaced by OTHER. *)
Lemma trigger_recorded_only_when_fired_witness :
  exists h',
    should_start_gc flags (heuristic 1 2 RATE []) (collab 0 (900 * MiB) (900 * MiB))
    = Some (false, h')
    /\ _last_trigger h' = OTHER.
Proof.
  assert (E : exists h',
    should_start_gc flags (heuristic 1 2 RATE []) (collab 0 (900 * MiB) (900 * MiB))
    = Some (false, h')) by (vm_compute; eexists; reflexivity).
  destruct E as [h' E]. exists h'. split; [exact E |].
  exact (proj1 (trigger_recorded_only_when_fired flags _ _ false h' E) eq_refl).
Defined.

(** X3: an old generation with nothing available. *)
Lemma old_generation_defers_to_base_witness :
  gen_is_old old_collab = true
  /\ exists h',
       should_start_gc flags (heuristic 1 2 RATE []) old_collab
       = Some (false, h')
       /\ _last_trigger h' = OTHER.
Proof.
  split; [reflexivity |].
  exact (old_generation_defers_to_base flags (heuristic 1 2 RATE []) old_collab
           eq_refl).
Defined.

(** X4: cycle time 0.6 s, rate 300 MiB/s and 150 MiB available, with
    penalties of 10 percent and a spike headroom of 5 percent of 1 GiB: the
    headroom is 0. *)
Lemma rate_trigger_condition_witness :
  let h :=
    set_base (steady_heuristic 1 2 [MiBps 300] [MiBps 300])
      {| fb_learning_steps := 5;
         fb_times_learned := 5;
         fb_time_penalties := 10;
         fb_cycle_davg := 1 # 2;
         fb_cycle_dsd := 1 # 10;
         fb_guaranteed := false |} in
  let c := collab 0 (150 * MiB) (150 * MiB) in
  gen_is_old c = false
  /\ min_free_threshold flags c <= mutator_available c
  /\ learning_fires flags h c = false
  /\ 0 <= mutator_available c < SizeT.modulus
  /\ mutator_available c <= trigger_penalties h c + trigger_spike_headroom flags c
  /\ (0 < avg_cycle_time h)%Q
  /\ (0 < avg_alloc_rate h c)%Q
  /\ recorded_trigger flags h c = Some RATE.
Proof.
  intros h c.
  assert (Hold : gen_is_old c = false) by reflexivity.
  assert (Hmin : min_free_threshold flags c <= mutator_available c)
    by (vm_compute; discriminate).
  assert (Hlearn : learning_fires flags h c = false) by reflexivity.
  assert (Hrange : 0 <= mutator_available c < SizeT.modulus)
    by (split; [vm_compute; discriminate | vm_compute; reflexivity]).
  assert (Hused : mutator_available c
                  <= trigger_penalties h c + trigger_spike_headroom flags c)
    by (vm_compute; discriminate).
  assert (Hact : (0 < avg_cycle_time h)%Q) by (vm_compute; reflexivity).
  assert (Hpos : (0 < avg_alloc_rate h c)%Q) by (vm_compute; reflexivity).
  split; [exact Hold |]. split; [exact Hmin |]. split; [exact Hlearn |].
  split; [exact Hrange |]. split; [exact Hused |]. split; [exact Hact |].
  split; [exact Hpos |].
  exact (proj1 (proj2 (rate_trigger_condition flags h c Hold Hmin Hlearn Hrange))
           Hused Hact Hpos).
Defined.

(** X5: a rate of 500 against samples of mean 200 and deviation 50, with a
    threshold of 2: it is spiking for a threshold of 1, and so is a rate of
    600. *)
Lemma is_spiking_monotone_witness :
  let ar := mkAllocRate 0%Q 0 (1 # 10)
              (mkWindowSeq 10 (1 # 2) [150 # 1; 250 # 1]) empty_seq in
  is_spiking ar (500 # 1) 2 = true
  /\ is_spiking ar (500 # 1) 1 = true
  /\ is_spiking ar (600 # 1) 2 = true.
Proof.
  intro ar.
  assert (Hsp : is_spiking ar (500 # 1) 2 = true) by (vm_compute; reflexivity).
  split; [exact Hsp |]. split.
  - apply (proj1 (proj2 (proj2 (is_spiking_monotone ar (500 # 1) 2 Hsp))) 1%Q).
    vm_compute. discriminate.
  - apply (proj2 (proj2 (proj2 (is_spiking_monotone ar (500 # 1) 2 Hsp)))
             (600 # 1)).
    vm_compute. discriminate.
Defined.

(** X6: 100 MiB allocated in the first second. *)
Lemma sample_takes_rate_witness :
  exists rate ar',
    sample fresh_rate 1 (100 * MiB) = Some (rate, ar')
    /\ (0 <= rate)%Q
    /\ ((0 < rate)%Q <-> _last_sample_value fresh_rate < 100 * MiB)
    /\ _rate ar' = seq_add (_rate fresh_rate) rate
    /\ _rate_avg ar' = seq_add (_rate_avg fresh_rate) (seq_avg (_rate ar'))
    /\ _last_sample_time ar' = 1%Q
    /\ _last_sample_value ar' = 100 * MiB
    /\ _interval_sec ar' = _interval_sec fresh_rate.
Proof.
  apply (sample_takes_rate fresh_rate 1 (100 * MiB)).
  - vm_compute. discriminate.
  - vm_compute. reflexivity.
  - split; vm_compute; discriminate.
  - vm_compute. reflexivity.
Defined.

(** X7: a sample at 1 s and another call 0.05 s later. *)
Lemma sample_at_most_once_per_interval_witness :
  exists r1 ar1,
    sample fresh_rate 1 (100 * MiB) = Some (r1, ar1)
    /\ sample ar1 (21 # 20) (200 * MiB) = Some (0%Q, ar1).
Proof.
  assert (E : exists r1 ar1, sample fresh_rate 1 (100 * MiB) = Some (r1, ar1))
    by (vm_compute; do 2 eexists; reflexivity).
  destruct E as [r1 [ar1 E]]. exists r1, ar1. split; [exact E |].
  apply (sample_at_most_once_per_interval fresh_rate ar1 1 (21 # 20) r1
           (100 * MiB) (200 * MiB)).
  - vm_compute. reflexivity.
  - exact E.
  - vm_compute. discriminate.
Defined.

(** X8: 500 MiB allocated in one second against rates of 150 and 250 MiB/s,
    with 330 MiB available: the spike trigger fires. *)
Lemma spike_trigger_needs_sample_witness :
  let h := steady_heuristic 1 1 [MiBps 150; MiBps 250] [MiBps 200] in
  let c := collab_at 1 (330 * MiB) (500 * MiB) in
  recorded_trigger flags h c = Some SPIKE
  /\ (_interval_sec (_allocation_rate h)
      < elapsedTime c - _last_sample_time (_allocation_rate h))%Q
  /\ _last_sample_value (_allocation_rate h)
     < gen_bytes_allocated_since_gc_start c
  /\ decision flags h c = Some true.
Proof.
  intros h c.
  assert (Hrec : recorded_trigger flags h c = Some SPIKE)
    by (vm_compute; reflexivity).
  split; [exact Hrec |].
  exact (spike_trigger_needs_sample flags h c Hrec).
Defined.

(** X9: the rate scenario again, with the margin of error raised from 1
    to 2. *)
Lemma rate_trigger_monotone_in_margin_witness :
  let h := steady_heuristic 1 2 [MiBps 300] [MiBps 300] in
  let c := collab 0 (200 * MiB) (200 * MiB) in
  recorded_trigger flags h c = Some RATE
  /\ recorded_trigger flags (set_margin_of_error_sd h 2) c = Some RATE.
Proof.
  intros h c.
  assert (Hrec : recorded_trigger flags h c = Some RATE)
    by (vm_compute; reflexivity).
  split; [exact Hrec |].
  apply (rate_trigger_monotone_in_margin flags h c 2); try exact Hrec;
    vm_compute; discriminate.
Defined.

(** X10: a cycle started by the minimum-free trigger. *)
Lemma success_after_other_trigger_keeps_parameters_witness :
  exists h',
    should_start_gc flags (heuristic 1 2 RATE [100 # 1; 200 # 1])
      (collab 0 (50 * MiB) (50 * MiB)) = Some (true, h')
    /\ _last_trigger h' = OTHER
    /\ _margin_of_error_sd
         (record_success_concurrent h' (collab 0 260 300) false) = 1%Q
    /\ _spike_threshold_sd
         (record_success_concurrent h' (collab 0 260 300) false) = 2%Q.
Proof.
  assert (E : exists h',
    should_start_gc flags (heuristic 1 2 RATE [100 # 1; 200 # 1])
      (collab 0 (50 * MiB) (50 * MiB)) = Some (true, h')
    /\ _last_trigger h' = OTHER)
    by (vm_compute; eexists; split; reflexivity).
  destruct E as [h' [E Hother]]. exists h'.
  split; [exact E |]. split; [exact Hother |].
  exact (success_after_other_trigger_keeps_parameters flags _ h' _
           (collab 0 260 300) true false E Hother).
Defined.

(** X11: a cycle started at 10 s with the counter at 300 MiB from the cycle
    before; one second later 100 MiB have been allocated. *)
Lemma first_sample_of_cycle_witness :
  let h :=
    set_allocation_rate (heuristic 1 2 RATE [])
      (mkAllocRate 9 (300 * MiB) (1 # 10) empty_seq empty_seq) in
  exists rate ar',
    sample (_allocation_rate (record_cycle_start h (collab 10 0 0))) 11 (100 * MiB)
    = Some (rate, ar')
    /\ (0 <= rate)%Q
    /\ ((0 < rate)%Q <-> 0 < 100 * MiB)
    /\ _rate ar' = seq_add empty_seq rate
    /\ _last_sample_time ar' = 11%Q
    /\ _last_sample_value ar' = 100 * MiB.
Proof.
  intro h.
  apply (proj1 (first_sample_of_cycle h (collab 10 0 0) 11 (100 * MiB)
                  ltac:(vm_compute; discriminate)
                  ltac:(vm_compute; reflexivity)
                  ltac:(split; [vm_compute; discriminate | vm_compute; reflexivity]))).
Defined.


Lemma scenario_parameters_in_confidence (t : Trigger) (history : list Q) :
  parameters_in_confidence (heuristic 1 2 t history).
Proof. split; split; vm_compute; discriminate. Defined.


(** X13: a degenerated and a full cycle from a margin of 1 and a threshold
    of 2. *)
Lemma degenerated_and_full_tighten_witness :
  (_margin_of_error_sd (record_success_degenerated (heuristic 1 2 RATE []))
   <= _margin_of_error_sd (record_success_full (heuristic 1 2 RATE [])))%Q
  /\ (_spike_threshold_sd (record_success_full (heuristic 1 2 RATE []))
      <= _spike_threshold_sd (record_success_degenerated (heuristic 1 2 RATE [])))%Q.
Proof.
  pose proof (proj1 (degenerated_and_full_tighten (heuristic 1 2 RATE [])
                       (scenario_parameters_in_confidence RATE []))) as Ht.
  split; [exact (proj1 (proj2 Ht)) | exact (proj1 (proj2 (proj2 Ht)))].
Defined.


(** X16: with 20 MiB available and one region to be reclaimed, 24 MiB are
    anticipated, less than the spike headroom of 51.2 MiB: the runway is 0. *)
Lemma runway_bounds_witness :
  exists r,
    runway flags (heuristic 1 2 OTHER []) (collab 0 (20 * MiB) (20 * MiB)) 1
    = Some r
    /\ r = 0.
Proof.
  destruct (runway_bounds flags (heuristic 1 2 OTHER [])
              (collab 0 (20 * MiB) (20 * MiB)) 1) as [r [Heq [_ [_ [_ Hzero]]]]].
  exists r. split.
  - unfold runway. rewrite Heq. reflexivity.
  - apply Hzero. vm_compute. discriminate.
Defined.

(** X17: the five regions of the non-generational scenario. *)
Lemma chooser_adds_candidates_once_witness :
  NoDup (map _region s7_data)
  /\ NoDup
       (added_regions (cset_with [])
          (choose_collection_set_from_regiondata flags
             (collab 0 (160 * MiB) (160 * MiB)) (cset_with []) s7_data
             (160 * MiB))).
Proof.
  assert (Hnd : NoDup (map _region s7_data)).
  { apply (NoDup_count_occ' region_eq_dec). intros r Hin.
    cbn in Hin.
    repeat (destruct Hin as [Hr | Hin]; [subst r; vm_compute; reflexivity |]).
    destruct Hin. }
  split; [exact Hnd |].
  exact (proj1 (proj2 (proj2 (proj2 (proj2
           (chooser_adds_candidates_once flags
              (collab 0 (160 * MiB) (160 * MiB)) (cset_with []) s7_data
              (160 * MiB)))))) Hnd).
Defined.

Lemma s7_live_sizes_fit :
  live_sizes_fit (nongen_max_cset flags (collab 0 (160 * MiB) (160 * MiB)))
    s7_data.
Proof.
  repeat constructor; vm_compute; first [discriminate | reflexivity].
Defined.

(** X18: the live bytes chosen in the non-generational scenario are within
    61.44 MiB. *)
Lemma evacuated_live_bytes_within_reserve_witness :
  live_bytes
    (added_regions (cset_with [])
       (choose_collection_set_from_regiondata flags
          (collab 0 (160 * MiB) (160 * MiB)) (cset_with []) s7_data (160 * MiB)))
  <= nongen_max_cset flags (collab 0 (160 * MiB) (160 * MiB)).
Proof.
  apply (proj1 (evacuated_live_bytes_within_reserve flags
                  (collab 0 (160 * MiB) (160 * MiB)) (cset_with []) s7_data
                  (160 * MiB))).
  - reflexivity.
  - vm_compute. discriminate.
  - exact s7_live_sizes_fit.
Defined.

(** X19: with 200 MiB free the target is met, and only regions above the
    garbage threshold are chosen from the five. *)
Lemma garbage_threshold_is_soft_witness :
  chooser_min_garbage flags (collab 0 (200 * MiB) (200 * MiB)) (200 * MiB) = 0
  /\ Forall (fun r =>
               (mode_is_generational (collab 0 (200 * MiB) (200 * MiB)) = true
                /\ is_preselected (cset_with []) (index r) = true)
               \/ garbage r > garbage_threshold flags)
       (added_regions (cset_with [])
          (choose_collection_set_from_regiondata flags
             (collab 0 (200 * MiB) (200 * MiB)) (cset_with []) s7_data
             (200 * MiB))).
Proof.
  assert (Hzero : chooser_min_garbage flags (collab 0 (200 * MiB) (200 * MiB))
                    (200 * MiB) = 0) by (vm_compute; reflexivity).
  split; [exact Hzero |].
  exact (proj2 (garbage_threshold_is_soft flags
                  (collab 0 (200 * MiB) (200 * MiB)) (cset_with []) s7_data
                  (200 * MiB)) Hzero).
Defined.

(** X20: the five regions hold 11 MiB of live data, within the cap; every
    one of them above the garbage threshold is chosen. *)
Lemma unconstrained_choice_takes_all_above_threshold_witness :
  In (region 4 0 false 2 2)
    (added_regions (cset_with [])
       (choose_collection_set_from_regiondata flags
          (collab 0 (160 * MiB) (160 * MiB)) (cset_with []) s7_data (160 * MiB))).
Proof.
  apply (proj1 (unconstrained_choice_takes_all_above_threshold flags
                  (collab 0 (160 * MiB) (160 * MiB)) (cset_with []) s7_data
                  (160 * MiB))
           eq_refl s7_live_sizes_fit ltac:(vm_compute; discriminate)
           (entry (region 4 0 false 2 2))).
  - cbn. do 4 right. left. reflexivity.
  - vm_compute. reflexivity.
Defined.

(** X21: a global collection over two old and three young candidates with
    pairwise distinct garbage, and a young collection over the young ones. *)
Lemma global_chooses_young_like_young_collection_witness :
  let data :=
    [entry (region 0 9 true 1 3); entry (region 1 9 false 1 4);
     entry (region 2 9 false 1 1); entry (region 3 1 false 1 2);
     entry (region 4 0 true 2 5)] in
  NoDup (map _garbage data)
  /\ filter (fun r => negb (is_old r))
       (added_regions (cset_with [2])
          (choose_collection_set_from_regiondata flags (generational_collab true)
             (cset_with [2]) data (512 * MiB)))
     = added_regions (cset_with [2])
         (choose_collection_set_from_regiondata flags
            (with_global (generational_collab true) false) (cset_with [2])
            (young_entries data) (512 * MiB)).
Proof.
  intro data.
  assert (Hdistinct : NoDup (map _garbage data)).
  { repeat constructor; cbn; intro Hx;
      repeat (destruct Hx as [Hx | Hx]; [discriminate Hx |]); exact Hx. }
  assert (Hpresel : Forall (fun d => is_preselected (cset_with [2])
                                       (index (_region d)) = true ->
                                     is_old (_region d) = false) data)
    by (repeat constructor; cbn; intro Hx; first [discriminate Hx | reflexivity]).
  split; [exact Hdistinct |].
  exact (proj2 (proj2 (global_chooses_young_like_young_collection flags
                         (generational_collab true) (cset_with [2]) data
                         (512 * MiB) eq_refl eq_refl Hpresel Hdistinct))).
Defined.

(** X22: 900 MiB available and 8 MiB of promotions pending. *)
Lemma pending_promotions_always_trigger_witness :
  decision flags (steady_heuristic 1 2 [] []) (promoting_collab (900 * MiB))
  = Some true.
Proof.
  apply pending_promotions_always_trigger;
    [reflexivity | reflexivity | left; vm_compute; reflexivity].
Defined.

(** X23: the rate scenario with 150 MiB available instead of 200 MiB. *)
Lemma less_available_keeps_trigger_witness :
  let h := steady_heuristic 1 2 [MiBps 300] [MiBps 300] in
  let c := collab 0 (200 * MiB) (200 * MiB) in
  decision flags h c = Some true
  /\ decision flags h (with_available c (150 * MiB) (150 * MiB)) = Some true.
Proof.
  intros h c.
  assert (Hdec : decision flags h c = Some true) by (vm_compute; reflexivity).
  split; [exact Hdec |].
  apply (less_available_keeps_trigger flags h c (150 * MiB) (150 * MiB)).
  - split; vm_compute; discriminate.
  - vm_compute. reflexivity.
  - vm_compute. discriminate.
  - reflexivity.
  - exact Hdec.
Defined.


End MoreInstances.
